(** * SSIHyperledger: Merkle credential binding and the identity chaincode

  A shallow embedding of
    - [lib/merkle-utils.js]  (Poseidon Merkle tree over credential fields),
    - [lib/identity.js]      (identity chaincode, wall-clock timestamps,
                              three-signal [VerifyAge]),
    - the second copy of the chaincode (transaction timestamps,
      single-signal [VerifyAge]),
  together with the properties the specification states about them.

  Conventions of the embedding.
    - A JavaScript string is the Rocq [string] of its UTF-8 bytes, which is
      what [TextEncoder.encode] returns for it.
    - A [BigInt] is a [Z].  A JavaScript number is a [number]: NaN, an
      infinity, or the dyadic rational [m * 2^e] (every finite double is one).
    - [throw new Error(...)] is the [Err] outcome, one constructor of
      [error] per throw site.
    - The Poseidon permutation, [JSON.parse], [Number(string)], the
      Groth16 verifier and the verification key file are external to the
      repository: they are Section variables or fields of [Runtime]. *)

From Stdlib Require Import ZArith Ascii String DecimalString DecimalN Lia.
From stdpp Require Import base option strings list gmap.
From Equations Require Import Equations.

Local Open Scope Z_scope.

(** ** Outcomes of a JavaScript call *)

Inductive error : Type :=
  (* runtime errors of the language *)
  | JSSyntaxError                       (* BigInt("abc"), JSON.parse *)
  | JSRangeError                        (* BigInt(1.5) *)
  | JSTypeError                         (* BigInt(undefined), property of null *)
  (* merkle-utils.js *)
  | CannotConvertValue                  (* Cannot convert value of type ... to field element *)
  | EmptyLeaves                         (* Cannot build Merkle tree from empty leaves *)
  | InvalidTreeObject                   (* Invalid tree object *)
  | LeafIndexOutOfBounds (leafIndex : Z) (* Leaf index ... out of bounds *)
  | InvalidProofStructure               (* Invalid proof structure *)
  | FieldsRequired                      (* fields and fieldOrder are required *)
  | FieldNotFound (fieldName : string)  (* Field ... not found in credential fields *)
  (* identity.js *)
  | UserAndHashRequired                 (* userID and credentialHash are required *)
  | CredentialExists (userID : string)  (* Credential for user ... already exists *)
  | UserRequired                        (* userID is required *)
  | NoCredential (userID : string)      (* No credential found for user ... *)
  | PayloadRequired                     (* proofJSON and publicSignalsJSON are required *)
  | InvalidJSON                         (* Invalid JSON for proof or public signals *)
  | KeyUnreadable                       (* Unable to read verification key at ... *)
  | SnarkjsFailed                       (* snarkjs verification failed: ... *)
  | MinimumAgeRequired                  (* minimumAge is required *)
  | MinimumAgeNotPositive               (* minimumAge must be a positive integer *)
  | ProofVerificationFailed             (* Proof verification failed *)
  | SignalsTooShort                     (* Public signals must include at least [...] *)
  | SignalsEmpty                        (* Public signals empty *)
  | CircuitMinAgeUnparsed               (* Circuit minimum age signal could not be parsed *)
  | CircuitMinAgeMismatch               (* Circuit minimum age (..) does not match requested minimum age (..) *)
  | NotOfAge                            (* Proof indicates the holder does not meet the minimum age requirement *)
  | NotAdult                            (* Proof indicates the holder is NOT an adult (isAdult != 1) *)
  (* fabric-shim *)
  | BadCompositeKey.                    (* object type or attribute not a non-zero length string *)

Inductive result (A : Type) : Type :=
  | OK (a : A)
  | Err (e : error).
Arguments OK {A} a.
Arguments Err {A} e.

Definition rbind {A B} (r : result A) (k : A -> result B) : result B :=
match r with
  | OK a => k a
  | Err e => Err e
end.

Global Instance result_ret : MRet result := @OK.
Global Instance result_bind : MBind result := fun A B k r => rbind r k.

Definition of_option {A} (o : option A) (e : error) : result A :=
match o with
  | Some a => OK a
  | None => Err e
end.

(** ** Strings *)

Module JSString.

Definition bytes (s : string) : list ascii := list_ascii_of_string s.

Definition byte_value (c : ascii) : Z := Z.of_N (N_of_ascii c).

Definition is_digit (c : ascii) : bool :=
  (48 <=? byte_value c) && (byte_value c <=? 57).

(** [/^\d+$/.test(s)] *)
Definition all_digits (s : string) : bool :=
  match s with
  | EmptyString => false
  | _ => forallb is_digit (bytes s)
  end.

Fixpoint strip_prefix (p s : list ascii) : option (list ascii) :=
  match p with
  | [] => Some s
  | a :: p' =>
      match s with
      | [] => None
      | b :: s' => if Ascii.eqb a b then strip_prefix p' s' else None
      end
  end.

(** The UTF-8 encodings of ECMAScript's WhiteSpace and LineTerminator
    code points: TAB LF VT FF CR SP, U+00A0, U+1680, U+2000..U+200A,
    U+2028, U+2029, U+202F, U+205F, U+3000, U+FEFF. *)
Definition white_space : list (list ascii) :=
  [ ["009"]; ["010"]; ["011"]; ["012"]; ["013"]; ["032"];
    ["194"; "160"];
    ["225"; "154"; "128"];
    ["226"; "128"; "128"]; ["226"; "128"; "129"]; ["226"; "128"; "130"];
    ["226"; "128"; "131"]; ["226"; "128"; "132"]; ["226"; "128"; "133"];
    ["226"; "128"; "134"]; ["226"; "128"; "135"]; ["226"; "128"; "136"];
    ["226"; "128"; "137"]; ["226"; "128"; "138"];
    ["226"; "128"; "168"]; ["226"; "128"; "169"]; ["226"; "128"; "175"];
    ["226"; "129"; "159"];
    ["227"; "128"; "128"];
    ["239"; "187"; "191"] ]%char.

Fixpoint strip_any (ps : list (list ascii)) (s : list ascii) : option (list ascii) :=
  match ps with
  | [] => None
  | p :: ps' =>
      match strip_prefix p s with
      | Some r => Some r
      | None => strip_any ps' s
      end
  end.

(** Drop the patterns [ps] from the front of [s] for as long as one matches. *)
Fixpoint trim_go (ps : list (list ascii)) (fuel : nat) (s : list ascii) : list ascii :=
  match fuel with
  | O => s
  | S fuel' =>
      match strip_any ps s with
      | Some r => trim_go ps fuel' r
      | None => s
      end
  end.

Definition trimStart (s : string) : string :=
  string_of_list_ascii (trim_go white_space (String.length s) (bytes s)).

Definition trimEnd (s : string) : string :=
  string_of_list_ascii
    (rev (trim_go (map (@rev ascii) white_space) (String.length s) (rev (bytes s)))).

Definition trim (s : string) : string := trimEnd (trimStart s).

Definition lower_char (c : ascii) : ascii :=
  if (65 <=? byte_value c) && (byte_value c <=? 90)
  then ascii_of_N (N_of_ascii c + 32) else c.

(** [s.toLowerCase()], on the ASCII letters. *)
Fixpoint toLowerCase (s : string) : string :=
  match s with
  | EmptyString => EmptyString
  | String c r => String (lower_char c) (toLowerCase r)
  end.

End JSString.

(** ** BigInt *)

Module BigInt.
Import JSString.

(** [n.toString()] for a non-negative BigInt. *)
Definition natToString (n : N) : string :=
  NilEmpty.string_of_uint (N.to_uint n).

(** [z.toString()] *)
Definition toString (z : Z) : string :=
  if z <? 0 then String "-" (natToString (Z.abs_N z)) else natToString (Z.to_N z).

Definition decimalDigits (s : string) : option Z :=
  match s with
  | EmptyString => None
  | _ => (fun d => Z.of_N (N.of_uint d)) <$> NilEmpty.uint_of_string s
  end.

Definition digit_in_radix (radix : Z) (c : ascii) : option Z :=
  let v := byte_value c in
  let d := if (48 <=? v) && (v <=? 57) then v - 48
           else if (97 <=? v) && (v <=? 102) then v - 87
           else if (65 <=? v) && (v <=? 70) then v - 55
           else radix in
  if d <? radix then Some d else None.

Fixpoint radix_go (radix : Z) (acc : Z) (s : string) : option Z :=
  match s with
  | EmptyString => Some acc
  | String c r =>
      match digit_in_radix radix c with
      | Some d => radix_go radix (acc * radix + d) r
      | None => None
      end
  end.

Definition radixDigits (radix : Z) (s : string) : option Z :=
  match s with
  | EmptyString => None
  | _ => radix_go radix 0 s
  end.

(** StringToBigInt of ECMA-262: surrounding white space is dropped, the
    empty string is [0n], a decimal literal may carry a sign, a literal
    with prefix 0x, 0o or 0b may not. *)
Definition ofString (s : string) : option Z :=
  let t := trim s in
  match t with
  | EmptyString => Some 0
  | String "+" r => decimalDigits r
  | String "-" r => Z.opp <$> decimalDigits r
  | String "0" (String c r) =>
      if Ascii.eqb c "x" || Ascii.eqb c "X" then radixDigits 16 r
      else if Ascii.eqb c "o" || Ascii.eqb c "O" then radixDigits 8 r
      else if Ascii.eqb c "b" || Ascii.eqb c "B" then radixDigits 2 r
      else decimalDigits t
  | _ => decimalDigits t
  end%char.

End BigInt.

(** ** Numbers *)

Inductive number : Type :=
  | NaN
  | Infinity (negative : bool)
  | Finite (m : Z) (e : Z).            (* m * 2^e *)

Module Number.

Definition isNaN (x : number) : bool :=
  match x with NaN => true | _ => false end.

(** [x === y] on numbers *)
Definition eqb (x y : number) : bool :=
  match x, y with
  | Infinity a, Infinity b => Bool.eqb a b
  | Finite m1 e1, Finite m2 e2 =>
      let e := Z.min e1 e2 in
      m1 * 2 ^ (e1 - e) =? m2 * 2 ^ (e2 - e)
  | _, _ => false
  end.

(** [x <= 0] *)
Definition le0 (x : number) : bool :=
  match x with
  | NaN => false
  | Infinity negative => negative
  | Finite m _ => m <=? 0
  end.

Definition ofInt (z : Z) : number := Finite z 0.

(** [Number(z)] for a BigInt [z]: the nearest double, ties to even. *)
Definition ofBigInt (z : Z) : number :=
  let a := Z.abs z in
  if a <? 2 ^ 53 then Finite z 0
  else
    let k := Z.log2 a - 52 in
    let q := Z.shiftr a k in
    let r := Z.land a (Z.ones k) in
    let half := 2 ^ (k - 1) in
    let q' := if (half <? r) || ((half =? r) && Z.odd q) then q + 1 else q in
    if 2 ^ 1024 <=? q' * 2 ^ k then Infinity (z <? 0)
    else Finite (Z.sgn z * q') k.

(** [BigInt(x)] for a number [x]: a RangeError unless [x] is an integer. *)
Definition toBigInt (x : number) : result Z :=
  match x with
  | Finite m e =>
      if 0 <=? e then OK (m * 2 ^ e)
      else if m mod 2 ^ (- e) =? 0 then OK (m / 2 ^ (- e))
      else Err JSRangeError
  | _ => Err JSRangeError
  end.

End Number.

(** ** lib/merkle-utils.js *)

(** The values the utility is called with: strings, numbers, BigInts, and
    [undefined] (an array read out of range). *)
Inductive value : Type :=
  | VUndefined
  | VNumber (x : number)
  | VBigInt (z : Z)
  | VString (s : string).

(** The conversion [BigInt(v)]. *)
Definition toBigInt (v : value) : result Z :=
  match v with
  | VUndefined => Err JSTypeError
  | VNumber x => Number.toBigInt x
  | VBigInt z => OK z
  | VString s => of_option (BigInt.ofString s) JSSyntaxError
  end.

(** [if (v)] *)
Definition truthy (v : value) : bool :=
  match v with
  | VUndefined => false
  | VNumber x => negb (Number.isNaN x || Number.eqb x (Number.ofInt 0))
  | VBigInt z => negb (z =? 0)
  | VString s => negb (String.eqb s "")
  end.

(** [v === 0] *)
Definition is_zero (v : value) : bool :=
  match v with
  | VNumber x => Number.eqb x (Number.ofInt 0)
  | _ => false
  end.

Record MerkleTree : Type := {
  layers : list (list string);
  root : value;
}.

Record MerkleProof : Type := {
  pathElements : list value;
  pathIndices : list value;
}.

Record CredentialRoot : Type := {
  rootHash : value;
  tree : MerkleTree;
  leaves : list string;
}.

(** The property names of [Object.prototype]. *)
Definition objectPrototypeNames : list string :=
  ["constructor"; "__defineGetter__"; "__defineSetter__"; "hasOwnProperty";
   "__lookupGetter__"; "__lookupSetter__"; "isPrototypeOf"; "propertyIsEnumerable";
   "toString"; "valueOf"; "__proto__"; "toLocaleString"].

Module MerkleUtils.
Import JSString.

Section Poseidon.

(** [poseidon(inputs)] of circomlibjs, read back as the canonical
    representative of the field element ([poseidon.F.toString] prints it). *)
Variable poseidon : list Z -> N.

Definition valueToFieldElement (value : value) : result Z :=
  match value with
  | VBigInt z => OK z
  | VNumber x => Number.toBigInt x
  | VString s =>
      if all_digits s then toBigInt (VString s)
      else
        OK (fold_left (fun result b => result * 256 + byte_value b)
                      (take 31 (bytes s)) 0)
  | VUndefined => Err CannotConvertValue
  end.

Definition poseidonHash (value : value) : result string :=
  fieldElement ← valueToFieldElement value;
  mret (BigInt.natToString (poseidon [fieldElement])).

Definition poseidonHash2 (left right : value) : result string :=
  leftField ← valueToFieldElement left;
  rightField ← valueToFieldElement right;
  mret (BigInt.natToString (poseidon [leftField; rightField])).

Definition computeLeafHash (fieldValue salt : value) : result string :=
  if truthy salt then
    s ← toBigInt salt;
    if negb (s =? 0) then poseidonHash2 fieldValue salt
    else poseidonHash fieldValue
  else poseidonHash fieldValue.

(** The [for (i = 0; i < currentLayer.length; i += 2)] loop. *)
Fixpoint nextLayer (currentLayer : list string) : result (list string) :=
  match currentLayer with
  | [] => OK []
  | [lft] =>
      parentHash ← poseidonHash2 (VString lft) (VString lft);
      mret [parentHash]
  | lft :: rgt :: rest =>
      parentHash ← poseidonHash2 (VString lft) (VString rgt);
      nextLayer' ← nextLayer rest;
      mret (parentHash :: nextLayer')
  end.

Definition inspect {A : Type} (x : A) : {y : A | x = y} := exist _ x eq_refl.

(** The [while (currentLayer.length > 1)] loop: the layers pushed after
    [currentLayer], and the [currentLayer] it stops at. *)
Equations? buildLoop (currentLayer : list string) :
  result (list (list string) * list string) by wf (length currentLayer) lt :=
buildLoop currentLayer with le_lt_dec (length currentLayer) 1 := {
  | left _ => OK ([], currentLayer)
  | right _ with inspect (nextLayer currentLayer) := {
    | exist _ (Err e) _ => Err e
    | exist _ (OK next) Hnext =>
        '(pushed, final) ← buildLoop next;
        mret (next :: pushed, final) } }.
Proof.
  assert (Hlen : forall xs n, nextLayer xs = OK n -> length n = Nat.div2 (S (length xs))).
  { intros xs. induction xs as [[|a [|b xs]] IH] using (induction_ltof1 _ (@length _));
      unfold ltof in *; intros n H.
    - injection H as <-. reflexivity.
    - simpl in H. destruct (poseidonHash2 _ _); simpl in H; [|discriminate].
      injection H as <-. reflexivity.
    - simpl in H. destruct (poseidonHash2 _ _); simpl in H; [|discriminate].
      destruct (nextLayer xs) as [n0|] eqn:E; simpl in H; [|discriminate].
      injection H as <-. simpl. f_equal. apply IH; [simpl; lia | exact E]. }
  apply Hlen in Hnext. rewrite Hnext.
  destruct currentLayer as [|? [|? rest]]; cbn [length] in *; try lia.
  change (S (Nat.div2 (S (length rest))) < S (S (length rest)))%nat.
  pose proof (Nat.div2_decr (S (length rest)) (length rest)). lia.
Qed.

Definition buildMerkleTree (leaves : list value) : result MerkleTree :=
  match leaves with
  | [] => Err EmptyLeaves
  | _ =>
      currentLayer ← mapM (fun leaf => z ← toBigInt leaf; mret (BigInt.toString z)) leaves;
      '(pushed, final) ← buildLoop currentLayer;
      mret {| layers := currentLayer :: pushed;
              root := from_option VString VUndefined (final !! 0%nat) |}
  end.

Definition getRootHash (tree : MerkleTree) : result value :=
  if truthy (root tree) then OK (root tree) else Err InvalidTreeObject.

(** [layer[index]] for a number [index]. *)
Definition element (layer : list string) (index : Z) : value :=
  if index <? 0 then VUndefined
  else from_option VString VUndefined (layer !! Z.to_nat index).

(** One iteration of the [for (level = 0; level < tree.layers.length - 1; level++)]
    loop, on the variables [pathElements], [pathIndices] and [currentIndex]. *)
Definition proofStep (tree : MerkleTree) (st : list value * list value * Z) (level : nat) :
  list value * list value * Z :=
  let '(pathElements, pathIndices, currentIndex) := st in
  let currentLayer := default [] (layers tree !! level) in
  let isLeftChild := Z.rem currentIndex 2 =? 0 in
  let siblingIndex := if isLeftChild then currentIndex + 1 else currentIndex - 1 in
  let sibling :=
    if siblingIndex <? Z.of_nat (length currentLayer)
    then element currentLayer siblingIndex
    else element currentLayer currentIndex in
  (pathElements ++ [sibling],
   pathIndices ++ [VNumber (Number.ofInt (if isLeftChild then 0 else 1))],
   currentIndex / 2).

Definition generateMerkleProof (tree : MerkleTree) (leafIndex : Z) : result MerkleProof :=
  match layers tree with
  | [] => Err InvalidTreeObject
  | leaves :: _ =>
      if (leafIndex <? 0) || (Z.of_nat (length leaves) <=? leafIndex)
      then Err (LeafIndexOutOfBounds leafIndex)
      else
        let '(pathElements, pathIndices, _) :=
          fold_left (proofStep tree) (seq 0 (length (layers tree) - 1)) ([], [], leafIndex) in
        OK {| pathElements := pathElements; pathIndices := pathIndices |}
  end.

(** The [for (i = 0; i < pathElements.length; i++)] loop of the verifier. *)
Fixpoint verifyLoop (currentHash : string) (pathElements pathIndices : list value) :
  result string :=
  match pathElements, pathIndices with
  | element :: pathElements', index :: pathIndices' =>
      z ← toBigInt element;
      let sibling := BigInt.toString z in
      let isLeftChild := is_zero index in
      currentHash' ← (if isLeftChild
                      then poseidonHash2 (VString currentHash) (VString sibling)
                      else poseidonHash2 (VString sibling) (VString currentHash));
      verifyLoop currentHash' pathElements' pathIndices'
  | _, _ => OK currentHash
  end.

Definition verifyMerkleProof (leaf : value) (proof : MerkleProof) (root : value) :
  result bool :=
  if negb (length (pathElements proof) =? length (pathIndices proof))%nat
  then Err InvalidProofStructure
  else
    z ← toBigInt leaf;
    currentHash ← verifyLoop (BigInt.toString z) (pathElements proof) (pathIndices proof);
    r ← toBigInt root;
    mret (String.eqb currentHash (BigInt.toString r)).

(** [fields] is an ordinary object: the map holds its own properties, and
    [name in fields] is also true for the names it inherits from
    [Object.prototype].  [fields[name]] is then a function (for [__proto__]
    the prototype object), a value on whose type [valueToFieldElement]
    throws. *)
Definition computeCredentialRoot (fields : gmap string value) (fieldOrder : list string) :
  result CredentialRoot :=
  match fieldOrder with
  | [] => Err FieldsRequired
  | _ =>
      leaves ← mapM (fun fieldName =>
                       match fields !! fieldName with
                       | None =>
                           if bool_decide (fieldName ∈ objectPrototypeNames)
                           then Err CannotConvertValue
                           else Err (FieldNotFound fieldName)
                       | Some fieldValue => computeLeafHash fieldValue (VNumber (Number.ofInt 0))
                       end) fieldOrder;
      tree ← buildMerkleTree (VString <$> leaves);
      mret {| rootHash := root tree; tree := tree; leaves := leaves |}
  end.

End Poseidon.
End MerkleUtils.

(** ** The JavaScript and Fabric runtime of the chaincode *)

#[warnings="-register-all"]
Inductive json : Type :=
  | JNull
  | JBool (b : bool)
  | JNum (x : number)
  | JStr (s : string)
  | JArr (items : list json)
  | JObj (fields : list (string * json)).

(** What the chaincode takes from outside the repository. *)
Record Runtime : Type := {
  (** [JSON.parse(text)]; [None] is a SyntaxError *)
  JSON_parse : string -> option json;
  (** [Number(text)] for a string that [BigInt] rejects *)
  Number_of_string : string -> number;
  (** the parsed [verification_key.json]; [None] when it cannot be read *)
  readVerificationKey : option json;
  (** [snarkjs.groth16.verify(vKey, publicSignals, proof)]; [None] when it throws *)
  groth16_verify : json -> json -> json -> option bool;
  (** whether the iterator that an awaited [getStateByPartialCompositeKey]
      resolves to can be iterated with [for await]; fabric-shim offers
      [next()] and [close()] on it *)
  awaited_iterator_is_async_iterable : bool;
}.

(** The transaction context of the stub: [getTxID()] and
    [getTxTimestamp().seconds.low]. *)
Record TxContext : Type := {
  txID : string;
  txSeconds : Z;
}.

(** The executing peer: what [new Date()] reads, in milliseconds. *)
Record Peer : Type := {
  wallClock : Z;
}.

(** The stub's view of the ledger during one transaction: the world state
    (a value stands for the bytes of its [JSON.stringify]) and the event set
    by [setEvent]. *)
Record Ledger : Type := {
  worldState : gmap string json;
  event : option (string * json);
}.

Definition Tx (A : Type) : Type := Ledger -> result A * Ledger.

Definition tx_ret {A} (a : A) : Tx A := fun l => (OK a, l).

Definition tx_bind {A B} (k : A -> Tx B) (m : Tx A) : Tx B :=
  fun l =>
    match m l with
    | (OK a, l') => k a l'
    | (Err e, l') => (Err e, l')
    end.

Global Instance Tx_ret : MRet Tx := @tx_ret.
Global Instance Tx_bind : MBind Tx := @tx_bind.

Definition throw {A} (e : error) : Tx A := fun l => (Err e, l).

Definition lift {A} (r : result A) : Tx A := fun l => (r, l).

Module Date.

(** [n] in decimal, left-padded with zeros to [width] digits. *)
Definition pad (width : nat) (n : Z) : string :=
  let s := BigInt.natToString (Z.to_N n) in
  String.app (string_of_list_ascii (replicate (width - String.length s) "0"%char)) s.

(** Year, month and day of the day number [days] since 1970-01-01 in the
    proleptic Gregorian calendar. *)
Definition civil (days : Z) : Z * Z * Z :=
  let z := days + 719468 in
  let era := z / 146097 in
  let doe := z - era * 146097 in
  let yoe := (doe - doe / 1460 + doe / 36524 - doe / 146096) / 365 in
  let doy := doe - (365 * yoe + yoe / 4 - yoe / 100) in
  let mp := (5 * doy + 2) / 153 in
  let d := doy - (153 * mp + 2) / 5 + 1 in
  let m := if mp <? 10 then mp + 3 else mp - 9 in
  let y := yoe + era * 400 + (if m <=? 2 then 1 else 0) in
  (y, m, d).

(** [new Date(ms).toISOString()].  A time value beyond 8.64e15 ms is an
    invalid Date in JavaScript; neither a clock nor a 32-bit number of
    seconds reaches it. *)
Definition toISOString (ms : Z) : string :=
  let '(y, m, d) := civil (ms / 86400000) in
  let t := ms mod 86400000 in
  let year :=
    if (0 <=? y) && (y <=? 9999) then pad 4 y
    else String.app (if y <? 0 then "-" else "+") (pad 6 (Z.abs y)) in
  String.app year (String.app "-" (String.app (pad 2 m) (String.app "-" (String.app (pad 2 d)
    (String.app "T" (String.app (pad 2 (t / 3600000)) (String.app ":" (String.app (pad 2 (t / 60000 mod 60))
    (String.app ":" (String.app (pad 2 (t / 1000 mod 60)) (String.app "." (String.app (pad 3 (t mod 1000)) "Z")))))))))))).

End Date.

Module Stub.

(** [createCompositeKey] of fabric-shim: every part must be a non-empty
    string; the key is U+0000, the object type, and each attribute, each
    followed by U+0000. *)
Definition createCompositeKey (objectType : string) (attributes : list string) : Tx string :=
  if String.eqb objectType "" then throw BadCompositeKey
  else if existsb (fun a => String.eqb a "") attributes then throw BadCompositeKey
  else
    mret (fold_left (fun compositeKey attribute =>
                       String.app compositeKey (String.app attribute (String "000" "")))
                    attributes
                    (String "000" (String.app objectType (String "000" "")))).

(** [getState(key)]: [None] is the empty buffer of an absent key. *)
Definition getState (key : string) : Tx (option json) :=
  fun l => (OK (worldState l !! key), l).

Definition putState (key : string) (value : json) : Tx unit :=
  fun l => (OK tt, {| worldState := <[key := value]> (worldState l); event := event l |}).

Definition setEvent (name : string) (payload : json) : Tx unit :=
  fun l => (OK tt, {| worldState := worldState l; event := Some (name, payload) |}).

(** [getStateByPartialCompositeKey(objectType, [])]: the values under the
    keys of that object type, in the iteration order of the map. *)
Definition getStateByPartialCompositeKey (objectType : string) : Tx (list json) :=
  fun l =>
    let prefix := String "000" (String.app objectType (String "000" "")) in
    (OK (snd <$> filter (fun kv => String.prefix prefix (fst kv) = true)
                        (map_to_list (worldState l))), l).

End Stub.

Module Json.

(** A number as [JSON.stringify] writes it: NaN and the infinities become [null]. *)
Definition ofNumber (x : number) : json :=
  match x with
  | Finite _ _ => JNum x
  | _ => JNull
  end.

Fixpoint get_field (name : string) (fields : list (string * json)) : option json :=
  match fields with
  | [] => None
  | (k, v) :: rest => if String.eqb k name then Some v else get_field name rest
  end.

(** An assignment keeps the place of a key the object has and appends a new one. *)
Fixpoint set_field (name : string) (v : json) (fields : list (string * json)) :
  list (string * json) :=
  match fields with
  | [] => [(name, v)]
  | (k, w) :: rest =>
      if String.eqb k name then (k, v) :: rest else (k, w) :: set_field name v rest
  end.

(** [obj.name = v] in strict mode, as far as [JSON.stringify(obj)] shows it:
    a named property of an array is not serialised, and assigning to a
    property of [null] or of a primitive is a TypeError. *)
Definition setProperty (obj : json) (name : string) (v : json) : result json :=
  match obj with
  | JObj fields => OK (JObj (set_field name v fields))
  | JArr items => OK (JArr items)
  | _ => Err JSTypeError
  end.

(** [v === s] for a string literal [s] *)
Definition is_string (v : json) (s : string) : bool :=
  match v with
  | JStr t => String.eqb t s
  | _ => false
  end.

(** [items[i]], read in range. *)
Definition index (items : list json) (i : nat) : json :=
  default JNull (items !! i).

End Json.

(** The helper functions above the contract class of lib/identity.js.  The
    second copy of the chaincode has the same [toNumber] and
    [toBooleanSignal], and a [verifyGroth16Payload] of its own. *)
Module Helpers.
Import JSString.

Fixpoint leading_digits (acc : option Z) (s : string) : option Z :=
  match s with
  | EmptyString => acc
  | String c r =>
      if is_digit c
      then leading_digits (Some (default 0 acc * 10 + (byte_value c - 48))) r
      else acc
  end.

(** [parseInt(s, 10)] *)
Definition parseInt (s : string) : number :=
  let t := trimStart s in
  let '(sign, r) :=
    match t with
    | String "-" r => (-1, r)
    | String "+" r => (1, r)
    | _ => (1, t)
    end%char in
  match leading_digits None r with
  | None => NaN
  | Some v => Number.ofBigInt (sign * v)
  end.

Definition verifyGroth16Payload (rt : Runtime) (proofJSON publicSignalsJSON : string) :
  result (bool * json) :=
  if String.eqb proofJSON "" || String.eqb publicSignalsJSON "" then Err PayloadRequired
  else
    match JSON_parse rt proofJSON, JSON_parse rt publicSignalsJSON with
    | Some proof, Some publicSignals =>
        vKey ← of_option (readVerificationKey rt) KeyUnreadable;
        valid ← of_option (groth16_verify rt vKey publicSignals proof) SnarkjsFailed;
        mret (valid, publicSignals)
    | _, _ => Err InvalidJSON
    end.

Definition toNumber (rt : Runtime) (value : json) : number :=
  match value with
  | JNull => NaN
  | JNum x => x
  | JStr s =>
      match BigInt.ofString s with
      | Some z => Number.ofBigInt z
      | None => Number_of_string rt s
      end
  | _ => NaN
  end.

Definition toBooleanSignal (value : json) : bool :=
  match value with
  | JBool b => b
  | JNum x => Number.eqb x (Number.ofInt 1)
  | JStr s => String.eqb s "1" || String.eqb (toLowerCase s) "true"
  | _ => false
  end.

End Helpers.

(** ** lib/identity.js *)

Module LibIdentity.
Import Helpers Stub.

Section Contract.
Variable rt : Runtime.
Variable ctx : TxContext.
Variable peer : Peer.

Definition _credentialKey (userID : string) : Tx string :=
  createCompositeKey "credential" [userID].

Definition IssueCredential (userID credentialHash issuer timestamp : string) : Tx json :=
  if String.eqb userID "" || String.eqb credentialHash "" then throw UserAndHashRequired
  else
    key ← _credentialKey userID;
    exists_ ← getState key;
    match exists_ with
    | Some _ => throw (CredentialExists userID)
    | None =>
        let data :=
          JObj [("credentialHash", JStr credentialHash);
                ("issuer", JStr (if String.eqb issuer "" then "unknown" else issuer));
                ("timestamp", JStr (if String.eqb timestamp ""
                                    then Date.toISOString (wallClock peer)
                                    else timestamp));
                ("valid", JBool true)] in
        _ ← putState key data;
        _ ← setEvent "IssueCredential"
              (JObj [("userID", JStr userID); ("credentialHash", JStr credentialHash)]);
        mret data
    end.

Definition GetCredential (userID : string) : Tx json :=
  if String.eqb userID "" then throw UserRequired
  else
    key ← _credentialKey userID;
    b ← getState key;
    match b with
    | None => throw (NoCredential userID)
    | Some stored => mret stored
    end.

Definition RevokeCredential (userID reason : string) : Tx json :=
  if String.eqb userID "" then throw UserRequired
  else
    key ← _credentialKey userID;
    b ← getState key;
    match b with
    | None => throw (NoCredential userID)
    | Some stored =>
        obj ← lift (Json.setProperty stored "valid" (JBool false));
        obj ← lift (Json.setProperty obj "revokedAt" (JStr (Date.toISOString (wallClock peer))));
        obj ← (if String.eqb reason "" then mret obj
               else lift (Json.setProperty obj "revocationReason" (JStr reason)));
        _ ← putState key obj;
        _ ← setEvent "RevokeCredential" (JObj [("userID", JStr userID)]);
        mret obj
    end.

Definition VerifyProof (userID proofJSON publicSignalsJSON : string) : Tx json :=
  '(valid, publicSignals) ← lift (verifyGroth16Payload rt proofJSON publicSignalsJSON);
  verificationKey ← createCompositeKey "verification" [userID; txID ctx];
  let record :=
    JObj [("userID", JStr userID);
          ("txID", JStr (txID ctx));
          ("timestamp", JStr (Date.toISOString (wallClock peer)));
          ("valid", JBool valid);
          ("publicSignals", publicSignals)] in
  _ ← putState verificationKey record;
  _ ← setEvent "VerifyProof"
        (JObj [("userID", JStr userID); ("txID", JStr (txID ctx)); ("valid", JBool valid)]);
  mret (JObj [("valid", JBool valid)]).

(** [publicSignals] are expected to follow
    [minimumAge, credentialHash, isOfAgeFlag, ...]. *)
Definition VerifyAge (userID minimumAge proofJSON publicSignalsJSON : string) : Tx json :=
  if String.eqb userID "" then throw UserRequired
  else if String.eqb minimumAge "" then throw MinimumAgeRequired
  else
    let minAgeInt := parseInt minimumAge in
    if Number.isNaN minAgeInt || Number.le0 minAgeInt then throw MinimumAgeNotPositive
    else
      '(valid, publicSignals) ← lift (verifyGroth16Payload rt proofJSON publicSignalsJSON);
      if negb valid then throw ProofVerificationFailed
      else
        match publicSignals with
        | JArr signals =>
            if (length signals <? 3)%nat then throw SignalsTooShort
            else
              let circuitMinAge := toNumber rt (Json.index signals 0) in
              if Number.isNaN circuitMinAge then throw CircuitMinAgeUnparsed
              else if negb (Number.eqb circuitMinAge minAgeInt) then throw CircuitMinAgeMismatch
              else
                let isOfAgeFlag := toBooleanSignal (Json.index signals 2) in
                if negb isOfAgeFlag then throw NotOfAge
                else
                  verificationKey ← createCompositeKey "ageVerification" [userID; txID ctx];
                  let record :=
                    JObj [("userID", JStr userID);
                          ("txID", JStr (txID ctx));
                          ("timestamp", JStr (Date.toISOString (wallClock peer)));
                          ("minimumAge", Json.ofNumber minAgeInt);
                          ("credentialHash", Json.index signals 1);
                          ("isOfAge", JBool true);
                          ("publicSignals", publicSignals)] in
                  _ ← putState verificationKey record;
                  _ ← setEvent "VerifyAge"
                        (JObj [("userID", JStr userID); ("minimumAge", Json.ofNumber minAgeInt)]);
                  mret (JObj [("valid", JBool true); ("minimumAge", Json.ofNumber minAgeInt)])
        | _ => throw SignalsTooShort
        end.

(** The iterator is awaited first and then iterated with [for await]. *)
Definition QueryVerifications : Tx json :=
  results ← getStateByPartialCompositeKey "verification";
  if awaited_iterator_is_async_iterable rt then mret (JArr results)
  else throw JSTypeError.

End Contract.
End LibIdentity.

(** ** The second copy of the chaincode (timestamps of the transaction,
       single-signal [VerifyAge]) *)

Module Part007.
Import Helpers Stub.

(** [Object.keys(v)] throws a TypeError on [null]. *)
Definition is_null (v : json) : bool :=
  match v with
  | JNull => true
  | _ => false
  end.

(** The helper of this copy logs [Object.keys(vKey)] and
    [Object.keys(proof)] inside the [try], before it calls the verifier. *)
Definition verifyGroth16Payload (rt : Runtime) (proofJSON publicSignalsJSON : string) :
  result (bool * json) :=
  if String.eqb proofJSON "" || String.eqb publicSignalsJSON "" then Err PayloadRequired
  else
    match JSON_parse rt proofJSON, JSON_parse rt publicSignalsJSON with
    | Some proof, Some publicSignals =>
        vKey ← of_option (readVerificationKey rt) KeyUnreadable;
        if is_null vKey || is_null proof then Err SnarkjsFailed
        else
          valid ← of_option (groth16_verify rt vKey publicSignals proof) SnarkjsFailed;
          mret (valid, publicSignals)
    | _, _ => Err InvalidJSON
    end.

Section Contract.
Variable rt : Runtime.
Variable ctx : TxContext.

(** [new Date(ctx.stub.getTxTimestamp().seconds.low * 1000).toISOString()] *)
Definition txTimestamp : string := Date.toISOString (txSeconds ctx * 1000).

Definition _credentialKey (userID : string) : Tx string :=
  createCompositeKey "credential" [userID].

Definition IssueCredential (userID credentialHash issuer timestamp : string) : Tx json :=
  if String.eqb userID "" || String.eqb credentialHash "" then throw UserAndHashRequired
  else
    key ← _credentialKey userID;
    exists_ ← getState key;
    match exists_ with
    | Some _ => throw (CredentialExists userID)
    | None =>
        let data :=
          JObj [("credentialHash", JStr credentialHash);
                ("issuer", JStr (if String.eqb issuer "" then "unknown" else issuer));
                ("timestamp", JStr (if String.eqb timestamp "" then txTimestamp else timestamp));
                ("valid", JBool true)] in
        _ ← putState key data;
        _ ← setEvent "IssueCredential"
              (JObj [("userID", JStr userID); ("credentialHash", JStr credentialHash)]);
        mret data
    end.

Definition GetCredential (userID : string) : Tx json :=
  if String.eqb userID "" then throw UserRequired
  else
    key ← _credentialKey userID;
    b ← getState key;
    match b with
    | None => throw (NoCredential userID)
    | Some stored => mret stored
    end.

Definition RevokeCredential (userID reason : string) : Tx json :=
  if String.eqb userID "" then throw UserRequired
  else
    key ← _credentialKey userID;
    b ← getState key;
    match b with
    | None => throw (NoCredential userID)
    | Some stored =>
        obj ← lift (Json.setProperty stored "valid" (JBool false));
        obj ← lift (Json.setProperty obj "revokedAt" (JStr txTimestamp));
        obj ← (if String.eqb reason "" then mret obj
               else lift (Json.setProperty obj "revocationReason" (JStr reason)));
        _ ← putState key obj;
        _ ← setEvent "RevokeCredential" (JObj [("userID", JStr userID)]);
        mret obj
    end.

Definition VerifyProof (userID proofJSON publicSignalsJSON : string) : Tx json :=
  '(valid, publicSignals) ← lift (verifyGroth16Payload rt proofJSON publicSignalsJSON);
  verificationKey ← createCompositeKey "verification" [userID; txID ctx];
  let record :=
    JObj [("userID", JStr userID);
          ("txID", JStr (txID ctx));
          ("timestamp", JStr txTimestamp);
          ("valid", JBool valid);
          ("publicSignals", publicSignals)] in
  _ ← putState verificationKey record;
  _ ← setEvent "VerifyProof"
        (JObj [("userID", JStr userID); ("txID", JStr (txID ctx)); ("valid", JBool valid)]);
  mret (JObj [("valid", JBool valid)]).

(** For the simple age_check circuit a single public output is expected:
    [isAdult], which should be the string 1. *)
Definition VerifyAge (userID minimumAge proofJSON publicSignalsJSON : string) : Tx json :=
  if String.eqb userID "" then throw UserRequired
  else
    '(valid, publicSignals) ← lift (verifyGroth16Payload rt proofJSON publicSignalsJSON);
    if negb valid then throw ProofVerificationFailed
    else
      match publicSignals with
      | JArr signals =>
          if (length signals =? 0)%nat then throw SignalsEmpty
          else
            let isAdult := Json.index signals 0 in
            if negb (Json.is_string isAdult "1") then throw NotAdult
            else
              verificationKey ← createCompositeKey "ageVerification" [userID; txID ctx];
              let record :=
                JObj [("userID", JStr userID);
                      ("txID", JStr (txID ctx));
                      ("timestamp", JStr txTimestamp);
                      ("minimumAge", if String.eqb minimumAge ""
                                     then JNum (Number.ofInt 18) else JStr minimumAge);
                      ("isOfAge", JBool true);
                      ("publicSignals", publicSignals)] in
              _ ← putState verificationKey record;
              _ ← setEvent "VerifyAge" (JObj [("userID", JStr userID); ("isOfAge", JBool true)]);
              mret (JObj [("valid", JBool true); ("isOfAge", JBool true)])
      | _ => throw SignalsEmpty
      end.

Definition QueryVerifications : Tx json :=
  results ← getStateByPartialCompositeKey "verification";
  mret (JArr results).

End Contract.
End Part007.

(** ** Transactions *)

(** A call of one of the six operations of the contract. *)
Inductive call : Type :=
  | CallIssueCredential (userID credentialHash issuer timestamp : string)
  | CallGetCredential (userID : string)
  | CallRevokeCredential (userID reason : string)
  | CallVerifyProof (userID proofJSON publicSignalsJSON : string)
  | CallVerifyAge (userID minimumAge proofJSON publicSignalsJSON : string)
  | CallQueryVerifications.

(** The two copies of the contract. *)
Inductive contract : Type :=
  | WallClockContract     (* lib/identity.js *)
  | TxTimeContract.       (* the second copy *)

Definition invoke (c : contract) (rt : Runtime) (ctx : TxContext) (peer : Peer) (op : call) :
  Tx json :=
  match c, op with
  | WallClockContract, CallIssueCredential u h i t => LibIdentity.IssueCredential peer u h i t
  | WallClockContract, CallGetCredential u => LibIdentity.GetCredential u
  | WallClockContract, CallRevokeCredential u r => LibIdentity.RevokeCredential peer u r
  | WallClockContract, CallVerifyProof u p s => LibIdentity.VerifyProof rt ctx peer u p s
  | WallClockContract, CallVerifyAge u m p s => LibIdentity.VerifyAge rt ctx peer u m p s
  | WallClockContract, CallQueryVerifications => LibIdentity.QueryVerifications rt
  | TxTimeContract, CallIssueCredential u h i t => Part007.IssueCredential ctx u h i t
  | TxTimeContract, CallGetCredential u => Part007.GetCredential u
  | TxTimeContract, CallRevokeCredential u r => Part007.RevokeCredential ctx u r
  | TxTimeContract, CallVerifyProof u p s => Part007.VerifyProof rt ctx u p s
  | TxTimeContract, CallVerifyAge u m p s => Part007.VerifyAge rt ctx u m p s
  | TxTimeContract, CallQueryVerifications => Part007.QueryVerifications
  end.

(** A transaction runs against the committed world state with no event
    set. *)
Definition run {A} (tx : Tx A) (state : gmap string json) : result A * Ledger :=
  tx {| worldState := state; event := None |}.

(** The host ledger keeps the writes of a transaction that returned and
    discards those of one that threw. *)
Definition commit {A} (tx : Tx A) (state : gmap string json) : gmap string json :=
  match run tx state with
  | (OK _, l) => worldState l
  | (Err _, _) => state
  end.

(** A transaction as a peer receives it. *)
Record transaction : Type := {
  tx_ctx : TxContext;
  tx_peer : Peer;
  tx_call : call;
}.

Definition execute (c : contract) (rt : Runtime) (state : gmap string json)
    (txs : list transaction) : gmap string json :=
  fold_left (fun s t => commit (invoke c rt (tx_ctx t) (tx_peer t) (tx_call t)) s) txs state.

(** The stored credential of a holder and its [valid] field. *)
Definition credentialKey (userID : string) : string :=
  String "000" (String.app "credential" (String "000" (String.app userID (String "000" "")))).

Definition credentialOf (state : gmap string json) (userID : string) : option json :=
  state !! credentialKey userID.

Definition validOf (credential : json) : option json :=
  match credential with
  | JObj fields => Json.get_field "valid" fields
  | _ => None
  end.

(** ** The error kinds of the specification *)

Inductive error_kind : Type :=
  | ValidationError | EncodingError | EmptyInputError | IndexOutOfRangeError
  | MalformedProofError | MissingFieldError | AlreadyExistsError | NotFoundError
  | RevokedCredentialError | MalformedPayloadError | ProofInvalidError
  | SignalMismatchError | RootMismatchError | KeyUnavailableError
  | RuntimeError.

Definition kind (e : error) : error_kind :=
  match e with
  | JSSyntaxError | JSRangeError | JSTypeError | BadCompositeKey => RuntimeError
  | CannotConvertValue => EncodingError
  | EmptyLeaves => EmptyInputError
  | InvalidTreeObject => ValidationError
  | LeafIndexOutOfBounds _ => IndexOutOfRangeError
  | InvalidProofStructure => MalformedProofError
  | FieldsRequired => ValidationError
  | FieldNotFound _ => MissingFieldError
  | UserAndHashRequired | UserRequired | MinimumAgeRequired | MinimumAgeNotPositive =>
      ValidationError
  | CredentialExists _ => AlreadyExistsError
  | NoCredential _ => NotFoundError
  | PayloadRequired | InvalidJSON => MalformedPayloadError
  | KeyUnreadable => KeyUnavailableError
  | SnarkjsFailed | ProofVerificationFailed => ProofInvalidError
  | SignalsTooShort | SignalsEmpty | CircuitMinAgeUnparsed | CircuitMinAgeMismatch
  | NotOfAge | NotAdult => SignalMismatchError
  end.

(** ** The age circuit

  The template [AgeWithMerkle].  A signal is an element of the scalar
  field of the curve, a [Z] in [0, p); [<==] computes in that field.  The
  templates [Poseidon(n)] and [LessEqThan(n)] of circomlib are external. *)

Module Circom.

(** The order of the scalar field of bn128, the default prime of circom. *)
Definition p : Z :=
  21888242871839275222246405745257275088548364400416034343698204186575808495617.

Definition fadd (a b : Z) : Z := (a + b) mod p.
Definition fsub (a b : Z) : Z := (a - b) mod p.
Definition fmul (a b : Z) : Z := (a * b) mod p.

End Circom.

(** The circuit, which selects the inputs of a hash with
    [index * (sibling - hash) + hash]. *)
Module Part002.
Import Circom.

Section Templates.
Variable Poseidon : list Z -> Z.
Variable LessEqThan : Z -> Z -> Z -> Z.

(** The public outputs [isAdult] and [rootHash]. *)
Definition AgeWithMerkle (dob : Z) (merklePathElements merklePathIndices : Z * Z) : Z * Z :=
  let isAdult := LessEqThan 32 dob 20061124 in
  let dobHasher := Poseidon [dob] in
  let level0Left :=
    fadd (fmul (fst merklePathIndices) (fsub (fst merklePathElements) dobHasher)) dobHasher in
  let level0Right :=
    fadd (fmul (fst merklePathIndices) (fsub dobHasher (fst merklePathElements)))
         (fst merklePathElements) in
  let level0Hasher := Poseidon [level0Left; level0Right] in
  let level1Left :=
    fadd (fmul (snd merklePathIndices) (fsub (snd merklePathElements) level0Hasher))
         level0Hasher in
  let level1Right :=
    fadd (fmul (snd merklePathIndices) (fsub level0Hasher (snd merklePathElements)))
         (snd merklePathElements) in
  let level1Hasher := Poseidon [level1Left; level1Right] in
  let rootHash := level1Hasher in
  (isAdult, rootHash).

End Templates.
End Part002.

(** * Vocabulary of the statements, and sample inputs *)

Import JSString MerkleUtils Helpers Stub.

Definition solid (c : ascii) : bool := is_digit c || Ascii.eqb c "-".

(** The field element of a string: what [valueToFieldElement] returns on it. *)
Definition fieldOfString (s : string) : Z :=
  if all_digits s then default 0 (BigInt.ofString s)
  else fold_left (fun result b => result * 256 + byte_value b) (take 31 (bytes s)) 0.

Section Pairing.
Variable poseidon : list Z -> N.

(** The parent of two nodes. *)
Definition hash2 (l r : string) : string :=
  BigInt.natToString (poseidon [fieldOfString l; fieldOfString r]).

(** The layer above a layer. *)
Fixpoint pairUp (l : list string) : list string :=
  match l with
  | [] => []
  | [a] => [hash2 a a]
  | a :: b :: rest => hash2 a b :: pairUp rest
  end.

(** The layers of a tree: each one is the pairing of the one below, and
    the top one has one node. *)
Inductive chain : list (list string) -> Prop :=
  | chain_top (x : string) : chain [[x]]
  | chain_cons (cur : list string) (rest : list (list string)) :
      (1 < length cur)%nat -> chain (pairUp cur :: rest) -> chain (cur :: pairUp cur :: rest).

(** The inputs that [verifyLoop] hands to Poseidon, level by level. *)
Fixpoint hashedInputs (currentHash : string) (pathElements pathIndices : list value) :
  list (list Z) :=
  match pathElements, pathIndices with
  | element :: pathElements', index :: pathIndices' =>
      match toBigInt element with
      | OK z =>
          let sibling := BigInt.toString z in
          let inputs :=
            if is_zero index then [fieldOfString currentHash; fieldOfString sibling]
            else [fieldOfString sibling; fieldOfString currentHash] in
          inputs :: hashedInputs (BigInt.natToString (poseidon inputs)) pathElements' pathIndices'
      | Err _ => []
      end
  | _, _ => []
  end.

(** The leaf of an attribute of a credential. *)
Definition leafOf (fields : gmap string value) (fieldName : string) : result string :=
  match fields !! fieldName with
  | None =>
      if bool_decide (fieldName ∈ objectPrototypeNames) then Err CannotConvertValue
      else Err (FieldNotFound fieldName)
  | Some fieldValue => computeLeafHash poseidon fieldValue (VNumber (Number.ofInt 0))
  end.

End Pairing.

(** A node is canonical when it is the decimal print of a BigInt. *)
Definition canonical (s : string) : Prop := exists z, s = BigInt.toString z.

(** The sibling that [generateMerkleProof] picks for position [i] of a layer. *)
Definition siblingOf (cur : list string) (i : nat) : value :=
  if Nat.even i then
    match cur !! S i with
    | Some s => VString s
    | None => from_option VString VUndefined (cur !! i)
    end
  else from_option VString VUndefined (cur !! pred i).

Definition indexBit (i : nat) : value :=
  VNumber (Number.ofInt (if Nat.even i then 0 else 1)).

(** The path of position [i]: one sibling and one bit for every layer but
    the top one. *)
Fixpoint walkElements (ls : list (list string)) (i : nat) : list value :=
  match ls with
  | cur :: ((_ :: _) as rest) => siblingOf cur i :: walkElements rest (Nat.div2 i)
  | _ => []
  end.

Fixpoint walkIndices (ls : list (list string)) (i : nat) : list value :=
  match ls with
  | _ :: ((_ :: _) as rest) => indexBit i :: walkIndices rest (Nat.div2 i)
  | _ => []
  end.

(** The inputs of the hash of one level, in the order of the verifier. *)
Definition ordered (i current sibling : Z) : list Z :=
  if i =? 0 then [current; sibling] else [sibling; current].

(** A printed element of the field. *)
Definition inField (s : string) : Prop :=
  exists e, 0 <= e < Circom.p /\ s = BigInt.toString e.

(** A stand-in for the Poseidon permutation in the examples. *)
Definition samplePoseidon (inputs : list Z) : N :=
  Z.to_N (fold_left (fun acc x => (acc * 31 + x + 7) mod 1000003) inputs 1).

Definition sampleLeaves : list value := [VString "11"; VBigInt 22; VString "33"].

Definition sampleAddress1 : string := "742 Evergreen Terrace, Springfield, Oregon".
Definition sampleAddress2 : string := "742 Evergreen Terrace, Springfield, Ohio".

(** The tree over [sampleLeaves], and the proof for its last leaf. *)
Definition sampleTree : MerkleTree :=
  Eval vm_compute in
    match buildMerkleTree samplePoseidon sampleLeaves with
    | OK t => t
    | Err _ => {| layers := []; root := VUndefined |}
    end.

Definition sampleProof : MerkleProof :=
  Eval vm_compute in
    match generateMerkleProof sampleTree 2 with
    | OK p => p
    | Err _ => {| pathElements := []; pathIndices := [] |}
    end.

Definition sampleFields : gmap string value :=
  {[ "name" := VString "Alice Example"; "dob" := VString "19900101";
     "country" := VString "NO" ]}.

(** The credential root of [sampleFields]. *)
Definition sampleCredentialRoot : CredentialRoot :=
  Eval vm_compute in
    match computeCredentialRoot samplePoseidon sampleFields ["name"; "dob"; "country"] with
    | OK cr => cr
    | Err _ => {| rootHash := VUndefined; tree := {| layers := []; root := VUndefined |};
                  leaves := [] |}
    end.

(** Stand-ins for the circomlib templates in the examples. *)
Definition sampleCircuitPoseidon (inputs : list Z) : Z := Z.of_N (samplePoseidon inputs).

Definition sampleLessEqThan (n a b : Z) : Z := if a <=? b then 1 else 0.

(** The key that [createCompositeKey] builds. *)
Definition compositeKey (objectType : string) (attributes : list string) : string :=
  fold_left (fun compositeKey attribute =>
               String.app compositeKey (String.app attribute (String "000" "")))
            attributes
            (String "000" (String.app objectType (String "000" ""))).

(** The timestamp a copy of the contract writes. *)
Definition stamp (c : contract) (ctx : TxContext) (peer : Peer) : string :=
  match c with
  | WallClockContract => Date.toISOString (wallClock peer)
  | TxTimeContract => Date.toISOString (txSeconds ctx * 1000)
  end.

(** The credential [IssueCredential] stores. *)
Definition issued (c : contract) (ctx : TxContext) (peer : Peer)
    (credentialHash issuer timestamp : string) : json :=
  JObj [("credentialHash", JStr credentialHash);
        ("issuer", JStr (if String.eqb issuer "" then "unknown" else issuer));
        ("timestamp", JStr (if String.eqb timestamp "" then stamp c ctx peer else timestamp));
        ("valid", JBool true)].

(** The JSON text of an array of strings. *)
Definition quoted (s : string) : string :=
  String "034" (String.app s (String "034" "")).

Definition signalsText3 : string :=
  String.app "[" (String.app (quoted "18") (String.app "," (String.app (quoted "222")
    (String.app "," (String.app (quoted "1") "]"))))).
Definition signalsText1 : string :=
  String.app "[" (String.app (quoted "1") (String.app "," (String.app (quoted "222") "]"))).
Definition signalsText3_no : string :=
  String.app "[" (String.app (quoted "18") (String.app "," (String.app (quoted "222")
    (String.app "," (String.app (quoted "0") "]"))))).
Definition signalsText1_no : string :=
  String.app "[" (String.app (quoted "0") "]").

(** A runtime for the examples: [JSON.parse] on the texts above and on the
    empty object, a readable key, a verifier with a fixed verdict, and an
    awaited iterator that offers [next()] and [close()] only. *)
Definition sampleRuntime (verdict : option bool) : Runtime :=
  {| JSON_parse := fun text =>
       if String.eqb text "{}" then Some (JObj [])
       else if String.eqb text signalsText3
       then Some (JArr [JStr "18"; JStr "222"; JStr "1"])
       else if String.eqb text signalsText1 then Some (JArr [JStr "1"; JStr "222"])
       else if String.eqb text signalsText3_no
       then Some (JArr [JStr "18"; JStr "222"; JStr "0"])
       else if String.eqb text signalsText1_no then Some (JArr [JStr "0"])
       else None;
     Number_of_string := fun _ => NaN;
     readVerificationKey := Some (JObj []);
     groth16_verify := fun _ _ _ => verdict;
     awaited_iterator_is_async_iterable := false |}.

Definition sampleCtx (n : Z) : TxContext :=
  {| txID := String.app "tx" (BigInt.toString n); txSeconds := 1732406400 + n |}.

Definition samplePeer : Peer := {| wallClock := 1732406400123 |}.

Definition emptyLedger : Ledger := {| worldState := ∅; event := None |}.

(** [obj.name] of a stored value. *)
Definition property (obj : json) (name : string) : option json :=
  match obj with
  | JObj fields => Json.get_field name fields
  | _ => None
  end.

(** What [RevokeCredential] makes of the stored credential. *)
Definition revoked (c : contract) (ctx : TxContext) (peer : Peer) (reason : string)
    (stored : json) : result json :=
  obj ← Json.setProperty stored "valid" (JBool false);
  obj ← Json.setProperty obj "revokedAt" (JStr (stamp c ctx peer));
  if String.eqb reason "" then OK obj
  else Json.setProperty obj "revocationReason" (JStr reason).

(** The prefix of the keys of the credential namespace. *)
Definition credentialPrefix : string :=
  String "000" (String.app "credential" (String "000" "")).

Definition sampleTxs : list transaction :=
  [ {| tx_ctx := sampleCtx 3; tx_peer := samplePeer;
       tx_call := CallIssueCredential "u1" "999" "Mallory" "" |};
    {| tx_ctx := sampleCtx 4; tx_peer := samplePeer;
       tx_call := CallVerifyAge "u1" "18" "{}" signalsText1 |};
    {| tx_ctx := sampleCtx 5; tx_peer := samplePeer;
       tx_call := CallRevokeCredential "u1" "again" |};
    {| tx_ctx := sampleCtx 6; tx_peer := samplePeer;
       tx_call := CallVerifyProof "u1" "{}" signalsText1 |} ].

Definition sampleRevokedState (c : contract) : gmap string json :=
  execute c (sampleRuntime (Some true)) ∅
    [ {| tx_ctx := sampleCtx 1; tx_peer := samplePeer;
         tx_call := CallIssueCredential "u1" "111" "TrustedIssuer" "2024-11-24T00:00:00Z" |};
      {| tx_ctx := sampleCtx 2; tx_peer := samplePeer;
         tx_call := CallRevokeCredential "u1" "fraud" |} ].

(** [verifyGroth16Payload] of a copy of the contract. *)
Definition verifyGroth16PayloadOf (c : contract) (rt : Runtime)
    (proofJSON publicSignalsJSON : string) : result (bool * json) :=
  match c with
  | WallClockContract => verifyGroth16Payload rt proofJSON publicSignalsJSON
  | TxTimeContract => Part007.verifyGroth16Payload rt proofJSON publicSignalsJSON
  end.

(** The ledger after a credential with root [credentialHash] was issued
    to holder u1. *)
Definition sampleIssuedState (c : contract) (credentialHash : string) : gmap string json :=
  commit (invoke c (sampleRuntime (Some true)) (sampleCtx 1) samplePeer
            (CallIssueCredential "u1" credentialHash "TrustedIssuer" "2024-11-24T00:00:00Z")) ∅.

(** The same ledger after the credential was revoked. *)
Definition sampleRevokedAfterIssue (c : contract) (credentialHash : string) :
  gmap string json :=
  commit (invoke c (sampleRuntime (Some true)) (sampleCtx 2) samplePeer
            (CallRevokeCredential "u1" "fraud")) (sampleIssuedState c credentialHash).

(** The one key an operation may write. *)
Definition writtenKey (ctx : TxContext) (op : call) : option string :=
  match op with
  | CallIssueCredential userID _ _ _ | CallRevokeCredential userID _ =>
      Some (credentialKey userID)
  | CallVerifyProof userID _ _ => Some (compositeKey "verification" [userID; txID ctx])
  | CallVerifyAge userID _ _ _ => Some (compositeKey "ageVerification" [userID; txID ctx])
  | CallGetCredential _ | CallQueryVerifications => None
  end.

(** The holder whose credential an operation may write. *)
Definition holderOf (op : call) : option string :=
  match op with
  | CallIssueCredential userID _ _ _ | CallRevokeCredential userID _ => Some userID
  | _ => None
  end.

(** A credential as the contract stores it. *)
Definition wellFormed (credential : json) : Prop :=
  exists fields h i t b,
    credential = JObj fields /\
    Json.get_field "credentialHash" fields = Some (JStr h) /\ h <> "" /\
    Json.get_field "issuer" fields = Some (JStr i) /\ i <> "" /\
    Json.get_field "timestamp" fields = Some (JStr t) /\
    Json.get_field "valid" fields = Some (JBool b) /\
    (if b then Json.get_field "revokedAt" fields = None
     else exists s, Json.get_field "revokedAt" fields = Some (JStr s)).

(** The prefix of the keys that [QueryVerifications] ranges over. *)
Definition verificationPrefix : string :=
  String "000" (String.app "verification" (String "000" "")).

(** The ledger after a credential with root 111 was issued to holder u1. *)
Definition sampleIssuedLedger : Ledger :=
  {| worldState := sampleIssuedState TxTimeContract "111"; event := None |}.

(** * Properties *)

(** *** Decimal strings *)

Lemma string_of_uint_digits (d : Decimal.uint) :
  forallb is_digit (bytes (NilEmpty.string_of_uint d)) = true.
Proof. induction d; simpl; auto. Qed.

Lemma natToString_cons (n : N) :
  exists c r, BigInt.natToString n = String c r.
Proof.
  unfold BigInt.natToString.
  assert (H : N.to_uint n <> Decimal.Nil).
  { destruct n; simpl; [discriminate | apply DecimalPos.Unsigned.to_uint_nonnil]. }
  destruct (N.to_uint n); try congruence; simpl; eauto.
Qed.

Lemma natToString_digits (n : N) :
  forallb is_digit (bytes (BigInt.natToString n)) = true.
Proof. apply string_of_uint_digits. Qed.

Lemma decimalDigits_natToString (n : N) :
  BigInt.decimalDigits (BigInt.natToString n) = Some (Z.of_N n).
Proof.
  destruct (natToString_cons n) as (c & r & E).
  unfold BigInt.decimalDigits. rewrite E, <- E.
  unfold BigInt.natToString. rewrite NilEmpty.usu. simpl.
  by rewrite DecimalN.Unsigned.of_to.
Qed.

Lemma strip_any_solid (c : ascii) (r : list ascii) :
  solid c = true ->
  strip_any white_space (c :: r) = None /\
  strip_any (map (@rev ascii) white_space) (c :: r) = None.
Proof.
  destruct c as [[] [] [] [] [] [] [] []]; intros H; try discriminate H;
    split; reflexivity.
Qed.

Lemma trim_go_solid ps fuel c r :
  strip_any ps (c :: r) = None -> trim_go ps fuel (c :: r) = c :: r.
Proof. intros H. destruct fuel; simpl; [done | by rewrite H]. Qed.

Lemma trim_solid (s : string) (c d : ascii) (m : list ascii) :
  bytes s = c :: m -> last (bytes s) = Some d ->
  solid c = true -> solid d = true ->
  trim s = s.
Proof.
  intros Hs Hl Hc Hd.
  assert (Hstart : trimStart s = s).
  { unfold trimStart. rewrite Hs. 
    rewrite (trim_go_solid white_space (String.length s) c m (proj1 (strip_any_solid c m Hc))).
    rewrite <- Hs. apply string_of_list_ascii_of_string. }
  unfold trim. rewrite Hstart. unfold trimEnd.
  destruct (rev (bytes s)) as [|x l] eqn:Hr.
  { apply (f_equal (@rev ascii)) in Hr. rewrite rev_involutive in Hr.
    rewrite Hr in Hs. discriminate. }
  assert (x = d) as ->.
  { apply (f_equal (@rev ascii)) in Hr. rewrite rev_involutive in Hr. simpl in Hr.
    rewrite Hr, last_snoc in Hl. congruence. }
  rewrite (trim_go_solid _ (String.length s) d l (proj2 (strip_any_solid d l Hd))).
  rewrite <- Hr, rev_involutive. apply string_of_list_ascii_of_string.
Qed.

Lemma forallb_last {A} (f : A -> bool) (l : list A) (x : A) :
  forallb f l = true -> last l = Some x -> f x = true.
Proof.
  intros H Hl. rewrite forallb_forall in H. apply H.
  apply list_elem_of_In. by apply last_Some_elem_of.
Qed.

(** A non-empty string of digits, with or without a minus sign in front,
    has no white space to trim. *)
Lemma trim_digits (s : string) (c : ascii) (r : string) :
  s = String c r -> solid c = true ->
  forallb is_digit (bytes r) = true -> (r = EmptyString -> is_digit c = true) ->
  trim s = s.
Proof.
  intros -> Hc Hr Hne.
  destruct (last (bytes (String c r))) as [d|] eqn:Hl.
  2:{ apply last_None in Hl. discriminate. }
  apply (trim_solid _ c d (bytes r)); [reflexivity | exact Hl | exact Hc |].
  destruct r as [|c' r'].
  - simpl in Hl. injection Hl as <-. unfold solid. rewrite Hne; done.
  - unfold solid. rewrite (forallb_last is_digit (bytes (String c' r')) d Hr); [done|].
    exact Hl.
Qed.

Lemma uint_of_string_digits (s : string) :
  forallb is_digit (bytes s) = true -> is_Some (NilEmpty.uint_of_string s).
Proof.
  induction s as [|c r IH]; simpl; intros H; [by eexists|].
  apply andb_true_iff in H as [Hc Hr]. destruct (IH Hr) as [d ->].
  destruct c as [[] [] [] [] [] [] [] []]; try discriminate Hc; by eexists.
Qed.

(** On a string of digits [BigInt] reads the decimal number. *)
Lemma ofString_digits (c : ascii) (r : string) :
  is_digit c = true -> forallb is_digit (bytes r) = true ->
  BigInt.ofString (String c r) = BigInt.decimalDigits (String c r).
Proof.
  intros Hc Hr. unfold BigInt.ofString.
  rewrite (trim_digits (String c r) c r eq_refl); [| by unfold solid; rewrite Hc | exact Hr | done].
  destruct c as [[] [] [] [] [] [] [] []]; try discriminate Hc; try reflexivity.
  destruct r as [|c' r']; [reflexivity|].
  simpl in Hr. apply andb_true_iff in Hr as [Hc' _].
  destruct c' as [[] [] [] [] [] [] [] []]; try discriminate Hc'; reflexivity.
Qed.

Lemma ofString_all_digits (s : string) :
  all_digits s = true -> exists z, BigInt.ofString s = Some z /\ 0 <= z.
Proof.
  destruct s as [|c r]; [discriminate|]. unfold all_digits. intros H.
  pose proof H as H'. simpl in H'. apply andb_true_iff in H' as [Hc Hr].
  rewrite (ofString_digits c r Hc Hr). unfold BigInt.decimalDigits.
  destruct (uint_of_string_digits (String c r) H) as [d ->]. simpl.
  eexists; split; [reflexivity | lia].
Qed.

Lemma ofString_natToString (n : N) :
  BigInt.ofString (BigInt.natToString n) = Some (Z.of_N n).
Proof.
  destruct (natToString_cons n) as (c & r & E).
  pose proof (natToString_digits n) as Hd. rewrite E in Hd.
  simpl in Hd. apply andb_true_iff in Hd as [Hc Hr].
  rewrite <- (decimalDigits_natToString n), E. by apply ofString_digits.
Qed.

Lemma toString_of_N (n : N) : BigInt.toString (Z.of_N n) = BigInt.natToString n.
Proof.
  unfold BigInt.toString. destruct (Z.ltb_spec (Z.of_N n) 0); [lia|].
  by rewrite N2Z.id.
Qed.

(** [BigInt(z.toString()) = z]: a printed BigInt reads back as itself. *)
Lemma ofString_toString (z : Z) : BigInt.ofString (BigInt.toString z) = Some z.
Proof.
  unfold BigInt.toString. destruct (Z.ltb_spec z 0) as [Hneg|Hpos].
  - set (n := Z.abs_N z).
    assert (Hz : z = - Z.of_N n) by (unfold n; lia).
    destruct (natToString_cons n) as (c & r & E).
    pose proof (natToString_digits n) as Hd.
    unfold BigInt.ofString.
    rewrite (trim_digits (String "-" (BigInt.natToString n)) "-"%char (BigInt.natToString n) eq_refl);
      [| reflexivity | exact Hd | rewrite E; discriminate].
    rewrite decimalDigits_natToString. simpl. by rewrite Hz.
  - rewrite ofString_natToString. f_equal. lia.
Qed.

Lemma toBigInt_toString (z : Z) :
  toBigInt (VString (BigInt.toString z)) = OK z.
Proof. simpl. by rewrite ofString_toString. Qed.

Section MerkleProperties.
Variable poseidon : list Z -> N.

Lemma valueToFieldElement_string (s : string) :
  valueToFieldElement (VString s) = OK (fieldOfString s).
Proof.
  unfold valueToFieldElement, fieldOfString.
  destruct (all_digits s) eqn:E; [|reflexivity].
  destruct (ofString_all_digits s E) as (z & Hz & _). simpl. by rewrite Hz.
Qed.

Lemma poseidonHash2_string (l r : string) :
  poseidonHash2 poseidon (VString l) (VString r) = OK (hash2 poseidon l r).
Proof.
  unfold poseidonHash2. rewrite !valueToFieldElement_string. reflexivity.
Qed.

Lemma list_pair_ind {A} (P : list A -> Prop) :
  P [] -> (forall a, P [a]) -> (forall a b l, P l -> P (a :: b :: l)) ->
  forall l, P l.
Proof.
  intros H0 H1 H2. fix IH 1. intros [|a [|b l]]; [exact H0 | apply H1 | apply H2, IH].
Qed.

Lemma nextLayer_pairUp (l : list string) : nextLayer poseidon l = OK (pairUp poseidon l).
Proof.
  induction l as [|a|a b l IH] using list_pair_ind; [reflexivity | |].
  - simpl. by rewrite poseidonHash2_string.
  - cbn [nextLayer pairUp]. rewrite poseidonHash2_string, IH. reflexivity.
Qed.

Lemma length_pairUp (l : list string) : length (pairUp poseidon l) = Nat.div2 (S (length l)).
Proof.
  induction l as [|a|a b l IH] using list_pair_ind; [reflexivity..|].
  cbn [pairUp length]. rewrite IH. reflexivity.
Qed.

Lemma length_pairUp_lt (l : list string) :
  (1 < length l)%nat -> (0 < length (pairUp poseidon l) < length l)%nat.
Proof.
  intros H. rewrite length_pairUp.
  destruct l as [|a [|b l]]; cbn [length] in *; try lia.
  change (Nat.div2 (S (S (S (length l))))) with (S (Nat.div2 (S (length l)))).
  assert (Nat.div2 (S (length l)) <= length l)%nat by (apply Nat.div2_decr; lia).
  revert H0. generalize (Nat.div2 (S (length l))). intros n Hn. lia.
Qed.

Lemma buildLoop_stop (cur : list string) :
  (length cur <= 1)%nat -> buildLoop poseidon cur = OK ([], cur).
Proof.
  intros H. rewrite buildLoop_unfold_eq. unfold buildLoop_unfold.
  destruct (le_lt_dec (length cur) 1); [reflexivity | lia].
Qed.

Lemma buildLoop_step (cur : list string) :
  (1 < length cur)%nat ->
  buildLoop poseidon cur =
    '(pushed, final) ← buildLoop poseidon (pairUp poseidon cur); mret (pairUp poseidon cur :: pushed, final).
Proof.
  intros H. rewrite buildLoop_unfold_eq. unfold buildLoop_unfold.
  destruct (le_lt_dec (length cur) 1); [lia|].
  cbn. unfold inspect. pose proof (nextLayer_pairUp cur) as E.
  destruct (nextLayer poseidon cur); [injection E as -> | discriminate]. reflexivity.
Qed.

Lemma canonical_hash2 (l r : string) : canonical (hash2 poseidon l r).
Proof. eexists. unfold hash2. symmetry. apply toString_of_N. Qed.

Lemma canonical_pairUp (l : list string) : Forall canonical (pairUp poseidon l).
Proof.
  induction l as [|a|a b l IH] using list_pair_ind; cbn [pairUp];
    repeat constructor; auto using canonical_hash2.
Qed.

Lemma buildLoop_spec (cur : list string) :
  cur ≠ [] →
  exists (pushed : list (list string)) (x : string),
    buildLoop poseidon cur = OK (pushed, [x]) /\
    chain poseidon (cur :: pushed) /\ last (cur :: pushed) = Some [x].
Proof.
  induction cur as [cur IH] using (induction_ltof1 _ (@length _)). unfold ltof in IH.
  intros Hne. destruct (le_lt_dec (length cur) 1) as [Hle|Hlt].
  - destruct cur as [|x [|y cur]]; [done | | simpl in Hle; lia].
    exists [], x. rewrite buildLoop_stop by (simpl; lia).
    split; [reflexivity|]. split; [constructor | reflexivity].
  - pose proof (length_pairUp_lt cur Hlt) as Hlen.
    destruct (IH (pairUp poseidon cur)) as (pushed & x & Hb & Hc & Hl); [lia | |].
    { intros E. rewrite E in Hlen. simpl in Hlen. lia. }
    exists (pairUp poseidon cur :: pushed), x. rewrite buildLoop_step by done. rewrite Hb.
    split; [reflexivity|]. split; [by constructor|].
    exact Hl.
Qed.

Lemma rem2_of_nat (i : nat) : (Z.rem (Z.of_nat i) 2 =? 0) = Nat.even i.
Proof.
  rewrite Z.rem_mod_nonneg by lia.
  destruct (Nat.even i) eqn:E.
  - apply Nat.even_spec in E as [k ->]. apply Z.eqb_eq.
    rewrite Nat2Z.inj_mul, Z.mul_comm. apply Z_mod_mult.
  - apply Z.eqb_neq. 
    assert (Ho : Nat.odd i = true) by (rewrite <- Nat.negb_even, E; done).
    apply Nat.odd_spec in Ho as [k ->].
    rewrite Nat2Z.inj_add, Nat2Z.inj_mul, Z.add_comm, Z.mul_comm, Z_mod_plus_full.
    discriminate.
Qed.

Lemma div2_of_nat (i : nat) : Z.of_nat i / 2 = Z.of_nat (Nat.div2 i).
Proof. rewrite Nat.div2_div, Nat2Z.inj_div. reflexivity. Qed.

Lemma element_of_nat (cur : list string) (i : nat) :
  element cur (Z.of_nat i) = from_option VString VUndefined (cur !! i).
Proof.
  unfold element. destruct (Z.ltb_spec (Z.of_nat i) 0); [lia|].
  by rewrite Nat2Z.id.
Qed.

Lemma proofStep_of_nat (tree : MerkleTree) pe pi (i level : nat) (cur : list string) :
  layers tree !! level = Some cur ->
  proofStep tree (pe, pi, Z.of_nat i) level =
    (pe ++ [siblingOf cur i], pi ++ [indexBit i], Z.of_nat (Nat.div2 i)).
Proof.
  intros Hl. unfold proofStep. rewrite Hl.
  change (default [] (Some cur)) with cur.
  rewrite rem2_of_nat, div2_of_nat. unfold siblingOf, indexBit.
  destruct (Nat.even i) eqn:E.
  - replace (Z.of_nat i + 1) with (Z.of_nat (S i)) by lia.
    rewrite !element_of_nat.
    destruct (Z.ltb_spec (Z.of_nat (S i)) (Z.of_nat (length cur))) as [Hlt|Hge].
    + destruct (lookup_lt_is_Some_2 cur (S i)) as [s Hs]; [lia|]. by rewrite Hs.
    + rewrite (lookup_ge_None_2 cur (S i)) by lia. reflexivity.
  - destruct i as [|j]; [discriminate|].
    replace (Z.of_nat (S j) - 1) with (Z.of_nat j) by lia. cbn [pred].
    rewrite !element_of_nat.
    destruct (Z.ltb_spec (Z.of_nat j) (Z.of_nat (length cur))) as [Hlt|Hge]; [reflexivity|].
    rewrite (lookup_ge_None_2 cur j), (lookup_ge_None_2 cur (S j)) by lia. reflexivity.
Qed.

Lemma fold_proofStep (tree : MerkleTree) (n k i : nat) pe pi :
  length (drop k (layers tree)) = S n ->
  fst (fold_left (proofStep tree) (seq k n) (pe, pi, Z.of_nat i)) =
    (pe ++ walkElements (drop k (layers tree)) i,
     pi ++ walkIndices (drop k (layers tree)) i).
Proof.
  revert k i pe pi. induction n as [|n IH]; intros k i pe pi Hlen.
  - destruct (drop k (layers tree)) as [|cur [|? ?]]; try discriminate.
    simpl. by rewrite !app_nil_r.
  - destruct (drop k (layers tree)) as [|cur rest] eqn:Hd; [discriminate|].
    assert (Hk : layers tree !! k = Some cur).
    { rewrite <- (Nat.add_0_r k), <- lookup_drop, Hd. reflexivity. }
    assert (Hrest : drop (S k) (layers tree) = rest).
    { rewrite (drop_S _ _ _ Hk) in Hd. by injection Hd. }
    cbn [seq fold_left]. rewrite (proofStep_of_nat _ _ _ _ _ _ Hk).
    rewrite IH by (rewrite Hrest; simpl in Hlen; lia).
    rewrite Hrest. destruct rest as [|nxt rest]; [discriminate|].
    cbn [walkElements walkIndices]. by rewrite <- !app_assoc.
Qed.

(** What [generateMerkleProof] returns for a leaf in range. *)
Lemma generateMerkleProof_walk (tree : MerkleTree) (i : nat) (lvs : list string)
    (rest : list (list string)) :
  layers tree = lvs :: rest -> (i < length lvs)%nat ->
  generateMerkleProof tree (Z.of_nat i) =
    OK {| pathElements := walkElements (layers tree) i;
          pathIndices := walkIndices (layers tree) i |}.
Proof.
  intros Hl Hi. unfold generateMerkleProof. rewrite Hl.
  destruct (Z.ltb_spec (Z.of_nat i) 0); [lia|].
  destruct (Z.leb_spec (Z.of_nat (length lvs)) (Z.of_nat i)); [lia|].
  cbn [orb]. rewrite <- Hl.
  assert (Hlen : length (drop 0 (layers tree)) = S (length (layers tree) - 1)).
  { rewrite drop_0, Hl. simpl. lia. }
  pose proof (fold_proofStep tree (length (layers tree) - 1) 0 i [] [] Hlen) as Hf.
  rewrite drop_0 in Hf.
  destruct (fold_left _ _ _) as [[pe pi] idx]. simpl in Hf.
  by injection Hf as -> ->.
Qed.

Lemma is_zero_indexBit (i : nat) : is_zero (indexBit i) = Nat.even i.
Proof. unfold indexBit. by destruct (Nat.even i). Qed.

Lemma pairUp_lookup (l : list string) (j : nat) (a : string) :
  l !! (2 * j)%nat = Some a ->
  pairUp poseidon l !! j = Some (hash2 poseidon a (default a (l !! S (2 * j)))).
Proof.
  revert j. induction l as [|x|x y l IH] using list_pair_ind; intros j H.
  - done.
  - destruct j; [|done]. simpl in H. by injection H as ->.
  - destruct j as [|j].
    + simpl in H. by injection H as ->.
    + replace (2 * S j)%nat with (S (S (2 * j))) in * by lia.
      cbn [pairUp]. rewrite !lookup_cons in *. by apply IH.
Qed.

(** Hashing a node with its sibling gives its parent. *)
Lemma parent_step (cur : list string) (i : nat) (h : string) :
  cur !! i = Some h ->
  exists s,
    siblingOf cur i = VString s /\ s ∈ cur /\
    pairUp poseidon cur !! Nat.div2 i =
      Some (if Nat.even i then hash2 poseidon h s else hash2 poseidon s h).
Proof.
  intros Hi. unfold siblingOf. destruct (Nat.even i) eqn:E.
  - apply Nat.even_spec in E as [j ->].
    rewrite Nat.div2_double. rewrite (pairUp_lookup cur j h Hi).
    destruct (cur !! S (2 * j)) as [s|] eqn:Hs.
    + exists s. split; [reflexivity|]. split; [by eapply list_elem_of_lookup_2|]. done.
    + exists h. rewrite Hi. split; [reflexivity|].
      split; [by eapply list_elem_of_lookup_2|]. done.
  - assert (Ho : Nat.odd i = true) by (rewrite <- Nat.negb_even, E; done).
    apply Nat.odd_spec in Ho as [j ->].
    replace (2 * j + 1)%nat with (S (2 * j)) in * by lia.
    rewrite Nat.div2_succ_double. cbn [pred].
    destruct (lookup_lt_is_Some_2 cur (2 * j)) as [a Ha].
    { apply lookup_lt_Some in Hi. lia. }
    exists a. rewrite Ha. split; [reflexivity|].
    split; [by eapply list_elem_of_lookup_2|].
    rewrite (pairUp_lookup cur j a Ha), Hi. reflexivity.
Qed.

(** Replaying the path of position [i] from the node at [i] reaches the
    node of the top layer. *)
Lemma verifyLoop_walk (ls : list (list string)) :
  chain poseidon ls -> Forall (Forall canonical) ls ->
  forall (cur : list string) (rest : list (list string)) (i : nat) (h r : string),
    ls = cur :: rest -> cur !! i = Some h -> last ls = Some [r] ->
    verifyLoop poseidon h (walkElements ls i) (walkIndices ls i) = OK r.
Proof.
  induction 1 as [x|cur0 rest0 Hlen Hch IH]; intros Hcan cur rest i h r Hls Hi Hlast.
  - injection Hls as <- <-. simpl in Hlast. injection Hlast as <-.
    destruct i; [|done]. simpl in Hi. injection Hi as ->. reflexivity.
  - injection Hls as <- <-.
    destruct (parent_step cur0 i h Hi) as (s & Hs & Hin & Hp).
    assert (Hcs : canonical s).
    { apply Forall_cons in Hcan as [Hc0 _]. rewrite Forall_forall in Hc0. by apply Hc0. }
    destruct Hcs as [z ->].
    destruct (pairUp poseidon cur0) as [|p0 ps] eqn:Hpu.
    { pose proof (length_pairUp_lt cur0 Hlen) as Hl. rewrite Hpu in Hl. simpl in Hl. lia. }
    cbn [walkElements walkIndices verifyLoop]. rewrite Hs, toBigInt_toString.
    cbn [mbind result_bind rbind]. rewrite is_zero_indexBit.
    rewrite <- Hpu in *.
    assert (Hstep : (if Nat.even i
                     then poseidonHash2 poseidon (VString h) (VString (BigInt.toString z))
                     else poseidonHash2 poseidon (VString (BigInt.toString z)) (VString h))
                    = OK (if Nat.even i then hash2 poseidon h (BigInt.toString z)
                          else hash2 poseidon (BigInt.toString z) h)).
    { destruct (Nat.even i); apply poseidonHash2_string. }
    rewrite Hstep. cbn [rbind].
    eapply IH; [| reflexivity | exact Hp |].
    + by apply Forall_cons in Hcan as [_ ?].
    + exact Hlast.
Qed.
(** What [BigInt(leaf).toString()] makes of a leaf. *)
Definition normalized (leaf : value) (s : string) : Prop :=
  exists z, toBigInt leaf = OK z /\ s = BigInt.toString z.

Lemma mapM_normalized (lvs : list value) (cur : list string) :
  mapM (fun leaf => z ← toBigInt leaf; mret (BigInt.toString z)) lvs = OK cur <->
  Forall2 normalized lvs cur.
Proof.
  revert cur. induction lvs as [|v lvs IH]; intros cur; cbn [mapM].
  - split; [intros [= <-]; constructor | intros ->%Forall2_nil_inv_l; reflexivity].
  - split.
    + destruct (toBigInt v) as [z|] eqn:Hv; [|discriminate]. cbn.
      destruct (mapM _ lvs) as [k|] eqn:Hk; [|discriminate]. cbn. intros [= <-].
      constructor; [by exists z | by apply IH].
    + intros (s & k & (z & Hz & ->) & Hk & ->)%Forall2_cons_inv_l.
      apply IH in Hk. rewrite Hz. cbn. rewrite Hk. reflexivity.
Qed.

Lemma normalized_canonical (lvs : list value) (cur : list string) :
  Forall2 normalized lvs cur -> Forall canonical cur.
Proof.
  induction 1 as [|v s lvs cur (z & _ & ->) _ IH]; constructor; [by exists z | done].
Qed.

Lemma chain_canonical (ls : list (list string)) (cur : list string) (rest : list (list string)) :
  chain poseidon ls -> ls = cur :: rest -> Forall canonical cur -> Forall (Forall canonical) ls.
Proof.
  intros Hc. revert cur rest. induction Hc as [x|cur0 rest0 Hlen Hch IH];
    intros cur rest [= <- <-] Hcan.
  - by constructor.
  - constructor; [done|]. eapply IH; [reflexivity|]. apply canonical_pairUp.
Qed.

(** [buildMerkleTree] returns exactly when there is a leaf and every leaf
    converts to a BigInt; the layers then start with the normalised leaves,
    each further layer pairs up the one below, and the root is the one node
    of the last layer. *)
Lemma buildMerkleTree_spec (lvs : list value) (t : MerkleTree) :
  buildMerkleTree poseidon lvs = OK t <->
  lvs <> [] /\
  exists (cur : list string) (pushed : list (list string)) (x : string),
    Forall2 normalized lvs cur /\
    t = {| layers := cur :: pushed; root := VString x |} /\
    chain poseidon (cur :: pushed) /\ last (cur :: pushed) = Some [x].
Proof.
  unfold buildMerkleTree. split.
  - intros H. destruct lvs as [|v lvs]; [discriminate|]. split; [done|].
    destruct (mapM _ (v :: lvs)) as [cur|] eqn:Hm; [|discriminate].
    apply mapM_normalized in Hm.
    destruct (buildLoop_spec cur) as (pushed & x & Hb & Hc & Hl).
    { intros ->. by apply Forall2_nil_inv_r in Hm. }
    cbn in H. rewrite Hb in H. cbn in H. injection H as <-.
    by exists cur, pushed, x.
  - intros (Hne & cur & pushed & x & Hm & -> & Hc & Hl).
    destruct lvs as [|v lvs]; [done|].
    apply mapM_normalized in Hm as Hm'. rewrite Hm'. cbn.
    destruct (buildLoop_spec cur) as (pushed' & x' & Hb & Hc' & Hl').
    { intros ->. by apply Forall2_nil_inv_r in Hm. }
    rewrite Hb. cbn.
    assert (Hdet : forall ls1, chain poseidon ls1 -> forall ls2, chain poseidon ls2 ->
                     head ls1 = head ls2 -> ls1 = ls2).
    { induction 1 as [a|c1 r1 H1 Hc1 IH]; intros ls2 H2 Hh.
      - destruct H2 as [b|c2 r2 Hlen2 Hc2]; simpl in Hh; [congruence|].
        injection Hh as <-. simpl in Hlen2. lia.
      - destruct H2 as [b|c2 r2 Hlen2 Hc2]; simpl in Hh.
        + injection Hh as ->. simpl in H1. lia.
        + injection Hh as ->. f_equal. by apply IH. }
    assert (E : cur :: pushed' = cur :: pushed) by (by apply Hdet).
    injection E as ->. rewrite Hl in Hl'. by injection Hl' as ->.
Qed.
Definition isBigInt (v : value) : Prop := exists z, toBigInt v = OK z.

Lemma isBigInt_normalized (lvs : list value) :
  Forall isBigInt lvs -> exists cur, Forall2 normalized lvs cur.
Proof.
  induction 1 as [|v lvs [z Hz] _ [cur IH]]; [by exists []|].
  exists (BigInt.toString z :: cur). constructor; [by exists z | done].
Qed.

Lemma length_walk (ls : list (list string)) (i : nat) :
  length (walkElements ls i) = length (walkIndices ls i).
Proof.
  revert i. induction ls as [|cur ls IH]; intros i; [reflexivity|].
  destruct ls as [|nxt rest]; [reflexivity|].
  change (S (length (walkElements (nxt :: rest) (Nat.div2 i))) =
          S (length (walkIndices (nxt :: rest) (Nat.div2 i)))).
  f_equal. apply IH.
Qed.

Lemma chain_last_canonical (ls : list (list string)) (x : string) :
  Forall (Forall canonical) ls -> last ls = Some [x] -> canonical x.
Proof.
  intros H Hl. apply last_Some_elem_of in Hl. rewrite Forall_forall in H.
  specialize (H _ Hl). by apply Forall_cons in H as [? _].
Qed.

(** Every leaf of a built tree verifies against the root. *)
Lemma built_tree_verifies (lvs : list value) (t : MerkleTree) (i : nat) (leaf : value) :
  buildMerkleTree poseidon lvs = OK t -> lvs !! i = Some leaf ->
  exists proof,
    generateMerkleProof t (Z.of_nat i) = OK proof /\
    verifyMerkleProof poseidon leaf proof (root t) = OK true.
Proof.
  intros Hb Hi. apply buildMerkleTree_spec in Hb
    as (_ & cur & pushed & x & Hn & -> & Hc & Hl).
  destruct (Forall2_lookup_l _ _ _ _ _ Hn Hi) as (s & Hs & z & Hz & ->).
  eexists. split.
  { eapply generateMerkleProof_walk; [reflexivity|]. by eapply lookup_lt_Some. }
  pose proof (chain_canonical _ _ _ Hc eq_refl (normalized_canonical _ _ Hn)) as Hcan.
  destruct (chain_last_canonical _ _ Hcan Hl) as [zx ->].
  unfold verifyMerkleProof. cbn [pathElements pathIndices layers root].
  rewrite length_walk, Nat.eqb_refl. cbn [negb]. rewrite Hz.
  cbn [mbind result_bind rbind].
  rewrite (verifyLoop_walk _ Hc Hcan cur pushed i _ _ eq_refl Hs Hl).
  cbn [mbind result_bind rbind toBigInt].
  rewrite ofString_toString. cbn [of_option mbind result_bind rbind mret result_ret].
  by rewrite String.eqb_refl.
Qed.

(** C1. For every non-empty list of leaves that are field elements (values
    that [BigInt] accepts) and every index [i] in [0, leafCount), building
    the tree, generating the proof of leaf [i] and verifying that proof for
    [leaves[i]] against the root of the tree returns [true]; none of the
    three steps throws. *)
Theorem merkle_proof_verifies (lvs : list value) (i : Z) :
  lvs <> [] -> Forall isBigInt lvs -> 0 <= i < Z.of_nat (length lvs) ->
  exists (t : MerkleTree) (proof : MerkleProof) (leaf : value),
    buildMerkleTree poseidon lvs = OK t /\
    lvs !! Z.to_nat i = Some leaf /\
    generateMerkleProof t i = OK proof /\
    verifyMerkleProof poseidon leaf proof (root t) = OK true.
Proof.
  intros Hne Hall Hi.
  destruct (isBigInt_normalized lvs Hall) as [cur Hn].
  destruct (buildLoop_spec cur) as (pushed & x & Hb & Hc & Hl).
  { intros ->. apply Forall2_nil_inv_r in Hn. done. }
  assert (Ht : buildMerkleTree poseidon lvs =
               OK {| layers := cur :: pushed; root := VString x |}).
  { apply buildMerkleTree_spec. split; [done|]. by exists cur, pushed, x. }
  destruct (lookup_lt_is_Some_2 lvs (Z.to_nat i)) as [leaf Hleaf]; [lia|].
  destruct (built_tree_verifies lvs _ (Z.to_nat i) leaf Ht Hleaf) as (proof & Hg & Hv).
  rewrite Z2Nat.id in Hg by lia.
  by exists {| layers := cur :: pushed; root := VString x |}, proof, leaf.
Qed.
Lemma chain_lookup (ls : list (list string)) (k : nat) (cur nxt : list string) :
  chain poseidon ls -> ls !! k = Some cur -> ls !! S k = Some nxt ->
  nxt = pairUp poseidon cur /\ (1 < length cur)%nat.
Proof.
  intros Hc. revert k. induction Hc as [x|c r Hlen Hc IH]; intros k Hk HS.
  - destruct k; done.
  - destruct k as [|k].
    + simpl in Hk, HS. injection Hk as <-. injection HS as <-. done.
    + by apply (IH k).
Qed.

Lemma pairUp_last_odd (cur : list string) (x : string) :
  Nat.odd (length cur) = true -> last cur = Some x ->
  last (pairUp poseidon cur) = Some (hash2 poseidon x x).
Proof.
  induction cur as [|a|a b l IH] using list_pair_ind; intros Ho Hl.
  - done.
  - simpl in Hl. by injection Hl as ->.
  - destruct l as [|c l]; [done|].
    change (last (hash2 poseidon a b :: pairUp poseidon (c :: l)) = Some (hash2 poseidon x x)).
    assert (Hne : pairUp poseidon (c :: l) <> []) by (destruct l; done).
    destruct (pairUp poseidon (c :: l)) as [|p ps] eqn:E; [done|].
    change (last (p :: ps) = Some (hash2 poseidon x x)). apply IH; done.
Qed.

Lemma walkElements_lookup (ls : list (list string)) (i k : nat) (cur : list string) :
  ls !! k = Some cur -> is_Some (ls !! S k) ->
  walkElements ls i !! k = Some (siblingOf cur (Nat.iter k Nat.div2 i)) /\
  walkIndices ls i !! k = Some (indexBit (Nat.iter k Nat.div2 i)).
Proof.
  revert i k. induction ls as [|c ls IH]; intros i k Hk HS; [done|].
  destruct ls as [|nxt rest]; [by destruct HS|].
  destruct k as [|k].
  - simpl in Hk. injection Hk as <-. done.
  - change (walkElements (nxt :: rest) (Nat.div2 i) !! k =
              Some (siblingOf cur (Nat.iter (S k) Nat.div2 i)) /\
            walkIndices (nxt :: rest) (Nat.div2 i) !! k =
              Some (indexBit (Nat.iter (S k) Nat.div2 i))).
    rewrite Nat.iter_succ_r. by apply IH.
Qed.

Lemma iter_div2 (k i : nat) : Nat.iter k Nat.div2 i = (i / 2 ^ k)%nat.
Proof.
  revert i. induction k as [|k IH]; intros i.
  - change (i = (i / 1)%nat). symmetry. apply Nat.div_1_r.
  - rewrite Nat.iter_succ_r, IH, Nat.div2_div, Nat.pow_succ_r', Nat.Div0.div_div. done.
Qed.

(** C4. In a built tree the unpaired last node of an odd-length layer is
    hashed with itself, and a proof takes the node itself as path element
    where the neighbouring position does not exist; so in a tree of three
    leaves the proof of leaf 2 starts with leaf 2. *)
Theorem odd_layer_duplicates_last (lvs : list value) (t : MerkleTree) :
  buildMerkleTree poseidon lvs = OK t ->
  (forall (level : nat) (cur nxt : list string) (x : string),
     layers t !! level = Some cur -> layers t !! S level = Some nxt ->
     Nat.odd (length cur) = true -> last cur = Some x ->
     exists p, poseidonHash2 poseidon (VString x) (VString x) = OK p /\
               last nxt = Some p) /\
  (forall (i : Z) (proof : MerkleProof) (level : nat) (cur : list string) (node : string),
     generateMerkleProof t i = OK proof ->
     layers t !! level = Some cur -> is_Some (layers t !! S level) ->
     let position := (Z.to_nat i / 2 ^ level)%nat in
     Nat.even position = true -> S position = length cur ->
     cur !! position = Some node ->
     pathElements proof !! level = Some (VString node)) /\
  (length lvs = 3%nat ->
   forall proof : MerkleProof,
     generateMerkleProof t 2 = OK proof ->
     exists z, lvs !! 2%nat = Some z /\ exists zl, toBigInt z = OK zl /\
       pathElements proof !! 0%nat = Some (VString (BigInt.toString zl))).
Proof.
  intros Hb. apply buildMerkleTree_spec in Hb
    as (_ & cur0 & pushed & x0 & Hn & -> & Hc & Hl).
  cbn [layers].
  assert (Hpath : forall (i : Z) (proof : MerkleProof) (level : nat)
                    (cur : list string) (node : string),
     generateMerkleProof {| layers := cur0 :: pushed; root := VString x0 |} i = OK proof ->
     (cur0 :: pushed) !! level = Some cur -> is_Some ((cur0 :: pushed) !! S level) ->
     Nat.even (Z.to_nat i / 2 ^ level) = true -> S (Z.to_nat i / 2 ^ level) = length cur ->
     cur !! (Z.to_nat i / 2 ^ level)%nat = Some node ->
     pathElements proof !! level = Some (VString node)).
  { intros i proof level cur node Hg Hk HS He Hlast Hnode.
    assert (Hi : 0 <= i < Z.of_nat (length cur0)).
    { unfold generateMerkleProof in Hg. cbn [layers] in Hg.
      destruct (Z.ltb_spec i 0); [discriminate|].
      destruct (Z.leb_spec (Z.of_nat (length cur0)) i); [discriminate|]. lia. }
    rewrite <- (Z2Nat.id i) in Hg by lia.
    rewrite (generateMerkleProof_walk {| layers := cur0 :: pushed; root := VString x0 |}
               (Z.to_nat i) cur0 pushed eq_refl) in Hg by lia.
    destruct (walkElements_lookup (cur0 :: pushed) (Z.to_nat i) level cur Hk HS) as [Hw _].
    rewrite iter_div2 in Hw. unfold siblingOf in Hw. rewrite He in Hw.
    rewrite (lookup_ge_None_2 cur (S _)), Hnode in Hw by lia.
    injection Hg as <-. exact Hw. }
  split; [|split].
  - intros level cur nxt x Hk HS Ho Hx.
    destruct (chain_lookup _ _ _ _ Hc Hk HS) as [-> _].
    exists (hash2 poseidon x x). split; [apply poseidonHash2_string | by apply pairUp_last_odd].
  - exact Hpath.
  - intros Hlen proof Hg.
    destruct lvs as [|a [|b [|c [|? ?]]]]; try discriminate Hlen.
    apply Forall2_cons_inv_l in Hn as (sa & r1 & _ & Hn & ->).
    apply Forall2_cons_inv_l in Hn as (sb & r2 & _ & Hn & ->).
    apply Forall2_cons_inv_l in Hn as (sc & r3 & (zc & Hzc & ->) & Hn & ->).
    apply Forall2_nil_inv_l in Hn as ->.
    exists c. split; [reflexivity|]. exists zc. split; [done|].
    destruct pushed as [|nxt pushed]; [inversion Hc|].
    eapply (Hpath 2 proof 0%nat _ _ Hg); [reflexivity | by eexists | reflexivity..].
Qed.
Lemma mapM_result_ext {A B} (f g : A -> result B) (l : list A) :
  (forall x, x ∈ l -> f x = g x) -> mapM f l = mapM g l.
Proof.
  induction l as [|x l IH]; intros H; [reflexivity|].
  cbn [mapM]. rewrite (H x) by left. rewrite IH; [reflexivity|].
  intros y Hy. apply H. by right.
Qed.

(** C10. The encoding of non-numeric strings is not injective: two
    non-numeric strings of at least 31 bytes that agree on their first 31
    bytes have the same field element, and replacing one by the other as the
    value of an attribute changes neither the leaves nor the tree nor the
    root of the credential. *)
Theorem encoding_truncates_at_31_bytes (s1 s2 : string) :
  all_digits s1 = false -> all_digits s2 = false ->
  (31 <= length (bytes s1))%nat -> (31 <= length (bytes s2))%nat ->
  take 31 (bytes s1) = take 31 (bytes s2) ->
  valueToFieldElement (VString s1) = valueToFieldElement (VString s2) /\
  forall (fields : gmap string value) (name : string) (fieldOrder : list string),
    fields !! name = Some (VString s1) ->
    computeCredentialRoot poseidon (<[name := VString s2]> fields) fieldOrder =
    computeCredentialRoot poseidon fields fieldOrder.
Proof.
  intros H1 H2 _ _ Ht.
  assert (Hv : valueToFieldElement (VString s1) = valueToFieldElement (VString s2)).
  { unfold valueToFieldElement. by rewrite H1, H2, Ht. }
  split; [exact Hv|].
  intros fields name fieldOrder Hname. unfold computeCredentialRoot.
  destruct fieldOrder as [|f fs]; [reflexivity|].
  rewrite (mapM_result_ext _
    (fun fieldName =>
       match fields !! fieldName with
       | Some fieldValue => computeLeafHash poseidon fieldValue (VNumber (Number.ofInt 0))
       | None =>
           if bool_decide (fieldName ∈ objectPrototypeNames) then Err CannotConvertValue
           else Err (FieldNotFound fieldName)
       end)); [reflexivity|].
  intros x _. destruct (decide (name = x)) as [<-|Hne].
  - rewrite lookup_insert_eq, Hname. unfold computeLeafHash, poseidonHash.
    cbn [truthy]. by rewrite Hv.
  - by rewrite lookup_insert_ne.
Qed.

(** *** More on the tree *)

(** X1. [buildMerkleTree] returns a tree exactly when there is at least one leaf
    and [BigInt] accepts every leaf; without leaves it throws the error of
    the empty input. *)
Theorem buildMerkleTree_returns_iff (lvs : list value) :
  ((exists t, buildMerkleTree poseidon lvs = OK t) <->
   lvs <> [] /\ Forall isBigInt lvs) /\
  buildMerkleTree poseidon [] = Err EmptyLeaves.
Proof.
  split; [|reflexivity]. split.
  - intros [t Ht]. apply buildMerkleTree_spec in Ht as (Hne & cur & _ & _ & Hn & _).
    split; [done|]. clear Hne.
    induction Hn as [|v s l k (z & Hz & _) _ IH]; [constructor|].
    constructor; [by exists z | exact IH].
  - intros [Hne Hall]. destruct (isBigInt_normalized lvs Hall) as [cur Hn].
    destruct (buildLoop_spec cur) as (pushed & x & Hb & Hc & Hl).
    { intros ->. apply Forall2_nil_inv_r in Hn. done. }
    eexists. apply buildMerkleTree_spec. split; [done|]. by exists cur, pushed, x.
Qed.

(** X2. The layers of a built tree: the first is the list of the leaves, each
    printed as a BigInt; each later layer has half the nodes of the one
    below, rounded up, and its node [j] is the hash of the nodes [2j] and
    [2j+1] below, or of node [2j] with itself where [2j+1] does not exist;
    the last layer is the root alone. *)
Theorem layers_of_built_tree (lvs : list value) (t : MerkleTree) :
  buildMerkleTree poseidon lvs = OK t ->
  (exists cur, layers t !! 0%nat = Some cur /\ Forall2 normalized lvs cur) /\
  (forall (level : nat) (cur nxt : list string),
     layers t !! level = Some cur -> layers t !! S level = Some nxt ->
     (1 < length cur)%nat /\ length nxt = Nat.div2 (S (length cur)) /\
     forall (j : nat) (a : string),
       cur !! (2 * j)%nat = Some a ->
       exists p,
         poseidonHash2 poseidon (VString a) (VString (default a (cur !! S (2 * j)))) = OK p /\
         nxt !! j = Some p) /\
  (exists x, last (layers t) = Some [x] /\ root t = VString x).
Proof.
  intros Hb. apply buildMerkleTree_spec in Hb as (_ & cur0 & pushed & x & Hn & -> & Hc & Hl).
  cbn [layers root]. split; [by exists cur0|]. split; [|by exists x].
  intros level cur nxt Hk HS. destruct (chain_lookup _ _ _ _ Hc Hk HS) as [-> Hlen].
  split; [done|]. split; [apply length_pairUp|].
  intros j a Ha. eexists. split; [apply poseidonHash2_string|]. by apply pairUp_lookup.
Qed.

Lemma div2_succ_bounds (n : nat) :
  (n <= 2 * Nat.div2 (S n) <= S n)%nat.
Proof.
  pose proof (Nat.div2_odd (S n)) as H. revert H.
  generalize (Nat.div2 (S n)). intros m H.
  destruct (Nat.odd (S n)); cbn [Nat.b2n] in H; lia.
Qed.

Lemma chain_height (ls : list (list string)) (cur : list string) (rest : list (list string)) :
  chain poseidon ls -> ls = cur :: rest ->
  (length cur <= 2 ^ length rest)%nat /\
  (length rest = 0%nat \/ 2 ^ (length rest - 1) < length cur)%nat.
Proof.
  intros Hc. revert cur rest. induction Hc as [x|c r Hlen Hc IH]; intros cur rest [= <- <-].
  - simpl. split; [lia | by left].
  - destruct (IH _ _ eq_refl) as [Hle Hlt]. rewrite length_pairUp in Hle, Hlt.
    pose proof (div2_succ_bounds (length c)) as Hb. revert Hle Hlt Hb.
    generalize (Nat.div2 (S (length c))). intros m Hle Hlt Hb.
    cbn [length]. rewrite Nat.pow_succ_r'. split; [lia|]. right.
    replace (S (length r) - 1)%nat with (length r) by lia.
    destruct Hlt as [Hz|Hlt]; [rewrite Hz; simpl; lia|].
    destruct (length r) as [|k]; [simpl; lia|].
    replace (S k - 1)%nat with k in Hlt by lia. rewrite Nat.pow_succ_r'. lia.
Qed.

Lemma length_walkIndices (ls : list (list string)) (k : nat) :
  length (walkIndices ls k) = (length ls - 1)%nat.
Proof.
  revert k. induction ls as [|c ls IH]; intros k; [reflexivity|].
  destruct ls as [|n r]; [reflexivity|].
  change (S (length (walkIndices (n :: r) (Nat.div2 k))) = S (length (n :: r)) - 1)%nat.
  rewrite IH. simpl. lia.
Qed.

(** X3. The proof of a leaf has one sibling and one index for every layer
    below the root, and that number [h] is the height of the tree: the
    least [h] with [leafCount <= 2^h]; it is 0 exactly for a single leaf. *)
Theorem proof_length_is_tree_height (lvs : list value) (t : MerkleTree) (i : Z)
    (proof : MerkleProof) :
  buildMerkleTree poseidon lvs = OK t -> generateMerkleProof t i = OK proof ->
  let h := (length (layers t) - 1)%nat in
  length (pathElements proof) = h /\ length (pathIndices proof) = h /\
  (length lvs <= 2 ^ h)%nat /\ (h = 0%nat \/ 2 ^ (h - 1) < length lvs)%nat.
Proof.
  intros Hb Hg h. apply buildMerkleTree_spec in Hb
    as (_ & cur0 & pushed & x & Hn & -> & Hc & Hl).
  assert (Hi : 0 <= i < Z.of_nat (length cur0)).
  { unfold generateMerkleProof in Hg. cbn [layers] in Hg.
    destruct (Z.ltb_spec i 0); [discriminate|].
    destruct (Z.leb_spec (Z.of_nat (length cur0)) i); [discriminate|]. lia. }
  rewrite <- (Z2Nat.id i) in Hg by lia.
  rewrite (generateMerkleProof_walk {| layers := cur0 :: pushed; root := VString x |}
             (Z.to_nat i) cur0 pushed eq_refl) in Hg by lia.
  assert (Hp : proof = {| pathElements := walkElements (cur0 :: pushed) (Z.to_nat i);
                          pathIndices := walkIndices (cur0 :: pushed) (Z.to_nat i) |})
    by (injection Hg as <-; reflexivity).
  subst proof. unfold h. cbn [pathElements pathIndices layers].
  rewrite length_walk, length_walkIndices.
  change (length (cur0 :: pushed) - 1)%nat with (length pushed - 0)%nat.
  rewrite Nat.sub_0_r. split; [done|]. split; [done|].
  rewrite (Forall2_length _ _ _ Hn). by apply (chain_height _ _ _ Hc).
Qed.

(** X4. The path indices of the proof of leaf [i] are the binary digits of
    [i], lowest first. *)
Theorem path_indices_are_the_bits_of_the_index (lvs : list value) (t : MerkleTree) (i : Z)
    (proof : MerkleProof) (k : nat) :
  buildMerkleTree poseidon lvs = OK t -> generateMerkleProof t i = OK proof ->
  (k < length (layers t) - 1)%nat ->
  pathIndices proof !! k = Some (VNumber (Number.ofInt ((i / 2 ^ Z.of_nat k) mod 2))).
Proof.
  intros Hb Hg Hk. apply buildMerkleTree_spec in Hb
    as (_ & cur0 & pushed & x & Hn & -> & Hc & Hl).
  assert (Hi : 0 <= i < Z.of_nat (length cur0)).
  { unfold generateMerkleProof in Hg. cbn [layers] in Hg.
    destruct (Z.ltb_spec i 0); [discriminate|].
    destruct (Z.leb_spec (Z.of_nat (length cur0)) i); [discriminate|]. lia. }
  rewrite <- (Z2Nat.id i) in Hg by lia.
  rewrite (generateMerkleProof_walk {| layers := cur0 :: pushed; root := VString x |}
             (Z.to_nat i) cur0 pushed eq_refl) in Hg by lia.
  assert (Hp : proof = {| pathElements := walkElements (cur0 :: pushed) (Z.to_nat i);
                          pathIndices := walkIndices (cur0 :: pushed) (Z.to_nat i) |})
    by (injection Hg as <-; reflexivity).
  subst proof. cbn [pathIndices layers] in *.
  destruct (lookup_lt_is_Some_2 (cur0 :: pushed) k) as [cur Hcur]; [simpl in *; lia|].
  destruct (walkElements_lookup (cur0 :: pushed) (Z.to_nat i) k cur Hcur) as [_ Hw].
  { apply lookup_lt_is_Some_2. simpl in *. lia. }
  rewrite Hw, iter_div2. unfold indexBit. do 3 f_equal.
  rewrite <- (Z2Nat.id i) at 2 by lia.
  replace (2 ^ Z.of_nat k) with (Z.of_nat (2 ^ k)) by (rewrite Nat2Z.inj_pow; reflexivity).
  rewrite <- Nat2Z.inj_div.
  generalize (Z.to_nat i / 2 ^ k)%nat. intros n.
  destruct (Nat.even n) eqn:E.
  - apply Nat.even_spec in E as [q ->]. rewrite Nat2Z.inj_mul, Z.mul_comm.
    symmetry. apply Z_mod_mult.
  - assert (Ho : Nat.odd n = true) by (rewrite <- Nat.negb_even, E; done).
    apply Nat.odd_spec in Ho as [q ->].
    rewrite Nat2Z.inj_add, Nat2Z.inj_mul, Z.add_comm, Z.mul_comm, Z_mod_plus_full.
    reflexivity.
Qed.

(** X5. On a built tree [generateMerkleProof] returns a proof exactly for the
    indices of the leaves, and throws the out-of-bounds error for any other
    index. *)
Theorem generateMerkleProof_returns_iff (lvs : list value) (t : MerkleTree) (i : Z) :
  buildMerkleTree poseidon lvs = OK t ->
  ((exists proof, generateMerkleProof t i = OK proof) <-> 0 <= i < Z.of_nat (length lvs)) /\
  (~ 0 <= i < Z.of_nat (length lvs) ->
   generateMerkleProof t i = Err (LeafIndexOutOfBounds i)).
Proof.
  intros Hb. apply buildMerkleTree_spec in Hb
    as (_ & cur0 & pushed & x & Hn & -> & Hc & Hl).
  rewrite (Forall2_length _ _ _ Hn). unfold generateMerkleProof. cbn [layers].
  destruct (Z.ltb_spec i 0) as [Hneg|Hpos]; cbn [orb].
  { split; [split; [intros [? ?]; discriminate | lia] | done]. }
  destruct (Z.leb_spec (Z.of_nat (length cur0)) i) as [Hge|Hlt].
  { split; [split; [intros [? ?]; discriminate | lia] | done]. }
  split; [|lia]. split; [lia|]. intros _.
  destruct (fold_left _ _ _) as [[pe pi] idx]. by eexists.
Qed.

(** X6. [getRootHash] returns the root of every built tree. *)
Theorem getRootHash_of_built_tree (lvs : list value) (t : MerkleTree) :
  buildMerkleTree poseidon lvs = OK t -> getRootHash t = OK (root t).
Proof.
  intros Hb. apply buildMerkleTree_spec in Hb as Hs.
  destruct Hs as (_ & cur0 & pushed & x & Hn & -> & Hc & Hl).
  pose proof (chain_canonical _ _ _ Hc eq_refl (normalized_canonical _ _ Hn)) as Hcan.
  destruct (chain_last_canonical _ _ Hcan Hl) as [z ->].
  unfold getRootHash. cbn [root truthy].
  assert (Hne : BigInt.toString z <> "").
  { unfold BigInt.toString. destruct (z <? 0); [discriminate|].
    destruct (natToString_cons (Z.to_N z)) as (c & r & ->). discriminate. }
  apply String.eqb_neq in Hne. by rewrite Hne.
Qed.

(** *** The field encoding *)

Lemma byte_value_bound (c : ascii) : 0 <= byte_value c < 256.
Proof.
  unfold byte_value. pose proof (N_ascii_bounded c). lia.
Qed.

Lemma fold_bytes_bound (l : list ascii) (acc : Z) :
  0 <= acc ->
  0 <= fold_left (fun result b => result * 256 + byte_value b) l acc
    < (acc + 1) * 256 ^ Z.of_nat (length l).
Proof.
  revert acc. induction l as [|c l IH]; intros acc Hacc.
  - simpl. lia.
  - cbn [fold_left length]. pose proof (byte_value_bound c) as Hc.
    destruct (IH (acc * 256 + byte_value c)) as [H0 H1]; [lia|].
    split; [exact H0|]. eapply Z.lt_le_trans; [exact H1|].
    rewrite Nat2Z.inj_succ, Z.pow_succ_r by lia.
    assert (0 < 256 ^ Z.of_nat (length l)) by (apply Z.pow_pos_nonneg; lia).
    nia.
Qed.

(** X7. [valueToFieldElement] never throws on a string; the field element is
    non-negative, and for a non-numeric string it is below [2^248], so below
    the modulus of the field. *)
Theorem valueToFieldElement_of_string (s : string) :
  exists z, valueToFieldElement (VString s) = OK z /\ 0 <= z /\
            (all_digits s = false -> z < 2 ^ 248).
Proof.
  exists (fieldOfString s). split; [apply valueToFieldElement_string|].
  unfold fieldOfString. destruct (all_digits s) eqn:E.
  - destruct (ofString_all_digits s E) as (z & -> & Hz). split; [exact Hz | discriminate].
  - pose proof (fold_bytes_bound (take 31 (bytes s)) 0 (Z.le_refl 0)) as [H0 H1].
    split; [exact H0|]. intros _. eapply Z.lt_le_trans; [exact H1|].
    rewrite Z.add_0_l, Z.mul_1_l. change (2 ^ 248) with (256 ^ 31).
    apply Z.pow_le_mono_r; [lia|]. rewrite length_take. lia.
Qed.

Lemma all_digits_natToString (n : N) : all_digits (BigInt.natToString n) = true.
Proof.
  pose proof (natToString_digits n) as H.
  destruct (natToString_cons n) as (c & r & E). rewrite E in *. exact H.
Qed.

Lemma fieldOfString_natToString (n : N) : fieldOfString (BigInt.natToString n) = Z.of_N n.
Proof.
  unfold fieldOfString. by rewrite all_digits_natToString, ofString_natToString.
Qed.

Lemma natToString_inj (a b : N) : BigInt.natToString a = BigInt.natToString b -> a = b.
Proof.
  intros H. apply (f_equal BigInt.ofString) in H. rewrite !ofString_natToString in H.
  injection H as H. lia.
Qed.

(** X8. A hash that [poseidonHash2] printed reads back as the field element it
    prints: hashing two printed hashes is hashing the two field elements. *)
Theorem printed_hash_reads_back (a b : N) :
  valueToFieldElement (VString (BigInt.natToString a)) = OK (Z.of_N a) /\
  poseidonHash2 poseidon (VString (BigInt.natToString a)) (VString (BigInt.natToString b))
    = OK (BigInt.natToString (poseidon [Z.of_N a; Z.of_N b])).
Proof.
  split.
  - by rewrite valueToFieldElement_string, fieldOfString_natToString.
  - rewrite poseidonHash2_string. unfold hash2. by rewrite !fieldOfString_natToString.
Qed.

(** *** The verifier binds a proof to one leaf, up to collisions *)

Lemma verifyLoop_agree_or_collide (pes pis : list value) (n1 n2 : N) (r : string) :
  verifyLoop poseidon (BigInt.natToString n1) pes pis = OK r ->
  verifyLoop poseidon (BigInt.natToString n2) pes pis = OK r ->
  n1 = n2 \/
  exists (k : nat) (l1 l2 : list Z),
    hashedInputs poseidon (BigInt.natToString n1) pes pis !! k = Some l1 /\
    hashedInputs poseidon (BigInt.natToString n2) pes pis !! k = Some l2 /\
    l1 <> l2 /\ poseidon l1 = poseidon l2.
Proof.
  revert pis n1 n2. induction pes as [|e pes IH]; intros pis n1 n2 H1 H2.
  - left. simpl in H1, H2. apply natToString_inj. congruence.
  - destruct pis as [|i pis].
    { left. simpl in H1, H2. apply natToString_inj. congruence. }
    cbn [verifyLoop hashedInputs] in *.
    destruct (toBigInt e) as [z|]; [|discriminate].
    cbn [mbind result_bind rbind] in H1, H2. cbv zeta.
    rewrite !fieldOfString_natToString.
    set (l1 := if is_zero i then [Z.of_N n1; fieldOfString (BigInt.toString z)]
               else [fieldOfString (BigInt.toString z); Z.of_N n1]).
    set (l2 := if is_zero i then [Z.of_N n2; fieldOfString (BigInt.toString z)]
               else [fieldOfString (BigInt.toString z); Z.of_N n2]).
    assert (E1 : verifyLoop poseidon (BigInt.natToString (poseidon l1)) pes pis = OK r).
    { revert H1. unfold l1. destruct (is_zero i); rewrite poseidonHash2_string;
        cbn [rbind]; unfold hash2; by rewrite fieldOfString_natToString. }
    assert (E2 : verifyLoop poseidon (BigInt.natToString (poseidon l2)) pes pis = OK r).
    { revert H2. unfold l2. destruct (is_zero i); rewrite poseidonHash2_string;
        cbn [rbind]; unfold hash2; by rewrite fieldOfString_natToString. }
    destruct (IH pis _ _ E1 E2) as [Heq|(k & a & b & Ha & Hb & Hne & Hc)].
    + destruct (decide (l1 = l2)) as [El|Hne].
      * left. revert El. unfold l1, l2. destruct (is_zero i); intros [= E]; lia.
      * right. exists 0%nat, l1, l2. by repeat split.
    + right. by exists (S k), a, b.
Qed.

(** X9. Two non-negative leaves that [verifyMerkleProof] accepts with the same
    proof against the same root are the same BigInt, or the two runs of the
    verifier exhibit a collision of the hash: at some level they hand
    different inputs to Poseidon and get the same hash back. *)
Theorem two_verified_leaves_agree_or_collide (leaf1 leaf2 : value) (z1 z2 : Z)
    (proof : MerkleProof) (root : value) :
  toBigInt leaf1 = OK z1 -> toBigInt leaf2 = OK z2 -> 0 <= z1 -> 0 <= z2 ->
  verifyMerkleProof poseidon leaf1 proof root = OK true ->
  verifyMerkleProof poseidon leaf2 proof root = OK true ->
  z1 = z2 \/
  exists (level : nat) (inputs1 inputs2 : list Z),
    hashedInputs poseidon (BigInt.toString z1) (pathElements proof) (pathIndices proof) !! level
      = Some inputs1 /\
    hashedInputs poseidon (BigInt.toString z2) (pathElements proof) (pathIndices proof) !! level
      = Some inputs2 /\
    inputs1 <> inputs2 /\ poseidon inputs1 = poseidon inputs2.
Proof.
  intros Hz1 Hz2 Hp1 Hp2. unfold verifyMerkleProof. rewrite Hz1, Hz2.
  destruct (negb _); [discriminate|]. cbn [mbind result_bind rbind].
  assert (Hs : forall z, 0 <= z -> BigInt.toString z = BigInt.natToString (Z.to_N z)).
  { intros z Hz. unfold BigInt.toString. destruct (Z.ltb_spec z 0); [lia | reflexivity]. }
  rewrite !Hs by done.
  destruct (verifyLoop poseidon (BigInt.natToString (Z.to_N z1)) _ _) as [h1|] eqn:E1;
    [|discriminate].
  destruct (verifyLoop poseidon (BigInt.natToString (Z.to_N z2)) _ _) as [h2|] eqn:E2;
    [|discriminate].
  cbn [rbind]. destruct (toBigInt root) as [r|]; [|discriminate]. cbn [rbind mret result_ret].
  intros [= Ha%String.eqb_eq] [= Hb%String.eqb_eq].
  rewrite Ha in E1. rewrite Hb in E2.
  destruct (verifyLoop_agree_or_collide _ _ _ _ _ E1 E2) as [Heq|Hc]; [left; lia | by right].
Qed.

(** *** computeCredentialRoot *)

Lemma buildMerkleTree_total (lvs : list value) :
  lvs <> [] -> Forall isBigInt lvs -> exists t, buildMerkleTree poseidon lvs = OK t.
Proof.
  intros Hne Hall. destruct (isBigInt_normalized lvs Hall) as [cur Hn].
  destruct (buildLoop_spec cur) as (pushed & x & Hb & Hc & Hl).
  { intros ->. apply Forall2_nil_inv_r in Hn. done. }
  eexists. apply buildMerkleTree_spec. split; [done|]. by exists cur, pushed, x.
Qed.

Lemma leafOf_string (fields : gmap string value) (name s : string) :
  fields !! name = Some (VString s) ->
  leafOf poseidon fields name = OK (BigInt.natToString (poseidon [fieldOfString s])).
Proof.
  intros H. unfold leafOf, computeLeafHash, poseidonHash. rewrite H. cbn [truthy].
  replace (negb _) with false by reflexivity.
  by rewrite valueToFieldElement_string.
Qed.

Lemma mapM_leafOf_strings (fields : gmap string value) (fieldOrder : list string) :
  Forall (fun name => exists s, fields !! name = Some (VString s)) fieldOrder ->
  exists lvs,
    mapM (leafOf poseidon fields) fieldOrder = OK lvs /\
    Forall2 (fun name leaf => leafOf poseidon fields name = OK leaf) fieldOrder lvs /\
    Forall isBigInt (VString <$> lvs).
Proof.
  induction 1 as [|name order [s Hs] _ (lvs & Hm & Hf & Hb)].
  - exists []. by repeat split; constructor.
  - exists (BigInt.natToString (poseidon [fieldOfString s]) :: lvs).
    cbn [mapM]. rewrite (leafOf_string _ _ _ Hs), Hm. split; [reflexivity|].
    split; [constructor; [by apply leafOf_string | done]|].
    cbn [fmap list_fmap]. constructor; [|exact Hb].
    eexists. cbn [toBigInt]. by rewrite ofString_natToString.
Qed.

(** X10. When every name of the field order is an attribute with a string
    value, [computeCredentialRoot] returns: one leaf per name, in the order
    of the names, each the Poseidon hash of the attribute; the tree built
    over these leaves; and its root. *)
Theorem computeCredentialRoot_of_strings (fields : gmap string value)
    (fieldOrder : list string) :
  fieldOrder <> [] ->
  Forall (fun name => exists s, fields !! name = Some (VString s)) fieldOrder ->
  exists cr,
    computeCredentialRoot poseidon fields fieldOrder = OK cr /\
    Forall2 (fun name leaf =>
               exists v, fields !! name = Some v /\ poseidonHash poseidon v = OK leaf)
            fieldOrder (leaves cr) /\
    buildMerkleTree poseidon (VString <$> leaves cr) = OK (tree cr) /\
    rootHash cr = root (tree cr).
Proof.
  intros Hne Hall. destruct (mapM_leafOf_strings fields fieldOrder Hall) as (lvs & Hm & Hf & Hb).
  destruct (buildMerkleTree_total (VString <$> lvs)) as [t Ht]; [|exact Hb|].
  { destruct lvs; [|done]. apply Forall2_nil_inv_r in Hf. done. }
  exists {| rootHash := root t; tree := t; leaves := lvs |}.
  split; [|split; [|split; [exact Ht | reflexivity]]].
  - unfold computeCredentialRoot. destruct fieldOrder as [|f fs]; [done|].
    change (mapM _ (f :: fs)) with (mapM (leafOf poseidon fields) (f :: fs)).
    rewrite Hm. cbn [mbind result_bind rbind]. rewrite Ht. reflexivity.
  - cbn [leaves]. clear Hm Hb Ht Hne. rewrite Forall_forall in Hall.
    induction Hf as [|name leaf order lvs Hl _ IH]; constructor.
    + destruct (Hall name) as [s Hs]; [left|]. exists (VString s). split; [done|].
      rewrite (leafOf_string _ _ _ Hs) in Hl. injection Hl as <-.
      unfold poseidonHash. by rewrite valueToFieldElement_string.
    + apply IH. intros x Hx. apply Hall. by right.
Qed.

(** X11. [computeCredentialRoot] throws on an empty field order, and on the first
    name of the order that is no own attribute of the credential: 'Field ...
    not found', unless the name is one that every object inherits from
    [Object.prototype]; the [in] test then passes and the call throws 'Cannot
    convert value of type ...' on the inherited member. *)
Theorem computeCredentialRoot_missing_field (fields : gmap string value)
    (before after : list string) (name : string) :
  Forall (fun name => exists s, fields !! name = Some (VString s)) before ->
  fields !! name = None ->
  computeCredentialRoot poseidon fields (before ++ name :: after) =
    Err (if bool_decide (name ∈ objectPrototypeNames) then CannotConvertValue
         else FieldNotFound name) /\
  computeCredentialRoot poseidon fields [] = Err FieldsRequired.
Proof.
  intros Hall Hnone. split; [|reflexivity].
  unfold computeCredentialRoot.
  destruct (before ++ name :: after) as [|f fs] eqn:E; [by destruct before|].
  rewrite <- E. clear E.
  change (mapM _ (before ++ name :: after)) with (mapM (leafOf poseidon fields) (before ++ name :: after)).
  replace (mapM (leafOf poseidon fields) (before ++ name :: after)) with
    (@Err (list string) (if bool_decide (name ∈ objectPrototypeNames)
                         then CannotConvertValue else FieldNotFound name)); [reflexivity|].
  induction Hall as [|b before [s Hs] _ IH].
  - cbn [app mapM]. unfold leafOf. rewrite Hnone. by destruct (bool_decide _).
  - cbn [app mapM]. rewrite (leafOf_string _ _ _ Hs), <- IH. reflexivity.
Qed.

(** *** Proofs for the fields of a credential *)

Lemma mapM_result_Forall2 {A B} (f : A -> result B) (l : list A) (k : list B) :
  mapM f l = OK k -> Forall2 (fun x y => f x = OK y) l k.
Proof.
  revert k. induction l as [|x l IH]; intros k H.
  - injection H as <-. constructor.
  - cbn [mapM] in H. destruct (f x) as [y|] eqn:Hy; [|discriminate H].
    cbn [mbind result_bind rbind] in H.
    destruct (mapM f l) as [ys|]; [|discriminate H].
    injection H as <-. constructor; [exact Hy | by apply IH].
Qed.

(** X12. What generate-input.js relies on: once [computeCredentialRoot] has
    returned, [generateMerkleProof] returns for the position of every field
    of the order, and [verifyMerkleProof] accepts that proof for the leaf of
    the field, the hash of its value, against the credential root. *)
Theorem credential_field_proofs_verify (fields : gmap string value)
    (fieldOrder : list string) (cr : CredentialRoot) (i : nat) (fieldName : string) :
  computeCredentialRoot poseidon fields fieldOrder = OK cr ->
  fieldOrder !! i = Some fieldName ->
  exists (fieldValue : value) (leaf : string) (proof : MerkleProof),
    fields !! fieldName = Some fieldValue /\
    poseidonHash poseidon fieldValue = OK leaf /\
    leaves cr !! i = Some leaf /\
    generateMerkleProof (tree cr) (Z.of_nat i) = OK proof /\
    verifyMerkleProof poseidon (VString leaf) proof (rootHash cr) = OK true.
Proof.
  intros Hcr Hi. unfold computeCredentialRoot in Hcr.
  destruct fieldOrder as [|f fs] eqn:Eorder; [discriminate Hcr|]. rewrite <- Eorder in *.
  change (mapM _ fieldOrder) with (mapM (leafOf poseidon fields) fieldOrder) in Hcr.
  destruct (mapM (leafOf poseidon fields) fieldOrder) as [lvs|] eqn:Hm; [|discriminate Hcr].
  cbn [mbind result_bind rbind] in Hcr.
  destruct (buildMerkleTree poseidon (VString <$> lvs)) as [t|] eqn:Ht; [|discriminate Hcr].
  injection Hcr as <-. cbn [leaves tree rootHash].
  apply mapM_result_Forall2 in Hm.
  destruct (Forall2_lookup_l _ _ _ _ _ Hm Hi) as (leaf & Hleaf & Hf).
  unfold leafOf in Hf.
  destruct (fields !! fieldName) as [fieldValue|]; [|by destruct (bool_decide _)].
  assert (Hl : (VString <$> lvs) !! i = Some (VString leaf)) by (by rewrite list_lookup_fmap, Hleaf).
  destruct (built_tree_verifies _ _ _ _ Ht Hl) as (proof & Hg & Hv).
  exists fieldValue, leaf, proof. split; [done|]. split; [|done].
  revert Hf. unfold computeLeafHash. cbn [truthy].
  replace (negb _) with false by reflexivity. done.
Qed.

Lemma toString_inj (a b : Z) : BigInt.toString a = BigInt.toString b -> a = b.
Proof.
  intros H. apply (f_equal BigInt.ofString) in H. rewrite !ofString_toString in H.
  by injection H.
Qed.

(** X27. A generated proof verifies against the root of its tree and no
    other: for the leaf it was generated for, [verifyMerkleProof] against any
    value that [BigInt] accepts returns, and returns whether that value is
    the root. *)
Theorem generated_proof_verifies_only_the_root (lvs : list value) (t : MerkleTree) (i : nat)
    (leaf : value) (proof : MerkleProof) (candidate : value) (z zr : Z) :
  buildMerkleTree poseidon lvs = OK t -> lvs !! i = Some leaf ->
  generateMerkleProof t (Z.of_nat i) = OK proof ->
  toBigInt candidate = OK z -> toBigInt (root t) = OK zr ->
  verifyMerkleProof poseidon leaf proof candidate = OK (z =? zr).
Proof.
  intros Hb Hi Hg Hz Hzr. apply buildMerkleTree_spec in Hb
    as (_ & cur & pushed & x & Hn & -> & Hc & Hl).
  destruct (Forall2_lookup_l _ _ _ _ _ Hn Hi) as (s & Hs & zl & Hzl & ->).
  erewrite generateMerkleProof_walk in Hg; [|reflexivity|by eapply lookup_lt_Some].
  assert (Hp : proof = {| pathElements := walkElements (cur :: pushed) i;
                          pathIndices := walkIndices (cur :: pushed) i |})
    by (injection Hg as <-; reflexivity).
  subst proof. clear Hg.
  pose proof (chain_canonical _ _ _ Hc eq_refl (normalized_canonical _ _ Hn)) as Hcan.
  destruct (chain_last_canonical _ _ Hcan Hl) as [zx ->].
  cbn [root toBigInt] in Hzr. rewrite ofString_toString in Hzr. injection Hzr as ->.
  unfold verifyMerkleProof. cbn [pathElements pathIndices].
  rewrite length_walk, Nat.eqb_refl. cbn [negb]. rewrite Hzl.
  cbn [mbind result_bind rbind].
  rewrite (verifyLoop_walk _ Hc Hcan cur pushed i _ _ eq_refl Hs Hl).
  cbn [mbind result_bind rbind]. rewrite Hz. cbn [mbind result_bind rbind mret result_ret].
  f_equal. rewrite String.eqb_sym.
  destruct (Z.eqb_spec z zr) as [->|Hne]; [apply String.eqb_refl|].
  apply String.eqb_neq. intros E. apply toString_inj in E. congruence.
Qed.

(** *** The age circuit and the verifier of merkle-utils.js *)

Lemma mux_selects (h e i : Z) :
  0 <= h < Circom.p -> 0 <= e < Circom.p -> i = 0 \/ i = 1 ->
  Circom.fadd (Circom.fmul i (Circom.fsub e h)) h = (if i =? 0 then h else e).
Proof.
  intros Hh He Hi. unfold Circom.fadd, Circom.fmul, Circom.fsub.
  rewrite Zplus_mod_idemp_l.
  rewrite <- (Zplus_mod_idemp_l (i * _)), Zmult_mod_idemp_r, Zplus_mod_idemp_l.
  destruct Hi as [-> | ->]; cbn [Z.eqb].
  - rewrite Z.mul_0_l, Z.add_0_l. by apply Z.mod_small.
  - rewrite Z.mul_1_l, Z.sub_add. by apply Z.mod_small.
Qed.

Lemma verifyLoop_level (a : N) (e i : Z) (pes pis : list value) :
  0 <= e -> i = 0 \/ i = 1 ->
  verifyLoop poseidon (BigInt.natToString a)
    (VString (BigInt.toString e) :: pes) (VNumber (Number.ofInt i) :: pis) =
  verifyLoop poseidon (BigInt.natToString (poseidon (ordered i (Z.of_N a) e))) pes pis.
Proof.
  intros He Hi. cbn [verifyLoop]. rewrite toBigInt_toString.
  cbn [mbind result_bind rbind].
  assert (Hs : BigInt.toString e = BigInt.natToString (Z.to_N e)).
  { unfold BigInt.toString. destruct (Z.ltb_spec e 0); [lia | reflexivity]. }
  rewrite Hs.
  assert (Hf : fieldOfString (BigInt.natToString (Z.to_N e)) = e).
  { rewrite fieldOfString_natToString. lia. }
  unfold ordered. destruct Hi as [-> | ->]; cbn [is_zero Z.eqb].
  - change (Number.eqb (Number.ofInt 0) (Number.ofInt 0)) with true. cbv iota.
    rewrite poseidonHash2_string. cbn [rbind]. unfold hash2.
    by rewrite Hf, fieldOfString_natToString.
  - change (Number.eqb (Number.ofInt 1) (Number.ofInt 0)) with false. cbv iota.
    rewrite poseidonHash2_string. cbn [rbind]. unfold hash2.
    by rewrite Hf, fieldOfString_natToString.
Qed.

Lemma circuit_root_value (Poseidon : list Z -> Z) (LessEqThan : Z -> Z -> Z -> Z)
    (dob e0 e1 i0 i1 : Z) :
  (forall inputs, Poseidon inputs = Z.of_N (poseidon inputs)) ->
  (forall inputs, Z.of_N (poseidon inputs) < Circom.p) ->
  0 <= e0 < Circom.p -> 0 <= e1 < Circom.p -> i0 = 0 \/ i0 = 1 -> i1 = 0 \/ i1 = 1 ->
  snd (Part002.AgeWithMerkle Poseidon LessEqThan dob (e0, e1) (i0, i1)) =
  Z.of_N (poseidon (ordered i1
    (Z.of_N (poseidon (ordered i0 (Z.of_N (poseidon [dob])) e0))) e1)).
Proof.
  intros Hsame Hrange He0 He1 Hi0 Hi1.
  assert (Hr : forall l, 0 <= Z.of_N (poseidon l) < Circom.p)
    by (intros l; split; [lia | apply Hrange]).
  unfold Part002.AgeWithMerkle. cbv zeta. cbn [fst snd]. rewrite !Hsame.
  rewrite !mux_selects by (done || lia). unfold ordered.
  by destruct (i0 =? 0), (i1 =? 0).
Qed.

Lemma circuit_root_verifyLoop (dob e0 e1 i0 i1 : Z) :
  0 <= e0 -> 0 <= e1 -> i0 = 0 \/ i0 = 1 -> i1 = 0 \/ i1 = 1 ->
  verifyLoop poseidon (BigInt.natToString (poseidon [dob]))
    [VString (BigInt.toString e0); VString (BigInt.toString e1)]
    [VNumber (Number.ofInt i0); VNumber (Number.ofInt i1)] =
  OK (BigInt.natToString (poseidon (ordered i1
        (Z.of_N (poseidon (ordered i0 (Z.of_N (poseidon [dob])) e0))) e1))).
Proof.
  intros He0 He1 Hi0 Hi1. by rewrite !verifyLoop_level by done.
Qed.

(** X25. For path indices that are bits, the [rootHash] that the circuit
    outputs is the root that [verifyMerkleProof] recomputes from the hash of
    [dob] and the same two path elements; provided the Poseidon of the
    circuit and the one of merkle-utils.js are the same function into the
    field, which is what circomlib and circomlibjs are for. *)
Theorem circuit_root_is_the_verifier_root (Poseidon : list Z -> Z)
    (LessEqThan : Z -> Z -> Z -> Z) (dobValue : value) (dob e0 e1 i0 i1 : Z) (leaf : string) :
  (forall inputs, Poseidon inputs = Z.of_N (poseidon inputs)) ->
  (forall inputs, Z.of_N (poseidon inputs) < Circom.p) ->
  0 <= e0 < Circom.p -> 0 <= e1 < Circom.p -> i0 = 0 \/ i0 = 1 -> i1 = 0 \/ i1 = 1 ->
  valueToFieldElement dobValue = OK dob -> poseidonHash poseidon dobValue = OK leaf ->
  let proof := {| pathElements := [VString (BigInt.toString e0); VString (BigInt.toString e1)];
                  pathIndices := [VNumber (Number.ofInt i0); VNumber (Number.ofInt i1)] |} in
  verifyMerkleProof poseidon (VString leaf) proof
    (VBigInt (snd (Part002.AgeWithMerkle Poseidon LessEqThan dob (e0, e1) (i0, i1)))) = OK true.
Proof.
  intros Hsame Hrange He0 He1 Hi0 Hi1 Hdob Hleaf proof.
  unfold poseidonHash in Hleaf. rewrite Hdob in Hleaf. cbn [mbind result_bind rbind] in Hleaf.
  injection Hleaf as <-. unfold verifyMerkleProof, proof.
  cbn [pathElements pathIndices length Nat.eqb negb toBigInt].
  rewrite ofString_natToString. cbn [of_option mbind result_bind rbind].
  rewrite toString_of_N, circuit_root_verifyLoop by (done || lia).
  rewrite (circuit_root_value _ _ _ _ _ _ _ Hsame Hrange) by done.
  cbn [mbind result_bind rbind mret result_ret]. by rewrite toString_of_N, String.eqb_refl.
Qed.

(** *** From the credential to the circuit *)

Lemma inField_natToString (l : list Z) :
  (forall inputs, Z.of_N (poseidon inputs) < Circom.p) ->
  inField (BigInt.natToString (poseidon l)).
Proof.
  intros Hrange. exists (Z.of_N (poseidon l)).
  split; [split; [lia | apply Hrange]|]. symmetry. apply toString_of_N.
Qed.

Lemma inField_pairUp (l : list string) :
  (forall inputs, Z.of_N (poseidon inputs) < Circom.p) -> Forall inField (pairUp poseidon l).
Proof.
  intros Hrange. induction l as [|a|a b l IH] using list_pair_ind; cbn [pairUp];
    repeat constructor; try done; unfold hash2; by apply inField_natToString.
Qed.

Lemma siblingOf_inField (cur : list string) (i : nat) :
  Forall inField cur -> (i < length cur)%nat ->
  exists e, 0 <= e < Circom.p /\ siblingOf cur i = VString (BigInt.toString e).
Proof.
  intros Hall Hi. rewrite Forall_lookup in Hall. unfold siblingOf.
  destruct (Nat.even i) eqn:Hev.
  - destruct (cur !! S i) as [s|] eqn:Hs.
    + destruct (Hall _ _ Hs) as (e & He & ->). by exists e.
    + destruct (lookup_lt_is_Some_2 cur i Hi) as [s Hi'].
      rewrite Hi'. destruct (Hall _ _ Hi') as (e & He & ->). by exists e.
  - destruct i as [|i]; [discriminate|]. cbn [pred].
    destruct (lookup_lt_is_Some_2 cur i) as [s Hi']; [lia|].
    rewrite Hi'. destruct (Hall _ _ Hi') as (e & He & ->). by exists e.
Qed.

Lemma indexBit_bit (i : nat) :
  exists b, (b = 0 \/ b = 1) /\ indexBit i = VNumber (Number.ofInt b).
Proof.
  unfold indexBit. destruct (Nat.even i); [exists 0 | exists 1]; auto.
Qed.

Lemma chain_of_four (cur : list string) (rest : list (list string)) :
  chain poseidon (cur :: rest) -> (2 < length cur <= 4)%nat ->
  exists x, rest = [pairUp poseidon cur; [x]] /\ length (pairUp poseidon cur) = 2%nat.
Proof.
  intros Hc Hlen.
  assert (H2 : length (pairUp poseidon cur) = 2%nat).
  { rewrite length_pairUp. destruct cur as [|a [|b [|c [|d [|]]]]]; cbn [length] in *;
      try lia; reflexivity. }
  inversion Hc as [x Hx|c r H1 Hc1 [Hx Hr]]; subst.
  { cbn [length] in Hlen. lia. }
  inversion Hc1 as [x Hx|c r' H1' Hc2 [Hx Hr]]; subst.
  { match goal with H : [_] = pairUp poseidon cur |- _ => rewrite <- H in H2; discriminate H2 end. }
  assert (H3 : length (pairUp poseidon (pairUp poseidon cur)) = 1%nat).
  { rewrite length_pairUp, H2. reflexivity. }
  inversion Hc2 as [x Hx|c r'' H1'' Hc3 [Hx Hr]]; subst.
  - exists x. split; [|done]. by f_equal; f_equal.
  - lia.
Qed.

Lemma credential_leaves_inField (fields : gmap string value) (fieldOrder : list string)
    (lvs cur : list string) :
  (forall inputs, Z.of_N (poseidon inputs) < Circom.p) ->
  Forall2 (fun name leaf => leafOf poseidon fields name = OK leaf) fieldOrder lvs ->
  Forall2 normalized (VString <$> lvs) cur ->
  cur = lvs /\ Forall inField cur.
Proof.
  intros Hrange Hf. revert cur.
  induction Hf as [|name leaf order lvs Hl _ IH]; intros cur Hn.
  - apply Forall2_nil_inv_l in Hn as ->. by split.
  - cbn [fmap list_fmap] in Hn. apply Forall2_cons_inv_l in Hn as (s & cur' & Hs & Hn & ->).
    destruct (IH _ Hn) as [-> Hin].
    assert (Hleaf : exists l, leaf = BigInt.natToString (poseidon l)).
    { unfold leafOf in Hl.
      destruct (fields !! name) as [v|]; [|by destruct (bool_decide _)].
      unfold computeLeafHash in Hl. cbn [truthy] in Hl.
      replace (negb _) with false in Hl by reflexivity.
      unfold poseidonHash in Hl. destruct (valueToFieldElement v) as [z|]; [|discriminate Hl].
      injection Hl as <-. by eexists. }
    destruct Hleaf as [l ->]. destruct Hs as (z & Hz & ->).
    cbn [toBigInt] in Hz. rewrite ofString_natToString in Hz. injection Hz as <-.
    rewrite toString_of_N. split; [reflexivity|].
    constructor; [by apply inField_natToString | done].
Qed.

(** X26. What generate-input.js feeds the circuit.  For a credential of three
    or four fields, the proof of a field has two path elements, both printed
    field elements, and two path indices, both bits; on the field element of
    the value and this path, the [rootHash] that the circuit outputs is the
    root of the credential, the [credentialHash] that
    generate-input.js prepares for issuance.  The proviso on Poseidon is that
    of the theorem above. *)
Theorem circuit_recomputes_the_credential_root (Poseidon : list Z -> Z)
    (LessEqThan : Z -> Z -> Z -> Z) (fields : gmap string value) (fieldOrder : list string)
    (cr : CredentialRoot) (i : nat) (fieldName : string) (dobValue : value) (dob : Z) :
  (forall inputs, Poseidon inputs = Z.of_N (poseidon inputs)) ->
  (forall inputs, Z.of_N (poseidon inputs) < Circom.p) ->
  computeCredentialRoot poseidon fields fieldOrder = OK cr ->
  (2 < length fieldOrder <= 4)%nat ->
  fieldOrder !! i = Some fieldName -> fields !! fieldName = Some dobValue ->
  valueToFieldElement dobValue = OK dob ->
  exists e0 e1 i0 i1,
    generateMerkleProof (tree cr) (Z.of_nat i) =
      OK {| pathElements := [VString (BigInt.toString e0); VString (BigInt.toString e1)];
            pathIndices := [VNumber (Number.ofInt i0); VNumber (Number.ofInt i1)] |} /\
    (0 <= e0 < Circom.p /\ 0 <= e1 < Circom.p /\ (i0 = 0 \/ i0 = 1) /\ (i1 = 0 \/ i1 = 1)) /\
    toBigInt (rootHash cr) =
      OK (snd (Part002.AgeWithMerkle Poseidon LessEqThan dob (e0, e1) (i0, i1))).
Proof.
  intros Hsame Hrange Hcr Hlen Hi Hfield Hdob. unfold computeCredentialRoot in Hcr.
  destruct fieldOrder as [|f fs] eqn:Eorder; [discriminate Hcr|]. rewrite <- Eorder in *.
  change (mapM _ fieldOrder) with (mapM (leafOf poseidon fields) fieldOrder) in Hcr.
  destruct (mapM (leafOf poseidon fields) fieldOrder) as [lvs|] eqn:Hm; [|discriminate Hcr].
  cbn [mbind result_bind rbind] in Hcr.
  destruct (buildMerkleTree poseidon (VString <$> lvs)) as [t|] eqn:Ht; [|discriminate Hcr].
  injection Hcr as <-. cbn [leaves tree rootHash].
  apply mapM_result_Forall2 in Hm.
  apply buildMerkleTree_spec in Ht as (_ & cur & pushed & x & Hn & -> & Hc & Hl).
  destruct (credential_leaves_inField _ _ _ _ Hrange Hm Hn) as [-> Hin].
  destruct (Forall2_lookup_l _ _ _ _ _ Hm Hi) as (leaf & Hleaf & Hf).
  assert (Eleaf : leaf = BigInt.natToString (poseidon [dob])).
  { unfold leafOf in Hf. rewrite Hfield in Hf. unfold computeLeafHash in Hf.
    cbn [truthy] in Hf. replace (negb _) with false in Hf by reflexivity.
    unfold poseidonHash in Hf. rewrite Hdob in Hf. by injection Hf as <-. }
  subst leaf.
  assert (Hlv : (2 < length lvs <= 4)%nat) by (by rewrite <- (Forall2_length _ _ _ Hm)).
  destruct (chain_of_four _ _ Hc Hlv) as (top & -> & Hlen1).
  assert (Hi0 : (i < length lvs)%nat) by (by eapply lookup_lt_Some).
  assert (Hi1 : (Nat.div2 i < length (pairUp poseidon lvs))%nat).
  { rewrite Hlen1. destruct i as [|[|[|[|i]]]]; cbn; lia. }
  destruct (siblingOf_inField lvs i Hin Hi0) as (e0 & He0 & Hs0).
  destruct (siblingOf_inField (pairUp poseidon lvs) (Nat.div2 i) (inField_pairUp _ Hrange) Hi1)
    as (e1 & He1 & Hs1).
  destruct (indexBit_bit i) as (i0 & Hb0 & Hx0).
  destruct (indexBit_bit (Nat.div2 i)) as (i1 & Hb1 & Hx1).
  exists e0, e1, i0, i1.
  assert (Hwe : walkElements [lvs; pairUp poseidon lvs; [top]] i =
                [VString (BigInt.toString e0); VString (BigInt.toString e1)]).
  { destruct (pairUp poseidon lvs) as [|? ?] eqn:E; [discriminate Hlen1|].
    cbn [walkElements]. by rewrite Hs0, Hs1. }
  assert (Hwi : walkIndices [lvs; pairUp poseidon lvs; [top]] i =
                [VNumber (Number.ofInt i0); VNumber (Number.ofInt i1)]).
  { destruct (pairUp poseidon lvs) as [|? ?] eqn:E; [discriminate Hlen1|].
    cbn [walkIndices]. by rewrite Hx0, Hx1. }
  split.
  { erewrite generateMerkleProof_walk; [|reflexivity|exact Hi0].
    cbn [layers]. by rewrite Hwe, Hwi. }
  split; [done|].
  pose proof (chain_canonical _ _ _ Hc eq_refl (normalized_canonical _ _ Hn)) as Hcan.
  pose proof (verifyLoop_walk _ Hc Hcan lvs _ i _ x eq_refl Hleaf Hl) as Hv.
  rewrite Hwe, Hwi, circuit_root_verifyLoop in Hv by (done || lia).
  injection Hv as <-.
  rewrite (circuit_root_value _ _ _ _ _ _ _ Hsame Hrange) by done.
  cbn [root toBigInt]. by rewrite ofString_natToString.
Qed.

End MerkleProperties.

Lemma merkle_proof_verifies_witness :
  exists (t : MerkleTree) (proof : MerkleProof) (leaf : value),
    buildMerkleTree samplePoseidon sampleLeaves = OK t /\
    sampleLeaves !! Z.to_nat 2 = Some leaf /\
    generateMerkleProof t 2 = OK proof /\
    verifyMerkleProof samplePoseidon leaf proof (root t) = OK true.
Proof.
  apply (merkle_proof_verifies samplePoseidon sampleLeaves 2).
  - discriminate.
  - repeat (constructor; [eexists; reflexivity|]). constructor.
  - simpl. lia.
Defined.

Lemma odd_layer_duplicates_last_witness :
  exists (t : MerkleTree) (proof : MerkleProof),
    buildMerkleTree samplePoseidon sampleLeaves = OK t /\
    generateMerkleProof t 2 = OK proof /\
    pathElements proof !! 0%nat = Some (VString "33").
Proof.
  destruct (buildMerkleTree samplePoseidon sampleLeaves) as [t|] eqn:Hb;
    [|vm_compute in Hb; discriminate Hb].
  destruct (generateMerkleProof t 2) as [proof|] eqn:Hg.
  2:{ vm_compute in Hb. injection Hb as <-. vm_compute in Hg. discriminate Hg. }
  exists t, proof. split; [reflexivity|]. split; [exact Hg|].
  destruct (odd_layer_duplicates_last samplePoseidon sampleLeaves t Hb) as (_ & _ & H3).
  destruct (H3 eq_refl proof Hg) as (z & Hz & zl & Hzl & Hp).
  injection Hz as <-. vm_compute in Hzl. injection Hzl as <-. exact Hp.
Defined.

Lemma encoding_truncates_at_31_bytes_witness :
  sampleAddress1 <> sampleAddress2 /\
  valueToFieldElement (VString sampleAddress1) = valueToFieldElement (VString sampleAddress2).
Proof.
  split; [discriminate|].
  apply (encoding_truncates_at_31_bytes samplePoseidon sampleAddress1 sampleAddress2);
    [reflexivity | reflexivity | vm_compute; lia | vm_compute; lia | reflexivity].
Defined.

Lemma sampleTree_built : buildMerkleTree samplePoseidon sampleLeaves = OK sampleTree.
Proof. vm_compute. reflexivity. Qed.

Lemma sampleProof_generated : generateMerkleProof sampleTree 2 = OK sampleProof.
Proof. vm_compute. reflexivity. Qed.

Lemma layers_of_built_tree_witness :
  exists x, last (layers sampleTree) = Some [x] /\ root sampleTree = VString x.
Proof.
  exact (proj2 (proj2 (layers_of_built_tree samplePoseidon sampleLeaves sampleTree
                         sampleTree_built))).
Defined.

Lemma proof_length_is_tree_height_witness :
  length (pathElements sampleProof) = 2%nat /\ length (pathIndices sampleProof) = 2%nat /\
  (length sampleLeaves <= 2 ^ 2)%nat /\ (2 = 0 \/ 2 ^ (2 - 1) < length sampleLeaves)%nat.
Proof.
  exact (proof_length_is_tree_height samplePoseidon sampleLeaves sampleTree 2 sampleProof
           sampleTree_built sampleProof_generated).
Defined.

Lemma path_indices_are_the_bits_of_the_index_witness :
  pathIndices sampleProof !! 1%nat = Some (VNumber (Number.ofInt 1)).
Proof.
  apply (path_indices_are_the_bits_of_the_index samplePoseidon sampleLeaves sampleTree 2
           sampleProof 1 sampleTree_built sampleProof_generated).
  vm_compute. lia.
Defined.

Lemma generateMerkleProof_returns_iff_witness :
  generateMerkleProof sampleTree 3 = Err (LeafIndexOutOfBounds 3).
Proof.
  apply (generateMerkleProof_returns_iff samplePoseidon sampleLeaves sampleTree 3
           sampleTree_built).
  simpl. lia.
Defined.

Lemma getRootHash_of_built_tree_witness :
  getRootHash sampleTree = OK (root sampleTree).
Proof.
  exact (getRootHash_of_built_tree samplePoseidon sampleLeaves sampleTree sampleTree_built).
Defined.

Lemma two_verified_leaves_agree_or_collide_witness :
  33 = 33 \/
  exists (level : nat) (inputs1 inputs2 : list Z),
    hashedInputs samplePoseidon (BigInt.toString 33) (pathElements sampleProof)
      (pathIndices sampleProof) !! level = Some inputs1 /\
    hashedInputs samplePoseidon (BigInt.toString 33) (pathElements sampleProof)
      (pathIndices sampleProof) !! level = Some inputs2 /\
    inputs1 <> inputs2 /\ samplePoseidon inputs1 = samplePoseidon inputs2.
Proof.
  apply (two_verified_leaves_agree_or_collide samplePoseidon (VString "33") (VBigInt 33)
           33 33 sampleProof (root sampleTree));
    [reflexivity | reflexivity | lia | lia | vm_compute; reflexivity | vm_compute; reflexivity].
Defined.

Lemma computeCredentialRoot_of_strings_witness :
  exists cr,
    computeCredentialRoot samplePoseidon sampleFields ["name"; "dob"; "country"] = OK cr /\
    Forall2 (fun name leaf =>
               exists v, sampleFields !! name = Some v /\
                         poseidonHash samplePoseidon v = OK leaf)
            ["name"; "dob"; "country"] (leaves cr) /\
    buildMerkleTree samplePoseidon (VString <$> leaves cr) = OK (tree cr) /\
    rootHash cr = root (tree cr).
Proof.
  apply (computeCredentialRoot_of_strings samplePoseidon sampleFields ["name"; "dob"; "country"]).
  - discriminate.
  - repeat (constructor; [eexists; vm_compute; reflexivity|]). constructor.
Defined.

Lemma computeCredentialRoot_missing_field_witness :
  computeCredentialRoot samplePoseidon sampleFields ["name"; "age"; "country"]
    = Err (FieldNotFound "age") /\
  computeCredentialRoot samplePoseidon sampleFields ["name"; "toString"]
    = Err CannotConvertValue.
Proof.
  split.
  - apply (computeCredentialRoot_missing_field samplePoseidon sampleFields
             ["name"] ["country"] "age").
    + repeat (constructor; [eexists; vm_compute; reflexivity|]). constructor.
    + vm_compute. reflexivity.
  - apply (computeCredentialRoot_missing_field samplePoseidon sampleFields
             ["name"] [] "toString").
    + repeat (constructor; [eexists; vm_compute; reflexivity|]). constructor.
    + vm_compute. reflexivity.
Defined.

Lemma generated_proof_verifies_only_the_root_witness :
  verifyMerkleProof samplePoseidon (VString "33") sampleProof (VBigInt 12345) = OK false.
Proof.
  exact (generated_proof_verifies_only_the_root samplePoseidon sampleLeaves sampleTree 2
           (VString "33") sampleProof (VBigInt 12345) 12345 _
           sampleTree_built eq_refl sampleProof_generated eq_refl
           ltac:(vm_compute; reflexivity)).
Defined.

Lemma sampleCredentialRoot_computed :
  computeCredentialRoot samplePoseidon sampleFields ["name"; "dob"; "country"]
    = OK sampleCredentialRoot.
Proof. vm_compute. reflexivity. Qed.

Lemma credential_field_proofs_verify_witness :
  exists (fieldValue : value) (leaf : string) (proof : MerkleProof),
    sampleFields !! "dob" = Some fieldValue /\
    poseidonHash samplePoseidon fieldValue = OK leaf /\
    leaves sampleCredentialRoot !! 1%nat = Some leaf /\
    generateMerkleProof (tree sampleCredentialRoot) (Z.of_nat 1) = OK proof /\
    verifyMerkleProof samplePoseidon (VString leaf) proof (rootHash sampleCredentialRoot)
      = OK true.
Proof.
  exact (credential_field_proofs_verify samplePoseidon sampleFields ["name"; "dob"; "country"]
           sampleCredentialRoot 1 "dob" sampleCredentialRoot_computed eq_refl).
Defined.

Lemma samplePoseidon_range (inputs : list Z) : Z.of_N (samplePoseidon inputs) < Circom.p.
Proof.
  unfold samplePoseidon. rewrite Z2N.id.
  - apply Z.lt_trans with 1000003; [|reflexivity].
    induction inputs as [|x inputs _] using rev_ind; [reflexivity|].
    rewrite fold_left_app. cbn [fold_left]. by apply Z.mod_pos_bound.
  - induction inputs as [|x inputs _] using rev_ind; [done|].
    rewrite fold_left_app. cbn [fold_left]. by apply Z.mod_pos_bound.
Qed.

Lemma circuit_root_is_the_verifier_root_witness :
  verifyMerkleProof samplePoseidon (VString "900082")
    {| pathElements := [VString (BigInt.toString 5); VString (BigInt.toString 7)];
       pathIndices := [VNumber (Number.ofInt 0); VNumber (Number.ofInt 1)] |}
    (VBigInt (snd (Part002.AgeWithMerkle sampleCircuitPoseidon sampleLessEqThan
                     19900101 (5, 7) (0, 1)))) = OK true.
Proof.
  apply (circuit_root_is_the_verifier_root samplePoseidon sampleCircuitPoseidon
           sampleLessEqThan (VString "19900101") 19900101 5 7 0 1 "900082");
    [reflexivity | apply samplePoseidon_range | done | done | by left | by right
    | reflexivity | vm_compute; reflexivity].
Defined.

Lemma circuit_recomputes_the_credential_root_witness :
  exists e0 e1 i0 i1,
    generateMerkleProof (tree sampleCredentialRoot) (Z.of_nat 1) =
      OK {| pathElements := [VString (BigInt.toString e0); VString (BigInt.toString e1)];
            pathIndices := [VNumber (Number.ofInt i0); VNumber (Number.ofInt i1)] |} /\
    toBigInt (rootHash sampleCredentialRoot) =
      OK (snd (Part002.AgeWithMerkle sampleCircuitPoseidon sampleLessEqThan
                 19900101 (e0, e1) (i0, i1))).
Proof.
  destruct (circuit_recomputes_the_credential_root samplePoseidon sampleCircuitPoseidon
              sampleLessEqThan sampleFields ["name"; "dob"; "country"] sampleCredentialRoot
              1 "dob" (VString "19900101") 19900101)
    as (e0 & e1 & i0 & i1 & Hg & _ & H2);
    [reflexivity | apply samplePoseidon_range | exact sampleCredentialRoot_computed
    | cbn; lia | reflexivity | vm_compute; reflexivity | reflexivity |].
  by exists e0, e1, i0, i1.
Defined.

(** *** The stub *)

Lemma eqb_empty_false (s : string) : s <> "" -> String.eqb s "" = false.
Proof. intros H. by apply String.eqb_neq. Qed.

Lemma createCompositeKey_ok (objectType : string) (attributes : list string) (l : Ledger) :
  objectType <> "" -> Forall (fun a => a <> "") attributes ->
  createCompositeKey objectType attributes l = (OK (compositeKey objectType attributes), l).
Proof.
  intros Ho Ha. unfold createCompositeKey. rewrite (eqb_empty_false _ Ho).
  replace (existsb _ attributes) with false; [reflexivity|].
  symmetry. induction Ha as [|a attrs Hne _ IH]; [reflexivity|].
  cbn [existsb]. by rewrite (eqb_empty_false _ Hne).
Qed.

Lemma credentialKey_compositeKey (userID : string) :
  compositeKey "credential" [userID] = credentialKey userID.
Proof. reflexivity. Qed.

Lemma credentialKey_ne_verification (userID u tx : string) :
  credentialKey userID <> compositeKey "verification" [u; tx].
Proof. intros H. discriminate H. Qed.

Lemma credentialKey_ne_ageVerification (userID u tx : string) :
  credentialKey userID <> compositeKey "ageVerification" [u; tx].
Proof. intros H. discriminate H. Qed.

Lemma string_app_inv_tail (a b t : string) :
  String.app a t = String.app b t -> a = b.
Proof.
  intros H. apply (f_equal list_ascii_of_string) in H.
  assert (Happ : forall x y, list_ascii_of_string (String.app x y) =
                   list_ascii_of_string x ++ list_ascii_of_string y).
  { intros x y. induction x as [|c x IH]; [reflexivity|].
    change (c :: list_ascii_of_string (String.app x y) =
            c :: (list_ascii_of_string x ++ list_ascii_of_string y)). by rewrite IH. }
  rewrite !Happ in H. apply app_inv_tail in H.
  rewrite <- (string_of_list_ascii_of_string a), <- (string_of_list_ascii_of_string b).
  by rewrite H.
Qed.

Lemma credentialKey_inj (u1 u2 : string) : credentialKey u1 = credentialKey u2 -> u1 = u2.
Proof.
  unfold credentialKey. intros H. injection H as H.
  by apply string_app_inv_tail in H.
Qed.

(** *** The operations, run on a ledger *)

Ltac tx_unfold :=
  cbv beta delta [mbind mret Tx_bind Tx_ret tx_bind tx_ret throw lift
                  getState putState setEvent] .

Lemma invoke_IssueCredential (c : contract) (rt : Runtime) (ctx : TxContext) (peer : Peer)
    (userID credentialHash issuer timestamp : string) (l : Ledger) :
  userID <> "" -> credentialHash <> "" ->
  invoke c rt ctx peer (CallIssueCredential userID credentialHash issuer timestamp) l =
    match worldState l !! credentialKey userID with
    | Some _ => (Err (CredentialExists userID), l)
    | None =>
        let data := issued c ctx peer credentialHash issuer timestamp in
        (OK data,
         {| worldState := <[credentialKey userID := data]> (worldState l);
            event := Some ("IssueCredential",
                           JObj [("userID", JStr userID);
                                 ("credentialHash", JStr credentialHash)]) |})
    end.
Proof.
  intros Hu Hh.
  destruct c; cbv beta iota delta [invoke LibIdentity.IssueCredential Part007.IssueCredential
    LibIdentity._credentialKey Part007._credentialKey];
    rewrite (eqb_empty_false _ Hu), (eqb_empty_false _ Hh); cbn [orb];
    tx_unfold; rewrite (createCompositeKey_ok "credential" [userID] l) by (done || by constructor);
    cbv beta iota; rewrite credentialKey_compositeKey;
    destruct (worldState l !! credentialKey userID); reflexivity.
Qed.

Ltac ops_unfold :=
  cbv beta iota delta [invoke
    LibIdentity.IssueCredential LibIdentity.GetCredential LibIdentity.RevokeCredential
    LibIdentity.VerifyProof LibIdentity.VerifyAge LibIdentity.QueryVerifications
    LibIdentity._credentialKey
    Part007.IssueCredential Part007.GetCredential Part007.RevokeCredential
    Part007.VerifyProof Part007.VerifyAge Part007.QueryVerifications
    Part007._credentialKey
    createCompositeKey getStateByPartialCompositeKey].

(** An operation that throws has written nothing: neither the world
    state nor the event of the ledger has changed. *)
Lemma throw_leaves_ledger (c : contract) (rt : Runtime) (ctx : TxContext) (peer : Peer)
    (op : call) (l l' : Ledger) (e : error) :
  invoke c rt ctx peer op l = (Err e, l') -> l' = l.
Proof.
  destruct c, op; ops_unfold; tx_unfold; intros H;
    repeat (case_match; simplify_eq/=); try done.
Qed.

(** *** Sample inputs *)

(** *** Issuance *)

(** C5. Issue is write-once.  For a call with a user and a credential hash:
    when a credential is stored for the holder the call fails with
    AlreadyExistsError and leaves the ledger as it was; when none is stored
    it stores one with [valid = true], touches no other key and sets the
    IssueCredential event. *)
Theorem issue_is_write_once (c : contract) (rt : Runtime) (ctx : TxContext) (peer : Peer)
    (userID credentialHash issuer timestamp : string) (l : Ledger) :
  userID <> "" -> credentialHash <> "" ->
  let tx := invoke c rt ctx peer (CallIssueCredential userID credentialHash issuer timestamp) in
  (forall stored : json,
     credentialOf (worldState l) userID = Some stored ->
     tx l = (Err (CredentialExists userID), l) /\
     kind (CredentialExists userID) = AlreadyExistsError /\
     commit tx (worldState l) = worldState l) /\
  (credentialOf (worldState l) userID = None ->
   exists (data : json) (l' : Ledger),
     tx l = (OK data, l') /\
     credentialOf (worldState l') userID = Some data /\
     validOf data = Some (JBool true) /\
     (forall user, user <> userID ->
        credentialOf (worldState l') user = credentialOf (worldState l) user) /\
     event l' = Some ("IssueCredential",
                      JObj [("userID", JStr userID); ("credentialHash", JStr credentialHash)])).
Proof.
  intros Hu Hh tx. unfold credentialOf. split.
  - intros stored Hs. split; [|split; [reflexivity|]].
    + unfold tx. rewrite invoke_IssueCredential by done. by rewrite Hs.
    + unfold commit, run, tx. rewrite invoke_IssueCredential by done.
      cbn [worldState]. by rewrite Hs.
  - intros Hn. unfold tx. rewrite invoke_IssueCredential by done. rewrite Hn.
    eexists _, _. split; [reflexivity|]. cbn [worldState event].
    split; [apply lookup_insert_eq|]. split; [reflexivity|]. split; [|reflexivity].
    intros user Hne. apply lookup_insert_ne. intros E. by apply credentialKey_inj in E.
Qed.

Lemma issue_is_write_once_witness :
  let rt := sampleRuntime (Some true) in
  let first := invoke TxTimeContract rt (sampleCtx 1) samplePeer
                 (CallIssueCredential "u1" "111" "TrustedIssuer" "") in
  let second := invoke TxTimeContract rt (sampleCtx 2) samplePeer
                  (CallIssueCredential "u1" "999" "Mallory" "") in
  exists l1, first emptyLedger = (OK (issued TxTimeContract (sampleCtx 1) samplePeer
                                        "111" "TrustedIssuer" ""), l1) /\
             second l1 = (Err (CredentialExists "u1"), l1).
Proof.
  intros rt first second.
  destruct (issue_is_write_once TxTimeContract rt (sampleCtx 1) samplePeer
              "u1" "111" "TrustedIssuer" "" emptyLedger) as [_ Hnew]; [done..|].
  destruct Hnew as (data & l1 & Hrun & Hcred & _); [reflexivity|].
  exists l1. split.
  - unfold first. rewrite Hrun. f_equal. f_equal.
    rewrite invoke_IssueCredential in Hrun by done. by injection Hrun as <- _.
  - destruct (issue_is_write_once TxTimeContract rt (sampleCtx 2) samplePeer
                "u1" "999" "Mallory" "" l1) as [Hdup _]; [done..|].
    by destruct (Hdup data Hcred) as (H & _).
Defined.

(** *** Revocation *)

Lemma invoke_RevokeCredential (c : contract) (rt : Runtime) (ctx : TxContext) (peer : Peer)
    (userID reason : string) (l : Ledger) :
  userID <> "" ->
  invoke c rt ctx peer (CallRevokeCredential userID reason) l =
    match worldState l !! credentialKey userID with
    | None => (Err (NoCredential userID), l)
    | Some stored =>
        match revoked c ctx peer reason stored with
        | Err e => (Err e, l)
        | OK obj =>
            (OK obj,
             {| worldState := <[credentialKey userID := obj]> (worldState l);
                event := Some ("RevokeCredential", JObj [("userID", JStr userID)]) |})
        end
    end.
Proof.
  intros Hu.
  destruct c; cbv beta iota delta [invoke LibIdentity.RevokeCredential Part007.RevokeCredential
    LibIdentity._credentialKey Part007._credentialKey];
    rewrite (eqb_empty_false _ Hu);
    tx_unfold; rewrite (createCompositeKey_ok "credential" [userID] l) by (done || by constructor);
    cbv beta iota; rewrite credentialKey_compositeKey;
    (destruct (worldState l !! credentialKey userID) as [stored|]; [|reflexivity]);
    unfold revoked, stamp, Part007.txTimestamp;
    cbv beta iota delta [mbind result_bind rbind];
    (destruct (Json.setProperty stored "valid" (JBool false)) as [o1|]; [|reflexivity]);
    (destruct (Json.setProperty o1 "revokedAt" _) as [o2|]; [|reflexivity]);
    (destruct (String.eqb reason ""); [reflexivity|]);
    destruct (Json.setProperty o2 "revocationReason" _); reflexivity.
Qed.

Lemma invoke_GetCredential (c : contract) (rt : Runtime) (ctx : TxContext) (peer : Peer)
    (userID : string) (l : Ledger) :
  invoke c rt ctx peer (CallGetCredential userID) l =
    if String.eqb userID "" then (Err UserRequired, l)
    else match worldState l !! credentialKey userID with
         | None => (Err (NoCredential userID), l)
         | Some stored => (OK stored, l)
         end.
Proof.
  destruct (String.eqb_spec userID "") as [->|Hu].
  - by destruct c.
  - destruct c; cbv beta iota delta [invoke LibIdentity.GetCredential Part007.GetCredential
      LibIdentity._credentialKey Part007._credentialKey];
      rewrite (eqb_empty_false _ Hu);
      tx_unfold; rewrite (createCompositeKey_ok "credential" [userID] l) by (done || by constructor);
      cbv beta iota; rewrite credentialKey_compositeKey;
      destruct (worldState l !! credentialKey userID); reflexivity.
Qed.

Lemma get_field_set_field_eq (name : string) (v : json) (fields : list (string * json)) :
  Json.get_field name (Json.set_field name v fields) = Some v.
Proof.
  induction fields as [|[k w] fields IH]; cbn [Json.set_field Json.get_field].
  - by rewrite String.eqb_refl.
  - destruct (String.eqb k name) eqn:E; cbn [Json.get_field]; by rewrite E.
Qed.

Lemma get_field_set_field_ne (name other : string) (v : json) (fields : list (string * json)) :
  name <> other ->
  Json.get_field name (Json.set_field other v fields) = Json.get_field name fields.
Proof.
  intros Hne. induction fields as [|[k w] fields IH]; cbn [Json.set_field Json.get_field].
  - destruct (String.eqb_spec other name); [congruence | reflexivity].
  - destruct (String.eqb_spec k other) as [->|Hk]; cbn [Json.get_field].
    + destruct (String.eqb_spec other name); [congruence | reflexivity].
    + by rewrite IH.
Qed.

(** Revoking an object sets [valid] to false, whatever it was, and keeps
    every field other than [valid], [revokedAt] and [revocationReason]. *)
Lemma revoked_object (c : contract) (ctx : TxContext) (peer : Peer) (reason : string)
    (fields : list (string * json)) :
  exists fields',
    revoked c ctx peer reason (JObj fields) = OK (JObj fields') /\
    Json.get_field "valid" fields' = Some (JBool false) /\
    Json.get_field "revokedAt" fields' = Some (JStr (stamp c ctx peer)) /\
    Json.get_field "revocationReason" fields' =
      (if String.eqb reason "" then Json.get_field "revocationReason" fields
       else Some (JStr reason)) /\
    forall name, name <> "valid" -> name <> "revokedAt" -> name <> "revocationReason" ->
      Json.get_field name fields' = Json.get_field name fields.
Proof.
  unfold revoked. cbn [Json.setProperty mbind result_bind rbind].
  destruct (String.eqb reason "") eqn:E; cbn [Json.setProperty]; eexists; (split; [reflexivity|]).
  - repeat split.
    + by rewrite get_field_set_field_ne, get_field_set_field_eq by done.
    + by rewrite get_field_set_field_eq.
    + by rewrite !get_field_set_field_ne by done.
    + intros name H1 H2 H3. by rewrite !get_field_set_field_ne by done.
  - repeat split.
    + by rewrite !get_field_set_field_ne, get_field_set_field_eq by done.
    + by rewrite get_field_set_field_ne, get_field_set_field_eq by done.
    + by rewrite get_field_set_field_eq.
    + intros name H1 H2 H3. by rewrite !get_field_set_field_ne by done.
Qed.

(** *** What an operation that returned has written *)

Lemma invoke_footprint (c : contract) (rt : Runtime) (ctx : TxContext) (peer : Peer)
    (op : call) (l l' : Ledger) (r : json) :
  invoke c rt ctx peer op l = (OK r, l') ->
  match writtenKey ctx op with
  | None => l' = l
  | Some key => exists v, worldState l' = <[key := v]> (worldState l)
  end.
Proof.
  destruct c, op; cbn [writtenKey]; ops_unfold; tx_unfold; intros H;
    repeat (case_match; simplify_eq/=); try done; by eexists.
Qed.

Lemma issue_returns_args (c : contract) (rt : Runtime) (ctx : TxContext) (peer : Peer)
    (u h i t : string) (l l' : Ledger) (r : json) :
  invoke c rt ctx peer (CallIssueCredential u h i t) l = (OK r, l') -> u <> "" /\ h <> "".
Proof.
  intros Hrun. destruct (String.eqb_spec u "") as [->|Hu].
  { destruct c; discriminate Hrun. }
  destruct (String.eqb_spec h "") as [->|Hh]; [|done].
  destruct c; cbv beta iota delta [invoke LibIdentity.IssueCredential
    Part007.IssueCredential] in Hrun; rewrite (eqb_empty_false _ Hu) in Hrun;
    discriminate Hrun.
Qed.

Lemma revoke_returns_args (c : contract) (rt : Runtime) (ctx : TxContext) (peer : Peer)
    (u reason : string) (l l' : Ledger) (r : json) :
  invoke c rt ctx peer (CallRevokeCredential u reason) l = (OK r, l') -> u <> "".
Proof.
  intros Hrun ->. destruct c; discriminate Hrun.
Qed.

(** An entry of the credential namespace after a transaction was there
    before, or the transaction is an issuance and the entry sits under the
    key of its holder. *)
Lemma commit_credential_entries (c : contract) (rt : Runtime) (t : transaction)
    (state : gmap string json) (key : string) (v : json) :
  commit (invoke c rt (tx_ctx t) (tx_peer t) (tx_call t)) state !! key = Some v ->
  String.prefix credentialPrefix key = true ->
  is_Some (state !! key) \/
  exists userID credentialHash issuer timestamp,
    tx_call t = CallIssueCredential userID credentialHash issuer timestamp /\
    key = credentialKey userID.
Proof.
  destruct t as [ctx peer op]. cbn [tx_ctx tx_peer tx_call]. unfold commit, run.
  set (l := {| worldState := state; event := None |}).
  destruct (invoke c rt ctx peer op l) as [[r|e] l'] eqn:Hrun; [|by left; eexists].
  pose proof (invoke_footprint _ _ _ _ _ _ _ _ Hrun) as Hfp.
  intros Hk Hp.
  destruct op as [u h i ts|u|u reason|u p s|u m p s|]; cbn [writtenKey] in Hfp.
  - destruct Hfp as [w Hw]. rewrite Hw in Hk. cbn [worldState l] in Hk.
    destruct (decide (key = credentialKey u)) as [->|Hne]; [right; by eexists _, _, _, _|].
    left. rewrite lookup_insert_ne in Hk by done. by eexists.
  - subst l'. left. by eexists.
  - destruct Hfp as [w Hw]. rewrite Hw in Hk. cbn [worldState l] in Hk. left.
    destruct (decide (key = credentialKey u)) as [->|Hne].
    + pose proof (revoke_returns_args _ _ _ _ _ _ _ _ _ Hrun) as Hu.
      rewrite invoke_RevokeCredential in Hrun by done. cbn [worldState l] in Hrun.
      destruct (state !! credentialKey u); [by eexists | discriminate Hrun].
    + rewrite lookup_insert_ne in Hk by done. by eexists.
  - destruct Hfp as [w Hw]. rewrite Hw in Hk. cbn [worldState l] in Hk. left.
    destruct (decide (key = compositeKey "verification" [u; txID ctx])) as [->|Hne];
      [discriminate Hp|].
    rewrite lookup_insert_ne in Hk by done. by eexists.
  - destruct Hfp as [w Hw]. rewrite Hw in Hk. cbn [worldState l] in Hk. left.
    destruct (decide (key = compositeKey "ageVerification" [u; txID ctx])) as [->|Hne];
      [discriminate Hp|].
    rewrite lookup_insert_ne in Hk by done. by eexists.
  - subst l'. left. by eexists.
Qed.

(** *** Verification *)

(** A verification writes one record, under the key of its own namespace,
    holder and transaction. *)
Lemma verify_writes_record (c : contract) (rt : Runtime) (ctx : TxContext) (peer : Peer)
    (op : call) (l l' : Ledger) (r : json) :
  invoke c rt ctx peer op l = (OK r, l') ->
  match op with
  | CallVerifyProof userID _ _ =>
      exists record,
        worldState l' = <[compositeKey "verification" [userID; txID ctx] := record]> (worldState l)
  | CallVerifyAge userID _ _ _ =>
      exists record,
        worldState l' = <[compositeKey "ageVerification" [userID; txID ctx] := record]> (worldState l)
  | CallGetCredential _ | CallQueryVerifications => l' = l
  | _ => True
  end.
Proof.
  destruct c, op; try done; ops_unfold; tx_unfold; intros H;
    repeat (case_match; simplify_eq/=); try done; by eexists.
Qed.

(** One committed transaction keeps a revoked credential revoked. *)
Lemma commit_keeps_revoked (c : contract) (rt : Runtime) (t : transaction)
    (state : gmap string json) (userID : string) (credential : json) :
  credentialOf state userID = Some credential ->
  validOf credential = Some (JBool false) ->
  exists credential',
    credentialOf (commit (invoke c rt (tx_ctx t) (tx_peer t) (tx_call t)) state) userID
      = Some credential' /\
    validOf credential' = Some (JBool false).
Proof.
  intros Hc Hv. unfold credentialOf in *.
  destruct t as [ctx peer op]. cbn [tx_ctx tx_peer tx_call]. unfold commit, run.
  set (l := {| worldState := state; event := None |}).
  destruct (invoke c rt ctx peer op l) as [[r|e] l'] eqn:Hrun; [|by exists credential].
  destruct op as [u h i ts|u|u reason|u p s|u m p s|].
  - destruct (String.eqb_spec u "") as [->|Hu].
    { destruct c; discriminate Hrun. }
    destruct (String.eqb_spec h "") as [->|Hh].
    { destruct c; cbv beta iota delta [invoke LibIdentity.IssueCredential
        Part007.IssueCredential] in Hrun; rewrite (eqb_empty_false _ Hu) in Hrun;
        discriminate Hrun. }
    rewrite invoke_IssueCredential in Hrun by done. cbn [worldState l] in Hrun.
    destruct (state !! credentialKey u) eqn:Hk; [discriminate|].
    injection Hrun as _ <-. cbn [worldState].
    exists credential. split; [|done]. rewrite lookup_insert_ne; [done|].
    intros E. congruence.
  - apply verify_writes_record in Hrun as ->. by exists credential.
  - destruct (String.eqb_spec u "") as [->|Hu].
    { destruct c; discriminate Hrun. }
    rewrite invoke_RevokeCredential in Hrun by done. cbn [worldState l] in Hrun.
    destruct (state !! credentialKey u) as [stored|] eqn:Hk; [|discriminate].
    destruct (revoked c ctx peer reason stored) as [obj|] eqn:Hr; [|discriminate].
    injection Hrun as _ <-. cbn [worldState].
    destruct (decide (credentialKey u = credentialKey userID)) as [E|Hne].
    + rewrite E, lookup_insert_eq. exists obj. split; [done|].
      rewrite E, Hc in Hk. injection Hk as <-.
      destruct credential as [| | | | |fields]; try discriminate Hv.
      destruct (revoked_object c ctx peer reason fields) as (fields' & Hf & Hvalid & _).
      rewrite Hf in Hr. injection Hr as <-. exact Hvalid.
    + rewrite lookup_insert_ne by done. by exists credential.
  - apply verify_writes_record in Hrun as [record ->]. exists credential.
    split; [|done]. rewrite lookup_insert_ne; [done|].
    intros E. symmetry in E. by apply credentialKey_ne_verification in E.
  - apply verify_writes_record in Hrun as [record ->]. exists credential.
    split; [|done]. rewrite lookup_insert_ne; [done|].
    intros E. symmetry in E. by apply credentialKey_ne_ageVerification in E.
  - apply verify_writes_record in Hrun as ->. by exists credential.
Qed.

(** C9. Revocation is one-way, and a holder has one credential at most.
    From any ledger state, for any sequence of transactions of the six
    operations, with any arguments, on any peer: a stored credential whose
    [valid] is false is still stored with [valid] false afterwards; and the
    contract keeps the credential namespace to one entry per holder: an
    entry of that namespace after the transactions was there before them, or
    sits under the key of the holder of an [IssueCredential] transaction of
    the sequence, the key of no other holder. *)
Theorem revocation_is_one_way (c : contract) (rt : Runtime) (txs : list transaction)
    (state : gmap string json) :
  (forall (userID : string) (credential : json),
     credentialOf state userID = Some credential ->
     validOf credential = Some (JBool false) ->
     exists credential',
       credentialOf (execute c rt state txs) userID = Some credential' /\
       validOf credential' = Some (JBool false)) /\
  (forall (key : string) (v : json),
     execute c rt state txs !! key = Some v -> String.prefix credentialPrefix key = true ->
     is_Some (state !! key) \/
     exists t userID credentialHash issuer timestamp,
       t ∈ txs /\
       tx_call t = CallIssueCredential userID credentialHash issuer timestamp /\
       key = credentialKey userID) /\
  (forall userID other, credentialKey other = credentialKey userID -> other = userID).
Proof.
  split; [|split].
  - intros userID credential Hc Hv. unfold execute. revert state credential Hc Hv.
    induction txs as [|t txs IH]; intros state credential Hc Hv; [by exists credential|].
    cbn [fold_left].
    destruct (commit_keeps_revoked c rt t state userID credential Hc Hv) as (c' & Hc' & Hv').
    exact (IH _ c' Hc' Hv').
  - unfold execute. revert state.
    induction txs as [|t txs IH]; intros state key v Hk Hp; [left; by eexists|].
    cbn [fold_left] in Hk.
    destruct (IH _ key v Hk Hp) as [[w Hw]|(t' & u & h & i & ts & Hin & Hcall & Hkey)].
    + destruct (commit_credential_entries c rt t state key w Hw Hp)
        as [Hs|(u & h & i & ts & Hcall & Hkey)]; [by left|].
      right. exists t, u, h, i, ts. split; [left|done].
    + right. exists t', u, h, i, ts. split; [by right|done].
  - intros userID other. apply credentialKey_inj.
Qed.

Lemma revocation_is_one_way_witness :
  exists credential',
    credentialOf (execute TxTimeContract (sampleRuntime (Some true))
                    (sampleRevokedState TxTimeContract) sampleTxs) "u1" = Some credential' /\
    validOf credential' = Some (JBool false).
Proof.
  refine (proj1 (revocation_is_one_way TxTimeContract (sampleRuntime (Some true)) sampleTxs
                   (sampleRevokedState TxTimeContract)) "u1"
                   (JObj [("credentialHash", JStr "111"); ("issuer", JStr "TrustedIssuer");
                          ("timestamp", JStr "2024-11-24T00:00:00Z"); ("valid", JBool false);
                          ("revokedAt", JStr "2024-11-24T00:00:02.000Z");
                          ("revocationReason", JStr "fraud")]) _ _).
  - vm_compute. reflexivity.
  - reflexivity.
Defined.

(** C7. A [VerifyAge] call whose adulthood signal is the string 0 never
    succeeds, and once the arguments are present and the verifier has
    accepted the proof it fails with a SignalMismatchError that names the
    sub-check: [NotAdult] in the single-signal copy; in the three-signal copy
    the minimum-age sub-check ([CircuitMinAgeUnparsed], [CircuitMinAgeMismatch])
    when that one fails first, and [NotOfAge] otherwise. *)
Theorem adulthood_signal_zero_is_rejected (rt : Runtime) (ctx : TxContext) (peer : Peer)
    (userID minimumAge proofJSON publicSignalsJSON : string) (signals : list json)
    (l : Ledger) :
  JSON_parse rt publicSignalsJSON = Some (JArr signals) ->
  (signals !! 0%nat = Some (JStr "0") ->
   let tx := invoke TxTimeContract rt ctx peer
               (CallVerifyAge userID minimumAge proofJSON publicSignalsJSON) in
   (exists e, tx l = (Err e, l)) /\
   (userID <> "" ->
    Part007.verifyGroth16Payload rt proofJSON publicSignalsJSON = OK (true, JArr signals) ->
    tx l = (Err NotAdult, l) /\ kind NotAdult = SignalMismatchError)) /\
  (signals !! 2%nat = Some (JStr "0") ->
   let tx := invoke WallClockContract rt ctx peer
               (CallVerifyAge userID minimumAge proofJSON publicSignalsJSON) in
   (exists e, tx l = (Err e, l)) /\
   (userID <> "" -> minimumAge <> "" ->
    Number.isNaN (parseInt minimumAge) || Number.le0 (parseInt minimumAge) = false ->
    verifyGroth16Payload rt proofJSON publicSignalsJSON = OK (true, JArr signals) ->
    let circuitMinAge := toNumber rt (Json.index signals 0) in
    let e := if Number.isNaN circuitMinAge then CircuitMinAgeUnparsed
             else if negb (Number.eqb circuitMinAge (parseInt minimumAge))
                  then CircuitMinAgeMismatch
                  else NotOfAge in
    tx l = (Err e, l) /\ kind e = SignalMismatchError)).
Proof.
  intros Hparse. split.
  - intros H0 tx.
    assert (Hfail : exists e, tx l = (Err e, l)).
    { destruct (tx l) as [[r|e] l'] eqn:Hrun.
      - exfalso. revert Hrun. unfold tx. ops_unfold. unfold Part007.verifyGroth16Payload.
        tx_unfold. cbv beta delta [result_bind rbind result_ret]. rewrite Hparse.
        destruct signals as [|s0 signals]; [discriminate|]. injection H0 as ->.
        intros Hrun. repeat (case_match; simplify_eq/=); done.
      - apply throw_leaves_ledger in Hrun as Hl. subst l'. by exists e. }
    split; [exact Hfail|]. intros Hu Hv. split; [|reflexivity].
    unfold tx. ops_unfold. tx_unfold. rewrite (eqb_empty_false _ Hu), Hv.
    destruct signals as [|s0 signals]; [discriminate|]. injection H0 as ->.
    reflexivity.
  - intros H2 tx.
    assert (Hfail : exists e, tx l = (Err e, l)).
    { destruct (tx l) as [[r|e] l'] eqn:Hrun.
      - exfalso. revert Hrun. unfold tx. ops_unfold. unfold verifyGroth16Payload.
        tx_unfold. cbv beta delta [result_bind rbind result_ret]. rewrite Hparse.
        intros Hrun. repeat (case_match; simplify_eq/=); try done.
        match goal with
        | Hflag : negb (toBooleanSignal (Json.index _ 2)) = false |- _ =>
            unfold Json.index in Hflag; rewrite H2 in Hflag; discriminate Hflag
        end.
      - apply throw_leaves_ledger in Hrun as Hl. subst l'. by exists e. }
    split; [exact Hfail|]. intros Hu Hm Hage Hv circuitMinAge e. unfold tx.
    ops_unfold. tx_unfold. cbv zeta.
    rewrite (eqb_empty_false _ Hu), (eqb_empty_false _ Hm), Hage, Hv.
    cbn [negb]. 
    assert (Hlen : (length signals <? 3)%nat = false).
    { apply Nat.ltb_ge. apply lookup_lt_Some in H2. lia. }
    rewrite Hlen. fold circuitMinAge. unfold e.
    destruct (Number.isNaN circuitMinAge); [done|].
    destruct (negb (Number.eqb circuitMinAge (parseInt minimumAge))); [done|].
    unfold Json.index. rewrite H2. done.
Qed.

Lemma adulthood_signal_zero_is_rejected_witness :
  invoke TxTimeContract (sampleRuntime (Some true)) (sampleCtx 1) samplePeer
    (CallVerifyAge "u1" "18" "{}" signalsText1_no) emptyLedger = (Err NotAdult, emptyLedger) /\
  invoke WallClockContract (sampleRuntime (Some true)) (sampleCtx 1) samplePeer
    (CallVerifyAge "u1" "18" "{}" signalsText3_no) emptyLedger = (Err NotOfAge, emptyLedger).
Proof.
  split.
  - destruct (adulthood_signal_zero_is_rejected (sampleRuntime (Some true)) (sampleCtx 1)
                samplePeer "u1" "18" "{}" signalsText1_no [JStr "0"] emptyLedger)
      as [Hsingle _]; [reflexivity|].
    destruct (Hsingle eq_refl) as [_ H].
    destruct H as [H _]; [discriminate | reflexivity | exact H].
  - destruct (adulthood_signal_zero_is_rejected (sampleRuntime (Some true)) (sampleCtx 1)
                samplePeer "u1" "18" "{}" signalsText3_no
                [JStr "18"; JStr "222"; JStr "0"] emptyLedger)
      as [_ Hthree]; [reflexivity|].
    destruct (Hthree eq_refl) as [_ H].
    destruct H as [H _]; [discriminate | discriminate | reflexivity | reflexivity | exact H].
Defined.

(** C6, as the code has it.  A [VerifyAge] attempt that is rejected throws
    and writes nothing: the world state and the event are as before.  Only
    an accepted attempt writes a record, with [isOfAge = true] and the
    timestamp of the contract, under the key of the holder and transaction.
    [VerifyProof] writes nothing when it throws.  It throws the error of
    [verifyGroth16Payload] when that throws; when that returns, it throws
    for an empty holder or transaction identifier, of which no composite key
    can be built, and otherwise writes a record whose [valid] field is the
    verdict of the verifier, true or false. *)
Theorem verification_record_only_on_return (c : contract) (rt : Runtime) (ctx : TxContext)
    (peer : Peer) (userID minimumAge proofJSON publicSignalsJSON : string) (l : Ledger) :
  let age := invoke c rt ctx peer (CallVerifyAge userID minimumAge proofJSON publicSignalsJSON) in
  let proof := invoke c rt ctx peer (CallVerifyProof userID proofJSON publicSignalsJSON) in
  (forall e l', age l = (Err e, l') -> l' = l) /\
  (forall r l', age l = (OK r, l') ->
     exists record payload,
       worldState l' =
         <[compositeKey "ageVerification" [userID; txID ctx] := record]> (worldState l) /\
       property record "isOfAge" = Some (JBool true) /\
       property record "timestamp" = Some (JStr (stamp c ctx peer)) /\
       event l' = Some ("VerifyAge", payload)) /\
  (forall e l', proof l = (Err e, l') -> l' = l) /\
  (forall e : error,
     verifyGroth16PayloadOf c rt proofJSON publicSignalsJSON = Err e ->
     proof l = (Err e, l)) /\
  (forall (valid : bool) (publicSignals : json),
     verifyGroth16PayloadOf c rt proofJSON publicSignalsJSON = OK (valid, publicSignals) ->
     proof l =
       if String.eqb userID "" || String.eqb (txID ctx) ""
       then (Err BadCompositeKey, l)
       else
         (OK (JObj [("valid", JBool valid)]),
          {| worldState :=
               <[compositeKey "verification" [userID; txID ctx] :=
                   JObj [("userID", JStr userID); ("txID", JStr (txID ctx));
                         ("timestamp", JStr (stamp c ctx peer)); ("valid", JBool valid);
                         ("publicSignals", publicSignals)]]> (worldState l);
             event := Some ("VerifyProof",
                            JObj [("userID", JStr userID); ("txID", JStr (txID ctx));
                                  ("valid", JBool valid)]) |})).
Proof.
  intros age proof. split; [|split; [|split; [|split]]].
  - intros e l'. apply throw_leaves_ledger.
  - intros r l'. unfold age. destruct c; ops_unfold; tx_unfold; intros H;
      repeat (case_match; simplify_eq/=); try done;
      eexists _, _; (split; [reflexivity|]); done.
  - intros e l'. apply throw_leaves_ledger.
  - intros e Hv. unfold proof.
    destruct c; cbn [verifyGroth16PayloadOf] in Hv; ops_unfold; tx_unfold;
      by rewrite Hv.
  - intros valid publicSignals Hv. unfold proof.
    destruct c; cbn [verifyGroth16PayloadOf] in Hv; ops_unfold; tx_unfold;
      rewrite Hv; cbn [existsb]; rewrite orb_false_r;
      by destruct (String.eqb userID ""), (String.eqb (txID ctx) "").
Qed.

Lemma verification_record_only_on_return_witness :
  exists l' record,
    invoke TxTimeContract (sampleRuntime (Some false)) (sampleCtx 1) samplePeer
      (CallVerifyProof "u1" "{}" signalsText1) emptyLedger
      = (OK (JObj [("valid", JBool false)]), l') /\
    worldState l' !! compositeKey "verification" ["u1"; "tx1"] = Some record /\
    property record "valid" = Some (JBool false).
Proof.
  destruct (verification_record_only_on_return TxTimeContract (sampleRuntime (Some false))
              (sampleCtx 1) samplePeer "u1" "18" "{}" signalsText1 emptyLedger)
    as (_ & _ & _ & _ & H).
  eexists _, _. split; [|split].
  - exact (H false (JArr [JStr "1"; JStr "222"]) eq_refl).
  - vm_compute. reflexivity.
  - reflexivity.
Defined.

(** A rejected [VerifyAge] attempt leaves no record behind: the verifier
    rejects the proof, the call throws, and the world state is still empty. *)
Lemma rejected_attempt_writes_no_record :
  run (invoke TxTimeContract (sampleRuntime (Some false)) (sampleCtx 1) samplePeer
         (CallVerifyAge "u1" "18" "{}" signalsText1)) ∅
    = (Err ProofVerificationFailed, emptyLedger) /\
  run (invoke WallClockContract (sampleRuntime (Some false)) (sampleCtx 1) samplePeer
         (CallVerifyAge "u1" "18" "{}" signalsText3)) ∅
    = (Err ProofVerificationFailed, emptyLedger) /\
  run (invoke TxTimeContract (sampleRuntime (Some true)) (sampleCtx 1) samplePeer
         (CallVerifyAge "u1" "18" "{}" signalsText1_no)) ∅
    = (Err NotAdult, emptyLedger).
Proof. repeat split; vm_compute; reflexivity. Qed.

(** *** Binding and revocation in [VerifyAge] *)

(** C2, on the code.  The stored credential of u1 has root 111; a
    [VerifyAge] call for u1 whose public signals carry the root 222 is
    accepted by both copies of the contract: the root is never compared. *)
Theorem verify_age_accepts_a_different_root :
  (forall c, (credentialOf (sampleIssuedState c "111") "u1"
                ≫= fun credential => property credential "credentialHash")
             = Some (JStr "111")) /\
  fst (run (invoke TxTimeContract (sampleRuntime (Some true)) (sampleCtx 3) samplePeer
              (CallVerifyAge "u1" "18" "{}" signalsText1))
           (sampleIssuedState TxTimeContract "111"))
    = OK (JObj [("valid", JBool true); ("isOfAge", JBool true)]) /\
  fst (run (invoke WallClockContract (sampleRuntime (Some true)) (sampleCtx 3) samplePeer
              (CallVerifyAge "u1" "18" "{}" signalsText3))
           (sampleIssuedState WallClockContract "111"))
    = OK (JObj [("valid", JBool true); ("minimumAge", JNum (Finite 18 0))]).
Proof.
  split; [intros []; vm_compute; reflexivity|].
  split; vm_compute; reflexivity.
Qed.

(** C3, on the code.  The credential of u1, with root 222, is revoked
    ([valid = false]); a [VerifyAge] call for u1 with an accepted proof,
    passing signals and the root 222 is accepted by both copies of the
    contract: the stored credential is never read. *)
Theorem verify_age_accepts_a_revoked_credential :
  (forall c, (credentialOf (sampleRevokedAfterIssue c "222") "u1" ≫= validOf)
             = Some (JBool false)) /\
  fst (run (invoke TxTimeContract (sampleRuntime (Some true)) (sampleCtx 3) samplePeer
              (CallVerifyAge "u1" "18" "{}" signalsText1))
           (sampleRevokedAfterIssue TxTimeContract "222"))
    = OK (JObj [("valid", JBool true); ("isOfAge", JBool true)]) /\
  fst (run (invoke WallClockContract (sampleRuntime (Some true)) (sampleCtx 3) samplePeer
              (CallVerifyAge "u1" "18" "{}" signalsText3))
           (sampleRevokedAfterIssue WallClockContract "222"))
    = OK (JObj [("valid", JBool true); ("minimumAge", JNum (Finite 18 0))]).
Proof.
  split; [intros []; vm_compute; reflexivity|].
  split; vm_compute; reflexivity.
Qed.

(** *** Timestamps *)

(** The copy with transaction timestamps never looks at the peer. *)
Lemma tx_time_contract_ignores_peer (rt : Runtime) (ctx : TxContext) (p1 p2 : Peer)
    (op : call) :
  invoke TxTimeContract rt ctx p1 op = invoke TxTimeContract rt ctx p2 op.
Proof. by destruct op. Qed.

(** C8, on the code.  In lib/identity.js two peers whose clocks differ by a
    millisecond execute the same transaction on the same state and store
    different values: [revokedAt] of a revocation, the timestamp of a
    [VerifyProof] record, and the timestamp of an issuance without a
    timestamp argument are the wall clock of the peer. *)
Theorem wall_clock_reaches_ledger_state :
  let rt := sampleRuntime (Some true) in
  let p1 := {| wallClock := 1732406400123 |} in
  let p2 := {| wallClock := 1732406400124 |} in
  let s := sampleIssuedState WallClockContract "111" in
  let revoke p := commit (invoke WallClockContract rt (sampleCtx 2) p
                            (CallRevokeCredential "u1" "")) s in
  let verify p := commit (invoke WallClockContract rt (sampleCtx 2) p
                            (CallVerifyProof "u1" "{}" signalsText1)) s in
  let issue p := commit (invoke WallClockContract rt (sampleCtx 2) p
                           (CallIssueCredential "u2" "333" "TrustedIssuer" "")) s in
  (credentialOf (revoke p1) "u1" ≫= fun o => property o "revokedAt")
    = Some (JStr "2024-11-24T00:00:00.123Z") /\
  (credentialOf (revoke p2) "u1" ≫= fun o => property o "revokedAt")
    = Some (JStr "2024-11-24T00:00:00.124Z") /\
  revoke p1 <> revoke p2 /\ verify p1 <> verify p2 /\ issue p1 <> issue p2.
Proof.
  intros rt p1 p2 s revoke verify issue.
  split; [vm_compute; reflexivity|]. split; [vm_compute; reflexivity|].
  split; [|split].
  - intros E. apply (f_equal (fun m => m !! credentialKey "u1")) in E.
    vm_compute in E. discriminate E.
  - intros E. apply (f_equal (fun m => m !! compositeKey "verification" ["u1"; "tx2"])) in E.
    vm_compute in E. discriminate E.
  - intros E. apply (f_equal (fun m => m !! credentialKey "u2")) in E.
    vm_compute in E. discriminate E.
Qed.

(** *** The footprint of an operation *)

Lemma keys_frame (c : contract) (rt : Runtime) (ctx : TxContext) (peer : Peer)
    (op : call) (l l' : Ledger) (res : result json) :
  invoke c rt ctx peer op l = (res, l') ->
  forall key, writtenKey ctx op <> Some key -> worldState l' !! key = worldState l !! key.
Proof.
  intros Hrun key Hk. destruct res as [r|e].
  - apply invoke_footprint in Hrun. destruct (writtenKey ctx op) as [k|].
    + destruct Hrun as [v ->]. apply lookup_insert_ne. congruence.
    + by subst.
  - by apply throw_leaves_ledger in Hrun as ->.
Qed.

Lemma credentials_frame (c : contract) (rt : Runtime) (ctx : TxContext) (peer : Peer)
    (op : call) (l l' : Ledger) (res : result json) :
  invoke c rt ctx peer op l = (res, l') ->
  forall user, holderOf op <> Some user ->
    credentialOf (worldState l') user = credentialOf (worldState l) user.
Proof.
  intros Hrun user Hu. apply (keys_frame _ _ _ _ _ _ _ _ Hrun).
  destruct op; cbn [writtenKey holderOf] in *;
    try done; intros E; apply Hu; f_equal; apply credentialKey_inj; congruence.
Qed.

(** X13. Whatever the outcome, an operation leaves every key but its own as it
    was: the key of the holder's credential for an issuance or a
    revocation, the key of holder and transaction in its own namespace for
    a verification, none for the two queries.  In particular it leaves the
    credential of every other holder as it was.  An operation that throws
    has written nothing at all, event included. *)
Theorem footprint_of_an_operation (c : contract) (rt : Runtime) (ctx : TxContext)
    (peer : Peer) (op : call) (l l' : Ledger) (res : result json) :
  invoke c rt ctx peer op l = (res, l') ->
  (forall key, writtenKey ctx op <> Some key ->
     worldState l' !! key = worldState l !! key) /\
  (forall user, holderOf op <> Some user ->
     credentialOf (worldState l') user = credentialOf (worldState l) user) /\
  (forall e, res = Err e -> l' = l).
Proof.
  intros Hrun. split; [by eapply keys_frame|]. split; [by eapply credentials_frame|].
  intros e ->. by apply throw_leaves_ledger in Hrun.
Qed.

(** *** Reading a credential back *)

(** X14. [GetCredential] returns what the last issuance or revocation for the
    holder returned, on either copy of the contract, and changes nothing. *)
Theorem get_returns_the_last_written (c c' : contract) (rt rt' : Runtime)
    (ctx ctx' : TxContext) (peer peer' : Peer) (op : call) (userID : string)
    (l l' : Ledger) (r : json) :
  invoke c rt ctx peer op l = (OK r, l') -> holderOf op = Some userID ->
  invoke c' rt' ctx' peer' (CallGetCredential userID) l' = (OK r, l').
Proof.
  intros Hrun Hop. rewrite invoke_GetCredential.
  destruct op as [u h i ts|u|u reason|u p s|u m p s|]; try discriminate Hop;
    injection Hop as ->.
  - destruct (issue_returns_args _ _ _ _ _ _ _ _ _ _ _ Hrun) as [Hu Hh].
    rewrite invoke_IssueCredential in Hrun by done.
    destruct (worldState l !! credentialKey userID); [discriminate|].
    injection Hrun as <- <-. rewrite (eqb_empty_false _ Hu). cbn [worldState].
    by rewrite lookup_insert_eq.
  - pose proof (revoke_returns_args _ _ _ _ _ _ _ _ _ Hrun) as Hu.
    rewrite invoke_RevokeCredential in Hrun by done.
    destruct (worldState l !! credentialKey userID) as [stored|]; [|discriminate].
    destruct (revoked c ctx peer reason stored) as [obj|]; [|discriminate].
    injection Hrun as <- <-. rewrite (eqb_empty_false _ Hu). cbn [worldState].
    by rewrite lookup_insert_eq.
Qed.

(** X15. Without a stored credential of the holder, [GetCredential] and
    [RevokeCredential] throw and write nothing: a ValidationError for the
    empty identifier, a NotFoundError otherwise. *)
Theorem get_and_revoke_need_a_credential (c : contract) (rt : Runtime) (ctx : TxContext)
    (peer : Peer) (userID reason : string) (l : Ledger) :
  credentialOf (worldState l) userID = None ->
  let e := if String.eqb userID "" then UserRequired else NoCredential userID in
  invoke c rt ctx peer (CallGetCredential userID) l = (Err e, l) /\
  invoke c rt ctx peer (CallRevokeCredential userID reason) l = (Err e, l) /\
  kind e = (if String.eqb userID "" then ValidationError else NotFoundError).
Proof.
  intros Hnone e. unfold credentialOf in Hnone. subst e. rewrite invoke_GetCredential.
  destruct (String.eqb_spec userID "") as [->|Hu].
  - split; [reflexivity|]. split; [by destruct c | reflexivity].
  - rewrite invoke_RevokeCredential by done. by rewrite Hnone.
Qed.

(** *** The effect of a revocation *)

(** X16. [RevokeCredential] on a stored credential object returns and stores
    the object with [valid = false], [revokedAt] the timestamp of the
    contract (overwriting that of an earlier revocation) and, for a
    non-empty reason, [revocationReason]; every other field is kept, and the
    RevokeCredential event names the holder. *)
Theorem revocation_marks_the_credential (c : contract) (rt : Runtime) (ctx : TxContext)
    (peer : Peer) (userID reason : string) (fields : list (string * json)) (l : Ledger) :
  userID <> "" -> credentialOf (worldState l) userID = Some (JObj fields) ->
  exists fields',
    invoke c rt ctx peer (CallRevokeCredential userID reason) l =
      (OK (JObj fields'),
       {| worldState := <[credentialKey userID := JObj fields']> (worldState l);
          event := Some ("RevokeCredential", JObj [("userID", JStr userID)]) |}) /\
    Json.get_field "valid" fields' = Some (JBool false) /\
    Json.get_field "revokedAt" fields' = Some (JStr (stamp c ctx peer)) /\
    Json.get_field "revocationReason" fields' =
      (if String.eqb reason "" then Json.get_field "revocationReason" fields
       else Some (JStr reason)) /\
    forall name, name <> "valid" -> name <> "revokedAt" -> name <> "revocationReason" ->
      Json.get_field name fields' = Json.get_field name fields.
Proof.
  unfold credentialOf. intros Hu Hs.
  destruct (revoked_object c ctx peer reason fields) as (fields' & Hr & Hrest).
  exists fields'. split; [|exact Hrest].
  rewrite invoke_RevokeCredential by done. by rewrite Hs, Hr.
Qed.

(** *** Invariants of the stored credentials *)

Lemma issued_wellFormed (c : contract) (ctx : TxContext) (peer : Peer) (h i t : string) :
  h <> "" -> wellFormed (issued c ctx peer h i t).
Proof.
  intros Hh. unfold issued. eexists _, h, _, _, true.
  split; [reflexivity|]. split; [reflexivity|]. split; [done|].
  split; [reflexivity|]. split; [|done].
  destruct (String.eqb_spec i ""); [discriminate | done].
Qed.

Lemma revoked_wellFormed (c : contract) (ctx : TxContext) (peer : Peer) (reason : string)
    (stored obj : json) :
  wellFormed stored -> revoked c ctx peer reason stored = OK obj -> wellFormed obj.
Proof.
  intros (fields & h & i & t & b & -> & Hh & Hne & Hi & Hine & Ht & _) Hr.
  destruct (revoked_object c ctx peer reason fields) as (fields' & Hf & Hv & Hat & _ & Hk).
  rewrite Hf in Hr. injection Hr as <-.
  exists fields', h, i, t, false. split; [reflexivity|].
  rewrite !Hk by done. repeat split; try done. by eexists.
Qed.

Lemma commit_keeps_wellFormed (c : contract) (rt : Runtime) (t : transaction)
    (state : gmap string json) :
  (forall user credential, credentialOf state user = Some credential -> wellFormed credential) ->
  forall user credential,
    credentialOf (commit (invoke c rt (tx_ctx t) (tx_peer t) (tx_call t)) state) user
      = Some credential ->
    wellFormed credential.
Proof.
  intros Hwf user credential. destruct t as [ctx peer op]. cbn [tx_ctx tx_peer tx_call].
  unfold commit, run. set (l := {| worldState := state; event := None |}).
  destruct (invoke c rt ctx peer op l) as [[r|e] l'] eqn:Hrun; [|apply Hwf].
  destruct (decide (holderOf op = Some user)) as [Hop|Hop].
  - destruct op as [u h i ts|u|u reason|u p s|u m p s|]; try discriminate Hop;
      injection Hop as ->; unfold credentialOf.
    + destruct (issue_returns_args _ _ _ _ _ _ _ _ _ _ _ Hrun) as [Hu Hh].
      rewrite invoke_IssueCredential in Hrun by done.
      destruct (worldState l !! credentialKey user); [discriminate|].
      injection Hrun as _ <-. cbn [worldState]. rewrite lookup_insert_eq.
      intros [= <-]. by apply issued_wellFormed.
    + pose proof (revoke_returns_args _ _ _ _ _ _ _ _ _ Hrun) as Hu.
      rewrite invoke_RevokeCredential in Hrun by done.
      destruct (worldState l !! credentialKey user) as [stored|] eqn:Hs; [|discriminate].
      destruct (revoked c ctx peer reason stored) as [obj|] eqn:Hr; [|discriminate].
      injection Hrun as _ <-. cbn [worldState]. rewrite lookup_insert_eq.
      intros [= <-]. eapply revoked_wellFormed; [|exact Hr]. by apply (Hwf user).
  - rewrite (credentials_frame _ _ _ _ _ _ _ _ Hrun user Hop). apply Hwf.
Qed.

(** X17. Every credential that transactions of the contract have stored, from
    the empty ledger on, is an object with a non-empty [credentialHash], a
    non-empty [issuer], a [timestamp], and a boolean [valid] that is true
    exactly when the object has no [revokedAt]. *)
Theorem stored_credentials_are_well_formed (c : contract) (rt : Runtime)
    (txs : list transaction) (userID : string) (credential : json) :
  credentialOf (execute c rt ∅ txs) userID = Some credential -> wellFormed credential.
Proof.
  unfold execute.
  assert (H : forall state,
             (forall user cred, credentialOf state user = Some cred -> wellFormed cred) ->
             forall user cred,
               credentialOf (fold_left (fun s t =>
                   commit (invoke c rt (tx_ctx t) (tx_peer t) (tx_call t)) s) txs state) user
                 = Some cred -> wellFormed cred).
  { induction txs as [|t txs IH]; intros state Hwf; [exact Hwf|].
    cbn [fold_left]. apply IH. by apply commit_keeps_wellFormed. }
  apply H. intros user cred. unfold credentialOf. by rewrite lookup_empty.
Qed.

Lemma commit_keeps_issued_fields (c : contract) (rt : Runtime) (t : transaction)
    (state : gmap string json) (userID : string) (fields : list (string * json)) :
  credentialOf state userID = Some (JObj fields) ->
  exists fields',
    credentialOf (commit (invoke c rt (tx_ctx t) (tx_peer t) (tx_call t)) state) userID
      = Some (JObj fields') /\
    forall name, name <> "valid" -> name <> "revokedAt" -> name <> "revocationReason" ->
      Json.get_field name fields' = Json.get_field name fields.
Proof.
  intros Hc. destruct t as [ctx peer op]. cbn [tx_ctx tx_peer tx_call].
  unfold commit, run. set (l := {| worldState := state; event := None |}).
  destruct (invoke c rt ctx peer op l) as [[r|e] l'] eqn:Hrun; [|by exists fields].
  destruct (decide (holderOf op = Some userID)) as [Hop|Hop].
  - destruct op as [u h i ts|u|u reason|u p s|u m p s|]; try discriminate Hop;
      injection Hop as ->; unfold credentialOf in *.
    + destruct (issue_returns_args _ _ _ _ _ _ _ _ _ _ _ Hrun) as [Hu Hh].
      rewrite invoke_IssueCredential in Hrun by done. cbn [worldState l] in Hrun.
      rewrite Hc in Hrun. discriminate Hrun.
    + pose proof (revoke_returns_args _ _ _ _ _ _ _ _ _ Hrun) as Hu.
      rewrite invoke_RevokeCredential in Hrun by done. cbn [worldState l] in Hrun.
      rewrite Hc in Hrun.
      destruct (revoked_object c ctx peer reason fields) as (fields' & Hf & _ & _ & _ & Hk).
      rewrite Hf in Hrun. injection Hrun as _ <-. cbn [worldState].
      exists fields'. by rewrite lookup_insert_eq.
  - rewrite (credentials_frame _ _ _ _ _ _ _ _ Hrun userID Hop). by exists fields.
Qed.

(** X18. What an issuance stored for a holder stays: no sequence of
    transactions changes or removes the [credentialHash], the [issuer], the
    [timestamp] or any field of the stored credential other than [valid],
    [revokedAt] and [revocationReason]. *)
Theorem issued_fields_never_change (c : contract) (rt : Runtime) (txs : list transaction)
    (state : gmap string json) (userID : string) (fields : list (string * json)) :
  credentialOf state userID = Some (JObj fields) ->
  exists fields',
    credentialOf (execute c rt state txs) userID = Some (JObj fields') /\
    forall name, name <> "valid" -> name <> "revokedAt" -> name <> "revocationReason" ->
      Json.get_field name fields' = Json.get_field name fields.
Proof.
  unfold execute. revert state fields.
  induction txs as [|t txs IH]; intros state fields Hc; [by exists fields|].
  cbn [fold_left].
  destruct (commit_keeps_issued_fields c rt t state userID fields Hc) as (f1 & Hc1 & Hk1).
  destruct (IH _ _ Hc1) as (f2 & Hc2 & Hk2). exists f2. split; [exact Hc2|].
  intros name H1 H2 H3. by rewrite Hk2, Hk1.
Qed.

(** *** What a verification depends on *)

(** X19. The outcome of [VerifyProof] and of [VerifyAge], the returned value or
    the error thrown, is the same on every ledger: neither reads the world
    state, so neither sees whether the holder has a credential, what its
    hash is, or whether it is revoked. *)
Theorem verification_never_reads_the_ledger (c : contract) (rt : Runtime) (ctx : TxContext)
    (peer : Peer) (userID minimumAge proofJSON publicSignalsJSON : string) (l1 l2 : Ledger) :
  fst (invoke c rt ctx peer (CallVerifyAge userID minimumAge proofJSON publicSignalsJSON) l1)
    = fst (invoke c rt ctx peer (CallVerifyAge userID minimumAge proofJSON publicSignalsJSON) l2)
  /\
  fst (invoke c rt ctx peer (CallVerifyProof userID proofJSON publicSignalsJSON) l1)
    = fst (invoke c rt ctx peer (CallVerifyProof userID proofJSON publicSignalsJSON) l2).
Proof.
  split; destruct c; ops_unfold; tx_unfold;
    repeat (case_match; simplify_eq/=); done.
Qed.

(** X20. The single-signal [VerifyAge] returns exactly when the holder and the
    transaction identifier are non-empty, the [verifyGroth16Payload] of this
    copy returns an accepting verdict, and the public signals are an array
    whose first entry is the string 1; the [minimumAge] argument plays no
    part.  It then returns [valid] and [isOfAge] true. *)
Theorem single_signal_VerifyAge_returns_iff (rt : Runtime) (ctx : TxContext) (peer : Peer)
    (userID minimumAge proofJSON publicSignalsJSON : string) (l : Ledger) :
  let tx := invoke TxTimeContract rt ctx peer
              (CallVerifyAge userID minimumAge proofJSON publicSignalsJSON) in
  ((exists r l', tx l = (OK r, l')) <->
   userID <> "" /\ txID ctx <> "" /\
   exists signals,
     Part007.verifyGroth16Payload rt proofJSON publicSignalsJSON = OK (true, JArr signals) /\
     signals !! 0%nat = Some (JStr "1")) /\
  (forall r l', tx l = (OK r, l') ->
     r = JObj [("valid", JBool true); ("isOfAge", JBool true)]).
Proof.
  intros tx. subst tx. split; [split|].
  - intros (r & l' & H). revert H. ops_unfold. tx_unfold.
    destruct (String.eqb_spec userID "") as [|Hu]; [discriminate|].
    destruct (Part007.verifyGroth16Payload rt proofJSON publicSignalsJSON) as [[valid ps]|];
      [|discriminate].
    destruct valid; [|discriminate]. cbn [negb].
    destruct ps as [| | | |signals|]; try discriminate.
    destruct signals as [|s0 signals]; [discriminate|]. cbn [length Nat.eqb Json.index lookup
      list_lookup default id].
    destruct s0 as [| | |s| |]; try discriminate. cbn [Json.is_string].
    destruct (String.eqb_spec s "1") as [->|]; [|discriminate]. cbn [negb].
    intros H. split; [done|]. split; [|by exists (JStr "1" :: signals)].
    intros Ht. rewrite Ht in H. cbn [existsb] in H.
    rewrite String.eqb_refl, orb_true_r in H. discriminate H.
  - intros (Hu & Ht & signals & Hv & H0). ops_unfold. tx_unfold.
    rewrite (eqb_empty_false _ Hu), Hv. cbn [negb].
    destruct signals as [|s0 signals]; [discriminate|]. injection H0 as ->.
    cbn [existsb]. rewrite (eqb_empty_false _ Hu), (eqb_empty_false _ Ht).
    by eexists _, _.
  - intros r l'. ops_unfold. tx_unfold. intros H.
    repeat (case_match; simplify_eq/=); done.
Qed.

(** X21. The three-signal [VerifyAge] of lib/identity.js returns exactly when
    the holder, the minimum age and the transaction identifier are non-empty,
    the minimum age parses to a positive number, both payloads parse, the key
    is readable, the verifier accepts, and the public signals are an array of
    at least three entries whose first is that number and whose third is a
    true flag.  The second entry, the credential hash, plays no part. *)
Theorem three_signal_VerifyAge_returns_iff (rt : Runtime) (ctx : TxContext) (peer : Peer)
    (userID minimumAge proofJSON publicSignalsJSON : string) (l : Ledger) :
  let tx := invoke WallClockContract rt ctx peer
              (CallVerifyAge userID minimumAge proofJSON publicSignalsJSON) in
  let minAgeInt := parseInt minimumAge in
  ((exists r l', tx l = (OK r, l')) <->
   userID <> "" /\ minimumAge <> "" /\ txID ctx <> "" /\
   Number.isNaN minAgeInt = false /\ Number.le0 minAgeInt = false /\
   exists signals,
     verifyGroth16Payload rt proofJSON publicSignalsJSON = OK (true, JArr signals) /\
     (3 <= length signals)%nat /\
     Number.eqb (toNumber rt (Json.index signals 0)) minAgeInt = true /\
     toBooleanSignal (Json.index signals 2) = true) /\
  (forall r l', tx l = (OK r, l') ->
     r = JObj [("valid", JBool true); ("minimumAge", Json.ofNumber minAgeInt)]).
Proof.
  intros tx minAgeInt. subst tx minAgeInt. split; [split|].
  - intros (r & l' & H). revert H. ops_unfold. tx_unfold. cbv zeta.
    destruct (String.eqb_spec userID "") as [|Hu]; [discriminate|].
    destruct (String.eqb_spec minimumAge "") as [|Hm]; [discriminate|].
    destruct (Number.isNaN (parseInt minimumAge)) eqn:Hnan; [discriminate|].
    destruct (Number.le0 (parseInt minimumAge)) eqn:Hle; [discriminate|]. cbn [orb].
    destruct (verifyGroth16Payload rt proofJSON publicSignalsJSON) as [[valid ps]|];
      [|discriminate].
    destruct valid; [|discriminate]. cbn [negb].
    destruct ps as [| | | |signals|]; try discriminate.
    destruct (Nat.ltb_spec (length signals) 3) as [|Hlen]; [discriminate|].
    destruct (Number.isNaN (toNumber rt (Json.index signals 0))); [discriminate|].
    destruct (Number.eqb (toNumber rt (Json.index signals 0)) (parseInt minimumAge)) eqn:He;
      [|discriminate].
    destruct (toBooleanSignal (Json.index signals 2)) eqn:Hflag; [|discriminate].
    cbn [negb].
    intros H. repeat (split; [done|]). split; [|split; [done|split; [done|by exists signals]]].
    intros Ht. rewrite Ht in H. cbn [existsb] in H.
    rewrite String.eqb_refl, orb_true_r in H. discriminate H.
  - intros (Hu & Hm & Ht & Hnan & Hle & signals & Hv & Hlen & He & Hflag).
    ops_unfold. tx_unfold. cbv zeta.
    rewrite (eqb_empty_false _ Hu), (eqb_empty_false _ Hm), Hnan, Hle, Hv. cbn [orb negb].
    destruct (Nat.ltb_spec (length signals) 3) as [|_]; [lia|].
    assert (Hn : Number.isNaN (toNumber rt (Json.index signals 0)) = false).
    { by destruct (toNumber rt (Json.index signals 0)). }
    rewrite Hn, He, Hflag. cbn [negb existsb].
    rewrite (eqb_empty_false _ Hu), (eqb_empty_false _ Ht). by eexists _, _.
  - intros r l'. ops_unfold. tx_unfold. cbv zeta. intros H.
    repeat (case_match; simplify_eq/=); done.
Qed.

(** *** QueryVerifications *)

Lemma prefix_app (p s : string) : String.prefix p (String.app p s) = true.
Proof.
  induction p as [|a p IH]; [by destruct s|].
  change (String.app (String a p) s) with (String a (String.app p s)).
  cbn [String.prefix]. by destruct (ascii_dec a a).
Qed.

(** X22. [QueryVerifications] of the second copy, which reads the iterator
    with [next()], changes nothing and returns the values stored under the
    keys of the verification namespace, no others.  The key of a
    [VerifyProof] record is in that namespace; the key of a [VerifyAge]
    record and the key of a credential are not, so accepted age
    verifications are never listed. *)
Theorem QueryVerifications_lists_one_namespace (rt : Runtime)
    (ctx : TxContext) (peer : Peer) (l : Ledger) :
  (exists results,
     invoke TxTimeContract rt ctx peer CallQueryVerifications l = (OK (JArr results), l) /\
     forall v, v ∈ results <->
       exists key, worldState l !! key = Some v /\ String.prefix verificationPrefix key = true) /\
  (forall userID tx,
     String.prefix verificationPrefix (compositeKey "verification" [userID; tx]) = true /\
     String.prefix verificationPrefix (compositeKey "ageVerification" [userID; tx]) = false /\
     String.prefix verificationPrefix (credentialKey userID) = false).
Proof.
  split; [|intros userID tx; split; [|split; reflexivity]].
  2:{ change (compositeKey "verification" [userID; tx]) with
        (String.app verificationPrefix
           (String.app (String.app userID (String "000" "")) (String.app tx (String "000" "")))).
      apply prefix_app. }
  eexists. split; [reflexivity|].
  intros v. rewrite list_elem_of_fmap. split.
  - intros ([key w] & -> & Hin). apply list_elem_of_filter in Hin as [Hp Hin].
    apply elem_of_map_to_list in Hin. by exists key.
  - intros (key & Hk & Hp). exists (key, v). split; [reflexivity|].
    apply list_elem_of_filter. split; [exact Hp|]. by apply elem_of_map_to_list.
Qed.

(** *** Decimal arguments and signals *)

Lemma leading_digits_step (acc : option Z) (c : ascii) (r : string) :
  is_digit c = true ->
  leading_digits acc (String c r)
    = leading_digits (Some (default 0 acc * 10 + (byte_value c - 48))) r.
Proof. intros H. cbn [leading_digits]. by rewrite H. Qed.

Lemma leading_digits_acc (d : Decimal.uint) (acc : positive) :
  leading_digits (Some (Z.pos acc)) (NilEmpty.string_of_uint d)
    = Some (Z.pos (Pos.of_uint_acc d acc)).
Proof.
  revert acc. induction d; intros acc; cbn [NilEmpty.string_of_uint Pos.of_uint_acc];
    [reflexivity|..];
    rewrite leading_digits_step by reflexivity; cbn [default id];
    match goal with
    | |- _ = Some (Z.pos (Pos.of_uint_acc _ ?a)) =>
        rewrite <- (IHd a); f_equal; f_equal; vm_compute (byte_value _); lia
    end.
Qed.

Lemma leading_digits_zero (d : Decimal.uint) :
  leading_digits (Some 0) (NilEmpty.string_of_uint d) = Some (Z.of_N (Pos.of_uint d)).
Proof.
  induction d; cbn [NilEmpty.string_of_uint Pos.of_uint]; [reflexivity|..];
    rewrite leading_digits_step by reflexivity; cbn [default id];
    [exact IHd|..]; exact (leading_digits_acc d _).
Qed.

Lemma leading_digits_natToString (n : N) :
  leading_digits None (BigInt.natToString n) = Some (Z.of_N n).
Proof.
  pose proof (leading_digits_zero (N.to_uint n)) as H.
  pose proof (natToString_digits n) as Hd.
  unfold BigInt.natToString in *.
  destruct (natToString_cons n) as (c & r & E). unfold BigInt.natToString in E.
  rewrite E in *. cbn [bytes list_ascii_of_string forallb] in Hd.
  apply andb_prop in Hd as [Hc _].
  rewrite (leading_digits_step _ _ _ Hc) in H. rewrite (leading_digits_step _ _ _ Hc).
  cbn [default id] in *. rewrite H. f_equal. f_equal. apply DecimalN.Unsigned.of_to.
Qed.

Lemma trimStart_solid (c : ascii) (r : string) :
  solid c = true -> trimStart (String c r) = String c r.
Proof.
  intros Hc. unfold trimStart.
  change (bytes (String c r)) with (c :: list_ascii_of_string r).
  rewrite trim_go_solid by exact (proj1 (strip_any_solid c _ Hc)).
  change (c :: list_ascii_of_string r) with (list_ascii_of_string (String c r)).
  apply string_of_list_ascii_of_string.
Qed.

Lemma parseInt_natToString (n : N) :
  parseInt (BigInt.natToString n) = Number.ofBigInt (Z.of_N n).
Proof.
  pose proof (leading_digits_natToString n) as H.
  pose proof (natToString_digits n) as Hd.
  destruct (natToString_cons n) as (c & r & E). rewrite E in *.
  cbn [bytes list_ascii_of_string forallb] in Hd. apply andb_prop in Hd as [Hc _].
  unfold parseInt. rewrite trimStart_solid by (unfold solid; by rewrite Hc).
  assert (Hs : match String c r with
               | String "-" r' => (-1, r')
               | String "+" r' => (1, r')
               | _ => (1, String c r)
               end%char = (1, String c r)).
  { destruct c as [[] [] [] [] [] [] [] []]; try reflexivity; discriminate Hc. }
  rewrite Hs, H. by rewrite Z.mul_1_l.
Qed.

(** X23. A minimum age below [2^53] written in decimal is read back exactly, by
    [parseInt] from the argument and by [toNumber] from the public signal,
    whatever [Number(text)] of the runtime does: the two numbers that the
    three-signal [VerifyAge] compares are then equal. *)
Theorem decimal_minimum_age_reads_back (rt : Runtime) (z : Z) :
  - 2 ^ 53 < z < 2 ^ 53 ->
  parseInt (BigInt.toString z) = Number.ofInt z /\
  toNumber rt (JStr (BigInt.toString z)) = Number.ofInt z /\
  Number.eqb (toNumber rt (JStr (BigInt.toString z))) (parseInt (BigInt.toString z)) = true.
Proof.
  intros Hz.
  assert (Hof : Number.ofBigInt z = Number.ofInt z).
  { unfold Number.ofBigInt. destruct (Z.ltb_spec (Z.abs z) (2 ^ 53)); [reflexivity | lia]. }
  assert (Hp : parseInt (BigInt.toString z) = Number.ofInt z).
  { rewrite <- Hof. unfold BigInt.toString. destruct (Z.ltb_spec z 0) as [Hneg|Hpos].
    - pose proof (leading_digits_natToString (Z.abs_N z)) as H.
      unfold parseInt. rewrite trimStart_solid by reflexivity. rewrite H.
      f_equal. lia.
    - rewrite parseInt_natToString. f_equal. lia. }
  assert (Ht : toNumber rt (JStr (BigInt.toString z)) = Number.ofInt z).
  { cbn [toNumber]. by rewrite ofString_toString. }
  split; [exact Hp|]. split; [exact Ht|]. rewrite Hp, Ht.
  unfold Number.ofInt, Number.eqb. rewrite Z.min_id, Z.sub_diag. apply Z.eqb_refl.
Qed.

Lemma footprint_of_an_operation_witness :
  credentialOf
    (worldState (snd (invoke TxTimeContract (sampleRuntime (Some true)) (sampleCtx 2) samplePeer
                        (CallIssueCredential "u2" "333" "TrustedIssuer" "") sampleIssuedLedger)))
    "u1"
  = credentialOf (worldState sampleIssuedLedger) "u1".
Proof.
  apply (footprint_of_an_operation TxTimeContract (sampleRuntime (Some true)) (sampleCtx 2)
           samplePeer (CallIssueCredential "u2" "333" "TrustedIssuer" "") sampleIssuedLedger
           _ _ (surjective_pairing _)).
  discriminate.
Defined.

Lemma get_returns_the_last_written_witness :
  exists r l',
    invoke TxTimeContract (sampleRuntime (Some true)) (sampleCtx 2) samplePeer
      (CallRevokeCredential "u1" "fraud") sampleIssuedLedger = (OK r, l') /\
    invoke WallClockContract (sampleRuntime None) (sampleCtx 3) samplePeer
      (CallGetCredential "u1") l' = (OK r, l').
Proof.
  eexists _, _. split; [vm_compute; reflexivity|].
  apply (get_returns_the_last_written TxTimeContract WallClockContract
           (sampleRuntime (Some true)) (sampleRuntime None) (sampleCtx 2) (sampleCtx 3)
           samplePeer samplePeer (CallRevokeCredential "u1" "fraud") "u1" sampleIssuedLedger);
    [vm_compute; reflexivity | reflexivity].
Defined.

Lemma get_and_revoke_need_a_credential_witness :
  invoke TxTimeContract (sampleRuntime (Some true)) (sampleCtx 1) samplePeer
    (CallGetCredential "u1") emptyLedger = (Err (NoCredential "u1"), emptyLedger) /\
  invoke TxTimeContract (sampleRuntime (Some true)) (sampleCtx 1) samplePeer
    (CallRevokeCredential "u1" "fraud") emptyLedger = (Err (NoCredential "u1"), emptyLedger) /\
  kind (NoCredential "u1") = NotFoundError.
Proof.
  exact (get_and_revoke_need_a_credential TxTimeContract (sampleRuntime (Some true))
           (sampleCtx 1) samplePeer "u1" "fraud" emptyLedger eq_refl).
Defined.

Lemma revocation_marks_the_credential_witness :
  exists fields',
    fst (invoke TxTimeContract (sampleRuntime (Some true)) (sampleCtx 2) samplePeer
           (CallRevokeCredential "u1" "fraud") sampleIssuedLedger) = OK (JObj fields') /\
    Json.get_field "valid" fields' = Some (JBool false) /\
    Json.get_field "revokedAt" fields' = Some (JStr "2024-11-24T00:00:02.000Z") /\
    Json.get_field "credentialHash" fields' = Some (JStr "111").
Proof.
  destruct (revocation_marks_the_credential TxTimeContract (sampleRuntime (Some true))
              (sampleCtx 2) samplePeer "u1" "fraud"
              [("credentialHash", JStr "111"); ("issuer", JStr "TrustedIssuer");
               ("timestamp", JStr "2024-11-24T00:00:00Z"); ("valid", JBool true)]
              sampleIssuedLedger)
    as (fields' & Hrun & Hv & Hat & _ & Hk); [discriminate | vm_compute; reflexivity |].
  exists fields'. split; [by rewrite Hrun|]. split; [exact Hv|]. split.
  - rewrite Hat. vm_compute. reflexivity.
  - rewrite Hk by discriminate. reflexivity.
Defined.

Lemma stored_credentials_are_well_formed_witness :
  wellFormed (JObj [("credentialHash", JStr "111"); ("issuer", JStr "TrustedIssuer");
                    ("timestamp", JStr "2024-11-24T00:00:00Z"); ("valid", JBool false);
                    ("revokedAt", JStr "2024-11-24T00:00:02.000Z");
                    ("revocationReason", JStr "fraud")]).
Proof.
  apply (stored_credentials_are_well_formed TxTimeContract (sampleRuntime (Some true))
           [ {| tx_ctx := sampleCtx 1; tx_peer := samplePeer;
                tx_call := CallIssueCredential "u1" "111" "TrustedIssuer"
                             "2024-11-24T00:00:00Z" |};
             {| tx_ctx := sampleCtx 2; tx_peer := samplePeer;
                tx_call := CallRevokeCredential "u1" "fraud" |} ] "u1").
  vm_compute. reflexivity.
Defined.

Lemma issued_fields_never_change_witness :
  exists fields',
    credentialOf (execute TxTimeContract (sampleRuntime (Some true))
                    (sampleIssuedState TxTimeContract "111") sampleTxs) "u1"
      = Some (JObj fields') /\
    Json.get_field "credentialHash" fields' = Some (JStr "111") /\
    Json.get_field "issuer" fields' = Some (JStr "TrustedIssuer").
Proof.
  destruct (issued_fields_never_change TxTimeContract (sampleRuntime (Some true)) sampleTxs
              (sampleIssuedState TxTimeContract "111") "u1"
              [("credentialHash", JStr "111"); ("issuer", JStr "TrustedIssuer");
               ("timestamp", JStr "2024-11-24T00:00:00Z"); ("valid", JBool true)])
    as (fields' & Hc & Hk); [vm_compute; reflexivity|].
  exists fields'. split; [exact Hc|]. by rewrite !Hk by discriminate.
Defined.

Lemma decimal_minimum_age_reads_back_witness :
  parseInt (BigInt.toString 18) = Number.ofInt 18 /\
  toNumber (sampleRuntime None) (JStr (BigInt.toString 18)) = Number.ofInt 18 /\
  Number.eqb (toNumber (sampleRuntime None) (JStr (BigInt.toString 18)))
             (parseInt (BigInt.toString 18)) = true.
Proof.
  apply (decimal_minimum_age_reads_back (sampleRuntime None) 18). split; reflexivity.
Defined.

Example trim_ex :
  JSString.trim (String "009" (String "226" (String "128" (String "168" " 12 ")))) = "12".
Proof. reflexivity. Qed.
Example ofString_ex1 : BigInt.ofString " 0x1F " = Some 31.
Proof. reflexivity. Qed.
Example ofString_ex2 : BigInt.ofString "-007" = Some (-7).
Proof. reflexivity. Qed.
Example ofString_ex3 : BigInt.ofString "-0x10" = None.
Proof. reflexivity. Qed.
Example ofString_ex4 : BigInt.ofString "" = Some 0.
Proof. reflexivity. Qed.
Example ofString_ex5 : BigInt.ofString "12a" = None.
Proof. reflexivity. Qed.
Example toString_ex : BigInt.toString (-120) = "-120" /\ BigInt.toString 0 = "0".
Proof. split; reflexivity. Qed.
Example ofBigInt_ex : Number.ofBigInt (2^53 + 1) = Finite (2^52) 1 /\ Number.ofBigInt (2^53 + 3) = Finite (2^52 + 2) 1.
Proof. split; vm_compute; reflexivity. Qed.
